(** * The bm_mdp benchmark: interval value iteration over a battle graph

    A shallow embedding of [mdp_opt2.py] (dict based sweep) and of
    [mdp_opt3.py] (the same solver over a breadth-first compacted graph),
    with Python's [float] as the kernel's binary64 numbers, Python's [int]
    as [Z], and the properties of the solver stated and proved over it. *)

From Stdlib Require Import ZArith List String Floats Uint63 PArray Lia Bool Sorted.
From stdpp Require Import base option list zmap.
Import ListNotations.
#[local] Set Warnings "-inexact-float".
Open Scope string_scope.
Open Scope list_scope.
Open Scope Z_scope.

(** ** Python numbers *)

(** [float(z)] for an [int]: the nearest binary64 number (ties to even);
    CPython raises [OverflowError] when that would be infinite. *)
Definition py_float (z : Z) : option float :=
  let f := SF2Prim (binary_normalize prec emax z 0 false) in
  if is_infinity f then None else Some f.

(** [int(f)]: truncation towards zero; an error on [nan] and on infinities. *)
Definition py_int (f : float) : option Z :=
  match Prim2SF f with
  | S754_zero _ => Some 0
  | S754_finite s m e =>
      let a := if 0 <=? e then Zpos m * 2 ^ e else Z.quot (Zpos m) (2 ^ (- e)) in
      Some (if s then - a else a)
  | S754_infinity _ | S754_nan => None
  end.

(** [min(a, b)] keeps its first argument unless the second is smaller. *)
Definition py_min (a b : float) : float := if (b <? a)%float then b else a.

(** [range(a, b)] *)
Definition range (a b : Z) : list Z :=
  map (fun i => a + Z.of_nat i) (seq 0 (Z.to_nat (b - a))).

(** ** Dictionaries *)

(** A [dict] that the program iterates over is a list of items in insertion
    order, without repeated keys: assigning to a key that is present
    replaces the value where it stands, a new key goes to the end. *)
Section ODict.
Context {K V : Type}.
Variable eqb : K -> K -> bool.

Fixpoint od_get (d : list (K * V)) (k : K) : option V :=
  match d with
  | [] => None
  | (k', v) :: d' => if eqb k' k then Some v else od_get d' k
  end.

Fixpoint od_set (d : list (K * V)) (k : K) (v : V) : list (K * V) :=
  match d with
  | [] => [(k, v)]
  | (k', v') :: d' =>
      if eqb k' k then (k', v) :: d' else (k', v') :: od_set d' k v
  end.
End ODict.

(** What a hashable key offers: equality and a hash. *)
Class PyKey (K : Type) := { key_eqb : K -> K -> bool; key_hash : K -> Z }.

(** [==] on keys decides equality. *)
Class PyKeyLaws (K : Type) `{PyKey K} :=
  key_eqb_eq : forall a b : K, key_eqb a b = true <-> a = b.

(** A [dict] that is only looked up (never iterated) is a hash table:
    the buckets are found by hash, the entry in a bucket by equality. *)
Section PyDict.
Context {K V : Type} `{PyKey K}.

Definition pydict_get (m : Zmap (list (K * V))) (k : K) : option V :=
  match m !! key_hash k with
  | Some b => od_get key_eqb b k
  | None => None
  end.

Definition pydict_set (m : Zmap (list (K * V))) (k : K) (v : V)
  : Zmap (list (K * V)) :=
  let h := key_hash k in
  <[ h := od_set key_eqb (default [] (m !! h)) k v ]> m.
End PyDict.

Abbreviation pydict K V := (Zmap (list (K * V))).
(** A [set] is a dict without values. *)
Abbreviation pyset K := (Zmap (list (K * unit))).

Definition pyset_mem {K} `{PyKey K} (s : pyset K) (k : K) : bool :=
  match pydict_get s k with Some _ => true | None => false end.
Definition pyset_add {K} `{PyKey K} (s : pyset K) (k : K) : pyset K :=
  pydict_set s k tt.

(** [sorted(l, key=...)] is a stable sort; [lt a b] says that the key of [a]
    is smaller than the key of [b].  Stable insertion returns the list that
    any stable sort returns. *)
Fixpoint insert_sorted {A} (lt : A -> A -> bool) (x : A) (l : list A) : list A :=
  match l with
  | [] => [x]
  | y :: l' => if lt y x then y :: insert_sorted lt x l' else x :: l
  end.

Definition sorted {A} (lt : A -> A -> bool) (l : list A) : list A :=
  fold_right (insert_sorted lt) [] l.

(** ** topoSort *)

(** The Python list [stack] is kept with its end first: [pop] takes the
    head, [append] and [extend] push in front.  [getParents] may update a
    cache, so it passes a state along; [fuel] bounds the number of pops. *)
Section TopoSort.
Context {K St : Type} `{PyKey K}.
Variable getParents : St -> K -> option (list K * St).

Fixpoint topoSort_loop (fuel : nat) (stack : list (K * Z)) (visited : pyset K)
    (results : list K) (s : St) : option (list K * St) :=
  match stack with
  | [] => Some (rev results, s)
  | (current, state) :: stack =>
      match fuel with
      | O => None
      | S fuel =>
          if state =? 0 then
            if pyset_mem visited current then
              topoSort_loop fuel stack visited results s
            else
              '(parents, s) ← getParents s current;
              topoSort_loop fuel
                (rev_append (map (fun parent => (parent, 0)) parents)
                   ((current, 1) :: stack))
                (pyset_add visited current) results s
          else topoSort_loop fuel stack visited (current :: results) s
      end
  end.

Definition topoSort (fuel : nat) (roots : list K) (s : St) : option (list K * St) :=
  topoSort_loop fuel (rev (map (fun node => (node, 0)) roots)) ∅ [] s.
End TopoSort.

(** ** Damage distributions *)

Definition getDamages (L A D B : Z) (stab : bool) (te : float) : option (list Z) :=
  let x := (2 * L) / 5 in
  if D * 50 =? 0 then None else
  let x := ((x + 2) * A * B) / (D * 50) + 2 in
  let x := if stab then x + x / 2 else x in
  xf ← py_float x;
  x ← py_int (xf * te);
  Some (map (fun z => (x * z) / 255) (range 217 256)).

(** [dist[x] = dist.get(x, 0.0) + mult] *)
Definition add_mass {K} (eqb : K -> K -> bool) (dist : list (K * float)) (x : K)
    (mult : float) : list (K * float) :=
  od_set eqb dist x (default 0%float (od_get eqb dist x) + mult)%float.

Definition getCritDist (L : Z) (p : float) (A1 A2 D1 D2 B : Z) (stab : bool)
    (te : float) : option (list (Z * float)) :=
  let p := py_min p 1 in
  norm ← getDamages L A1 D1 B stab te;
  crit ← getDamages (L * 2) A2 D2 B stab te;
  len_norm ← py_float (Z.of_nat (length norm));
  len_crit ← py_float (Z.of_nat (length crit));
  let mult_norm := ((1 - p) / len_norm)%float in
  let mult_crit := (p / len_crit)%float in
  let dist := fold_left (fun dist x => add_mass Z.eqb dist x mult_norm) norm [] in
  let dist := fold_left (fun dist x => add_mass Z.eqb dist x mult_crit) crit dist in
  Some dist.

Definition plus12 (x : Z) : Z := x + x / 8.

(** ** The state of a battle *)

Record stats_t := mk_stats { atk : Z; df : Z; speed : Z; spec : Z }.
Definition NOMODS : stats_t := mk_stats 0 0 0 0.

(** [fx_stats] is the field [stats] of [fixeddata_t]. *)
Record fixeddata_t := mk_fixeddata {
  maxhp : Z; fx_stats : stats_t; lvl : Z; badges : stats_t; basespeed : Z }.

Record halfstate_t := mk_halfstate {
  fixed : fixeddata_t; hp : Z; status : Z; statmods : stats_t; stats : stats_t }.

(** [(me, them, extra)] *)
Definition state_t : Type := halfstate_t * halfstate_t * Z.

(** [s[i]] on a stats tuple, for the indices the program uses. *)
Definition stats_get (s : stats_t) (i : Z) : Z :=
  if i =? 0 then atk s else if i =? 1 then df s else if i =? 2 then speed s else spec s.

Definition applyHPChange (hstate : halfstate_t) (change : Z) : halfstate_t :=
  let hp' := Z.min (maxhp (fixed hstate)) (Z.max 0 (hp hstate + change)) in
  mk_halfstate (fixed hstate) hp' (status hstate) (statmods hstate) (stats hstate).

Definition applyBadgeBoosts (badges stats : stats_t) : stats_t :=
  let boost x b := if b =? 0 then x else plus12 x in
  mk_stats (boost (atk stats) (atk badges)) (boost (df stats) (df badges))
           (boost (speed stats) (speed badges)) (boost (spec stats) (spec badges)).

Record attack_stats_t := mk_attack_stats {
  power : Z; isspec : bool; stab : bool; te : float; crit : bool }.

Definition attack_data (act : string) : option attack_stats_t :=
  if String.eqb act "Ember" then Some (mk_attack_stats 40 true true 0.5 false)
  else if String.eqb act "Dig" then Some (mk_attack_stats 100 false false 1 false)
  else if String.eqb act "Slash" then Some (mk_attack_stats 70 false false 1 true)
  else if String.eqb act "Water Gun" then Some (mk_attack_stats 40 true true 2 false)
  else if String.eqb act "Bubblebeam" then Some (mk_attack_stats 65 true true 2 false)
  else None.

(** Equality of the tuples, field by field; the fields that change during
    a battle are compared first. *)
Definition stats_eqb (a b : stats_t) : bool :=
  if atk a =? atk b then if df a =? df b then if speed a =? speed b then
    spec a =? spec b else false else false else false.

Definition fixeddata_eqb (a b : fixeddata_t) : bool :=
  if maxhp a =? maxhp b then if lvl a =? lvl b then if basespeed a =? basespeed b then
    if stats_eqb (fx_stats a) (fx_stats b) then stats_eqb (badges a) (badges b)
    else false else false else false else false.

Definition halfstate_eqb (a b : halfstate_t) : bool :=
  if hp a =? hp b then if status a =? status b then
    if stats_eqb (stats a) (stats b) then if stats_eqb (statmods a) (statmods b) then
      fixeddata_eqb (fixed a) (fixed b)
    else false else false else false else false.

Definition state_eqb (a b : state_t) : bool :=
  let '(me1, them1, extra1) := a in
  let '(me2, them2, extra2) := b in
  if hp me1 =? hp me2 then if hp them1 =? hp them2 then if extra1 =? extra2 then
    if halfstate_eqb me1 me2 then halfstate_eqb them1 them2 else false
  else false else false else false.

(** ** Transitions *)

Definition _applyActionSide1 (state : state_t) (act : string)
    : option (list (state_t * float)) :=
  let '(me, them, extra) := state in
  if String.eqb act "Super Potion" then
    let me2 := applyHPChange me 50 in
    Some [((me2, them, extra), 1%float)]
  else
    mdata ← attack_data act;
    let aind := if isspec mdata then 3 else 0 in
    let dind := if isspec mdata then 3 else 1 in
    let pdiv := if crit mdata then 64%float else 512%float in
    bs ← py_float (basespeed (fixed me));
    dmg_dist ← getCritDist (lvl (fixed me)) (bs / pdiv)
                 (stats_get (stats me) aind) (stats_get (fx_stats (fixed me)) aind)
                 (stats_get (stats them) dind) (stats_get (fx_stats (fixed them)) dind)
                 (power mdata) (stab mdata) (te mdata);
    Some (fold_left (fun dist '(dmg, p) =>
                       let them2 := applyHPChange them (- dmg) in
                       add_mass state_eqb dist (me, them2, extra) p)
                    dmg_dist []).

(** [{(k[1], k[0], k[2]): v for k, v in dist.items()}] *)
Definition swap_items (dist : list (state_t * float)) : list (state_t * float) :=
  fold_left (fun d '((k0, k1, k2), v) => od_set state_eqb d (k1, k0, k2) v) dist [].

Definition _applyAction (state : state_t) (side : Z) (act : string)
    : option (list (state_t * float)) :=
  if side =? 0 then _applyActionSide1 state act
  else
    let '(me, them, extra) := state in
    dist ← _applyActionSide1 (them, me, extra) act;
    Some (swap_items dist).

(** ** Graph keys *)

(** The keys of the graph are the tuples [(0, state)], [(1, state, action)],
    [(2, state, side, action)] and [(4, won)]. *)
Inductive statep :=
| Key0 (state : state_t)
| Key1 (state : state_t) (action : string)
| Key2 (state : state_t) (side : Z) (action : string)
| Key4 (won : bool).

(** [statep[0]] *)
Definition tag (sp : statep) : Z :=
  match sp with Key0 _ => 0 | Key1 _ _ => 1 | Key2 _ _ _ => 2 | Key4 _ => 4 end.

Definition statep_eqb (a b : statep) : bool :=
  match a, b with
  | Key0 s1, Key0 s2 => state_eqb s1 s2
  | Key1 s1 a1, Key1 s2 a2 => if state_eqb s1 s2 then String.eqb a1 a2 else false
  | Key2 s1 d1 a1, Key2 s2 d2 a2 =>
      if d1 =? d2 then if state_eqb s1 s2 then String.eqb a1 a2 else false else false
  | Key4 b1, Key4 b2 => Bool.eqb b1 b2
  | _, _ => false
  end.

Definition state_hash (s : state_t) : Z :=
  let '(me, them, _) := s in Z.shiftl (hp me) 7 + hp them.

Definition action_hash (a : string) : Z :=
  if Nat.odd (String.length a) then 2 else 0.

Definition statep_hash (sp : statep) : Z :=
  match sp with
  | Key0 s => Z.shiftl (state_hash s) 4
  | Key1 s a => Z.shiftl (state_hash s) 4 + 1 + action_hash a
  | Key2 s d a =>
      Z.shiftl (state_hash s) 4 + (if d =? 0 then 4 else 12) + action_hash a
  | Key4 b => if b then -1 else -2
  end.

(** Python's order on the tuples, used to break ties when sorting. *)
Definition lex (c1 c2 : comparison) : comparison :=
  match c1 with Eq => c2 | _ => c1 end.

Definition stats_compare (a b : stats_t) : comparison :=
  lex (atk a ?= atk b) (lex (df a ?= df b) (lex (speed a ?= speed b) (spec a ?= spec b))).

Definition fixeddata_compare (a b : fixeddata_t) : comparison :=
  lex (maxhp a ?= maxhp b) (lex (stats_compare (fx_stats a) (fx_stats b))
    (lex (lvl a ?= lvl b) (lex (stats_compare (badges a) (badges b))
      (basespeed a ?= basespeed b)))).

Definition halfstate_compare (a b : halfstate_t) : comparison :=
  lex (fixeddata_compare (fixed a) (fixed b)) (lex (hp a ?= hp b)
    (lex (status a ?= status b) (lex (stats_compare (statmods a) (statmods b))
      (stats_compare (stats a) (stats b))))).

Definition state_compare (a b : state_t) : comparison :=
  let '(me1, them1, extra1) := a in
  let '(me2, them2, extra2) := b in
  lex (halfstate_compare me1 me2) (lex (halfstate_compare them1 them2) (extra1 ?= extra2)).

Definition statep_compare (a b : statep) : comparison :=
  match a, b with
  | Key0 s1, Key0 s2 => state_compare s1 s2
  | Key1 s1 a1, Key1 s2 a2 => lex (state_compare s1 s2) (String.compare a1 a2)
  | Key2 s1 d1 a1, Key2 s2 d2 a2 =>
      lex (state_compare s1 s2) (lex (d1 ?= d2) (String.compare a1 a2))
  | Key4 b1, Key4 b2 => Bool.compare b1 b2
  | _, _ => tag a ?= tag b
  end.

(** The sort key [(-t[1], t[0])]: tuples compare on the first component
    on which they differ. *)
Definition pair_lt (a b : statep * float) : bool :=
  let na := (- snd a)%float in
  let nb := (- snd b)%float in
  if (na =? nb)%float then
    match statep_compare (fst a) (fst b) with Lt => true | _ => false end
  else (na <? nb)%float.

(** The outcomes of a chance node, or the options of a choice node. *)
Inductive succs :=
| States (l : list statep)
| Pairs (l : list (statep * float)).

Definition states_only (s : succs) : list statep :=
  match s with States l => l | Pairs l => map fst l end.

#[export] Instance statep_key : PyKey statep :=
  {| key_eqb := statep_eqb; key_hash := statep_hash |}.

(** ** The class Battle *)

(** [dmin] and [dmax] are the fields [min] and [max].  They are
    [defaultdict]s: reading a missing key stores the default under it and
    returns it, so a read is a lookup with a default. *)
Record Battle := mk_Battle {
  successors : pydict statep (succs * list statep);
  dmin : pydict statep float;
  dmax : pydict statep float;
  frozen : pyset statep }.

Definition win : statep := Key4 true.
Definition loss : statep := Key4 false.

Definition min_get (self : Battle) (sp : statep) : float :=
  default 0%float (pydict_get (dmin self) sp).
Definition max_get (self : Battle) (sp : statep) : float :=
  default 1%float (pydict_get (dmax self) sp).

Definition set_successors (self : Battle) c : Battle :=
  mk_Battle c (dmin self) (dmax self) (frozen self).
Definition set_bounds (self : Battle) (sp : statep) (lo hi : float) : Battle :=
  mk_Battle (successors self) (pydict_set (dmin self) sp lo)
            (pydict_set (dmax self) sp hi) (frozen self).
Definition freeze (self : Battle) (sp : statep) : Battle :=
  mk_Battle (successors self) (dmin self) (dmax self) (pyset_add (frozen self) sp).

(** [Battle()] *)
Definition Battle_new : Battle :=
  mk_Battle ∅ (pydict_set ∅ win 1%float) (pydict_set ∅ loss 0%float)
            (pyset_add (pyset_add ∅ win) loss).

Definition _getSuccessorsA (state : state_t) : list statep :=
  [Key1 state "Dig"; Key1 state "Super Potion"].

(** The key a resulting state stands for: lost, won, or [next]. *)
Definition classify (newstate : state_t) (next : statep) : statep :=
  let '(me, them, _) := newstate in
  if hp me =? 0 then loss else if hp them =? 0 then win else next.

Definition _applyActionPair (state : state_t) (side1 : Z) (act1 : string)
    (side2 : Z) (act2 : string) (dist : list (statep * float)) (pmult : float)
    : option (list (statep * float)) :=
  d ← _applyAction state side1 act1;
  Some (fold_left (fun dist '(newstate, p) =>
                     add_mass statep_eqb dist
                       (classify newstate (Key2 newstate side2 act2))
                       (p * pmult)%float) d dist).

Definition _getSuccessorsB (state : state_t) (action : string)
    : option (list (statep * float)) :=
  let '(me, them, _) := state in
  let body (dist : list (statep * float)) (eact : string) (p : float) :=
    let priority1 :=
      speed (stats me) + (if String.eqb action "Super Potion" then 10000 else 0) in
    let priority2 := speed (stats them) in
    if priority2 <? priority1 then _applyActionPair state 0 action 1 eact dist p
    else if priority1 <? priority2 then _applyActionPair state 1 eact 0 action dist p
    else
      dist ← _applyActionPair state 0 action 1 eact dist (p * 0.5)%float;
      _applyActionPair state 1 eact 0 action dist (p * 0.5)%float in
  dist ← body [] "Water Gun" (64 / 130)%float;
  dist ← body dist "Bubblebeam" (66 / 130)%float;
  Some (sorted pair_lt dist).

Definition _getSuccessorsC (state : state_t) (side : Z) (action : string)
    : option (list (statep * float)) :=
  d ← _applyAction state side action;
  let dist := fold_left (fun dist '(newstate, p) =>
                add_mass statep_eqb dist (classify newstate (Key0 newstate)) p) d [] in
  Some (sorted pair_lt dist).

(** The successors of a key, as the methods compute them on a cache miss.
    A key [(4, _)] has two components, the unpacking of a chance key fails. *)
Definition compute_successors (sp : statep) : option succs :=
  match sp with
  | Key0 state => Some (States (_getSuccessorsA state))
  | Key1 state action => Pairs <$> _getSuccessorsB state action
  | Key2 state side action => Pairs <$> _getSuccessorsC state side action
  | Key4 _ => None
  end.

Definition getSuccessors (self : Battle) (sp : statep) : option (succs * Battle) :=
  match pydict_get (successors self) sp with
  | Some cached => Some (fst cached, self)
  | None =>
      pairs_or_states ← compute_successors sp;
      Some (pairs_or_states,
            set_successors self
              (pydict_set (successors self) sp
                 (pairs_or_states, states_only pairs_or_states)))
  end.

Definition getSuccessorsList (self : Battle) (sp : statep)
    : option (list statep * Battle) :=
  if tag sp =? 4 then Some ([], self)
  else
    match pydict_get (successors self) sp with
    | Some cached => Some (snd cached, self)
    | None =>
        '(_, self) ← getSuccessors self sp;
        cached ← pydict_get (successors self) sp;
        Some (snd cached, self)
    end.

(** The fixed initial setup of [evaluate]. *)
Definition initial_statep : statep :=
  let badges := mk_stats 1 0 0 0 in
  let starfixed := mk_fixeddata 59 (mk_stats 40 44 56 50) 11 NOMODS 115 in
  let starhalf := mk_halfstate starfixed 59 0 NOMODS (mk_stats 40 44 56 50) in
  let charfixed := mk_fixeddata 63 (mk_stats 39 34 46 38) 26 badges 65 in
  let charhalf := mk_halfstate charfixed 63 0 NOMODS
                    (applyBadgeBoosts badges (mk_stats 39 34 46 38)) in
  Key0 (charhalf, starhalf, 0).

(** The new bounds of a choice node and of a chance node. *)
Definition choice_bounds (self : Battle) (succ : list statep) : float * float :=
  fold_left (fun '(best_min, best_max) sp2 =>
               let vmin := min_get self sp2 in
               let vmax := max_get self sp2 in
               (if (best_min <? vmin)%float then vmin else best_min,
                if (best_max <? vmax)%float then vmax else best_max))
            succ (neg_infinity, neg_infinity).

Definition chance_bounds (self : Battle) (succ : list (statep * float)) : float * float :=
  fold_left (fun '(smin, smax) '(sp2, p) =>
               ((smin + min_get self sp2 * p)%float, (smax + max_get self sp2 * p)%float))
            succ (0%float, 0%float).

(** ** mdp_opt2: the sweep over dictionaries *)
Module Opt2.

(** The body of [for sp in stateps].  After the assignments [dmin[sp]] is
    [lo] and [dmax[sp]] is [hi]. *)
Definition visit (self : Battle) (sp : statep) : option Battle :=
  if pyset_mem (frozen self) sp then Some self
  else
    '(succ, self) ← getSuccessors self sp;
    '(lo, hi) ← match succ with
                | States l => if tag sp =? 0 then Some (choice_bounds self l) else None
                | Pairs l => if tag sp =? 0 then None else Some (chance_bounds self l)
                end;
    let self := set_bounds self sp lo hi in
    if (hi <=? lo)%float then
      let mid := ((lo + hi) / 2)%float in
      Some (freeze (set_bounds self sp mid mid) sp)
    else Some self.

Definition sweep (self : Battle) (stateps : list statep) : option Battle :=
  foldl (fun acc sp => self ← acc; visit self sp) (Some self) stateps.

(** [while dmax[initial_statep] - dmin[initial_statep] > tolerance]:
    [sweeps] bounds the number of iterations. *)
Fixpoint sweep_loop (sweeps : nat) (tolerance : float) (stateps : list statep)
    (self : Battle) : option Battle :=
  if (tolerance <? max_get self initial_statep - min_get self initial_statep)%float then
    match sweeps with
    | O => None
    | S sweeps =>
        self ← sweep self stateps;
        sweep_loop sweeps tolerance stateps self
    end
  else Some self.

(** The object when [evaluate] returns. *)
Definition evaluate_run (fuel sweeps : nat) (tolerance : float) (self : Battle)
    : option Battle :=
  '(stateps, self) ← topoSort getSuccessorsList fuel [initial_statep] self;
  sweep_loop sweeps tolerance stateps self.

Definition evaluate (fuel sweeps : nat) (tolerance : float) (self : Battle)
    : option float :=
  self ← evaluate_run fuel sweeps tolerance self;
  Some ((max_get self initial_statep + min_get self initial_statep) / 2)%float.

End Opt2.

(** ** mdp_opt3: the sweep over the compacted graph *)

(** [l[i]] and [l[i] = x] on a Python list raise [IndexError] out of range. *)
Definition py_list_set {A} (l : list A) (i : nat) (x : A) : option (list A) :=
  if (i <? length l)%nat then Some (<[i := x]> l) else None.

Module Opt3.

(** What [build_graph] returns.  While the graph is built, the lists that
    grow by [append] are kept with their end first. *)
Record graph := mk_graph {
  id_of : pydict statep nat;
  states : list statep;
  kinds : list Z;
  succ_states : list (option (list nat));
  succ_pairs : list (option (list (nat * float))) }.

(** [if sp2 not in id_of: id_of[sp2] = len(states); states.append(sp2);
    q.append(sp2)], and then [id_of[sp2]]. *)
Definition intern (acc : pydict statep nat * list statep * list statep) (sp2 : statep)
    : pydict statep nat * list statep * list statep * nat :=
  let '(ids, sts, q) := acc in
  match pydict_get ids sp2 with
  | Some i => (ids, sts, q, i)
  | None =>
      let i := length sts in
      (pydict_set ids sp2 i, sp2 :: sts, q ++ [sp2], i)
  end.

Definition intern_states (acc : pydict statep nat * list statep * list statep)
    (nxt : list statep) :=
  fold_left (fun '(acc, ids) sp2 => let '(acc, i) := intern acc sp2 in (acc, ids ++ [i]))
            nxt (acc, []).

Definition intern_pairs (acc : pydict statep nat * list statep * list statep)
    (nxt : list (statep * float)) :=
  fold_left (fun '(acc, pairs) '(sp2, p) =>
               let '(acc, i) := intern acc sp2 in (acc, pairs ++ [(i, p)]))
            nxt (acc, []).

(** [while q]: [fuel] bounds the number of keys taken from the queue. *)
Fixpoint build_graph_loop (fuel : nat) (self : Battle) (q : list statep)
    (g : graph) : option (graph * Battle) :=
  match q with
  | [] => Some (mk_graph (id_of g) (rev (states g)) (rev (kinds g))
                         (rev (succ_states g)) (rev (succ_pairs g)), self)
  | sp :: q =>
      match fuel with
      | O => None
      | S fuel =>
          _ ← pydict_get (id_of g) sp;
          let st := tag sp in
          if st =? 0 then
            '(nxt, self) ← getSuccessors self sp;
            match nxt with
            | States nxt =>
                let '(ids, sts, q, l) := intern_states (id_of g, states g, q) nxt in
                build_graph_loop fuel self q
                  (mk_graph ids sts (0 :: kinds g) (Some l :: succ_states g)
                            (None :: succ_pairs g))
            | Pairs _ => None
            end
          else if st =? 4 then
            build_graph_loop fuel self q
              (mk_graph (id_of g) (states g) (4 :: kinds g) (Some [] :: succ_states g)
                        (Some [] :: succ_pairs g))
          else
            '(nxt, self) ← getSuccessors self sp;
            match nxt with
            | Pairs nxt =>
                let '(ids, sts, q, l) := intern_pairs (id_of g, states g, q) nxt in
                build_graph_loop fuel self q
                  (mk_graph ids sts (st :: kinds g) (None :: succ_states g)
                            (Some l :: succ_pairs g))
            | States _ => None
            end
      end
  end.

Definition build_graph (fuel : nat) (self : Battle) (initial_statep : statep)
    : option (graph * Battle) :=
  build_graph_loop fuel self [initial_statep]
    (mk_graph (pydict_set ∅ initial_statep 0%nat) [initial_statep] [] [] []).

(** The arrays of the hot loop. *)
Record arrays := mk_arrays {
  dmin_arr : list float; dmax_arr : list float; frozen_a : list bool }.

Definition choice_bounds (a : arrays) (succ : list nat) : option (float * float) :=
  foldl (fun acc j =>
           '(best_min, best_max) ← acc;
           vmin ← dmin_arr a !! j;
           vmax ← dmax_arr a !! j;
           Some (if (best_min <? vmin)%float then vmin else best_min,
                 if (best_max <? vmax)%float then vmax else best_max))
        (Some (neg_infinity, neg_infinity)) succ.

Definition chance_bounds (a : arrays) (succ : list (nat * float)) : option (float * float) :=
  foldl (fun acc '(j, p) =>
           '(smin, smax) ← acc;
           vmin ← dmin_arr a !! j;
           vmax ← dmax_arr a !! j;
           Some ((smin + vmin * p)%float, (smax + vmax * p)%float))
        (Some (0%float, 0%float)) succ.

Definition set_bounds (a : arrays) (i : nat) (lo hi : float) : option arrays :=
  lo_arr ← py_list_set (dmin_arr a) i lo;
  hi_arr ← py_list_set (dmax_arr a) i hi;
  Some (mk_arrays lo_arr hi_arr (frozen_a a)).

(** The body of [for i in order_ids]. *)
Definition visit (g : graph) (a : arrays) (i : nat) : option arrays :=
  fr ← frozen_a a !! i;
  if fr : bool then Some a
  else
    k ← kinds g !! i;
    a ← (if k =? 0 then
           succ ← succ_states g !! i;
           succ ← succ;
           '(lo, hi) ← choice_bounds a succ;
           set_bounds a i lo hi
         else if (k =? 1) || (k =? 2) then
           succ ← succ_pairs g !! i;
           succ ← succ;
           '(lo, hi) ← chance_bounds a succ;
           set_bounds a i lo hi
         else Some a);
    lo ← dmin_arr a !! i;
    hi ← dmax_arr a !! i;
    if (hi <=? lo)%float then
      let mid := (0.5 * (lo + hi))%float in
      a ← set_bounds a i mid mid;
      fr ← py_list_set (frozen_a a) i true;
      Some (mk_arrays (dmin_arr a) (dmax_arr a) fr)
    else Some a.

Definition sweep (g : graph) (a : arrays) (order_ids : list nat) : option arrays :=
  foldl (fun acc i => a ← acc; visit g a i) (Some a) order_ids.

Fixpoint sweep_loop (sweeps : nat) (tolerance : float) (g : graph) (i_init : nat)
    (order_ids : list nat) (a : arrays) : option arrays :=
  lo ← dmin_arr a !! i_init;
  hi ← dmax_arr a !! i_init;
  if (tolerance <? hi - lo)%float then
    match sweeps with
    | O => None
    | S sweeps =>
        a ← sweep g a order_ids;
        sweep_loop sweeps tolerance g i_init order_ids a
    end
  else Some a.

(** The arrays after the terminals are seeded. *)
Definition seed (g : graph) : option arrays :=
  let n := length (states g) in
  let a := mk_arrays (replicate n 0%float) (replicate n 1%float) (replicate n false) in
  a ← match pydict_get (id_of g) loss with
      | Some i_loss =>
          hi_arr ← py_list_set (dmax_arr a) i_loss 0%float;
          fr ← py_list_set (frozen_a a) i_loss true;
          Some (mk_arrays (dmin_arr a) hi_arr fr)
      | None => Some a
      end;
  match pydict_get (id_of g) win with
  | Some i_win =>
      lo_arr ← py_list_set (dmin_arr a) i_win 1%float;
      fr ← py_list_set (frozen_a a) i_win true;
      Some (mk_arrays lo_arr (dmax_arr a) fr)
  | None => Some a
  end.

(** The arrays when [evaluate] returns, with the graph and the root's id. *)
Definition evaluate_run (fuel sweeps : nat) (tolerance : float) (self : Battle)
    : option (graph * nat * arrays) :=
  '(g, self) ← build_graph fuel self initial_statep;
  a ← seed g;
  i_init ← pydict_get (id_of g) initial_statep;
  '(stateps, self) ← topoSort getSuccessorsList fuel [initial_statep] self;
  order_ids ← mapM (pydict_get (id_of g)) stateps;
  a ← sweep_loop sweeps tolerance g i_init order_ids a;
  Some (g, i_init, a).

Definition evaluate (fuel sweeps : nat) (tolerance : float) (self : Battle)
    : option float :=
  '(_, i_init, a) ← evaluate_run fuel sweeps tolerance self;
  lo ← dmin_arr a !! i_init;
  hi ← dmax_arr a !! i_init;
  Some (0.5 * (hi + lo))%float.

End Opt3.

(** ** bench_mdp *)

(** How a call of [bench_mdp] ends.  [Raises_invalid_result] is the
    [Exception] whose message shows the result, the expected value, their
    difference and the bound; [Raises_TypeError] is what [None - expected]
    raises; [No_result] stands for a call of [evaluate] that has no result. *)
Inductive outcome :=
| Returns (result : float)
| Raises_invalid_result (got expected diff max_diff : float)
| Raises_TypeError
| No_result.

(** The text of [bench_mdp] is the same in both files; [evaluate] stands for
    [Battle().evaluate]. *)
Section Bench.
Variable evaluate : float -> option float.

(** [for _ in range(loops): result = Battle().evaluate(0.192)];
    [None] when a call has no result. *)
Fixpoint bench_loop (n : nat) (result : option float) : option (option float) :=
  match n with
  | O => Some result
  | S n => r ← evaluate 0.192%float; bench_loop n (Some r)
  end.

Definition bench_mdp (loops : Z) : outcome :=
  let expected := 0.89873589887%float in
  let max_diff := 1e-6%float in
  match bench_loop (Z.to_nat loops) None with
  | None => No_result
  | Some None => Raises_TypeError
  | Some (Some result) =>
      if (max_diff <? abs (result - expected))%float then
        Raises_invalid_result result expected (result - expected) max_diff
      else Returns result
  end.
End Bench.

(** * Properties *)

(** ** Equality tests decide equality *)

Lemma stats_eqb_eq (a b : stats_t) : stats_eqb a b = true <-> a = b.
Proof.
  destruct a, b; unfold stats_eqb; cbn.
  repeat match goal with |- context [?x =? ?y] => destruct (Z.eqb_spec x y) end;
    split; intros E; try discriminate; try congruence.
Qed.

Lemma fixeddata_eqb_eq (a b : fixeddata_t) : fixeddata_eqb a b = true <-> a = b.
Proof.
  destruct a as [m1 s1 l1 b1 p1], b as [m2 s2 l2 b2 p2]; unfold fixeddata_eqb; cbn.
  destruct (Z.eqb_spec m1 m2); [|split; [discriminate|congruence]].
  destruct (Z.eqb_spec l1 l2); [|split; [discriminate|congruence]].
  destruct (Z.eqb_spec p1 p2); [|split; [discriminate|congruence]].
  destruct (stats_eqb s1 s2) eqn:Es.
  - apply stats_eqb_eq in Es. rewrite stats_eqb_eq. split; congruence.
  - split; [discriminate|]. intros E. injection E as -> -> -> -> ->.
    rewrite (proj2 (stats_eqb_eq s2 s2) eq_refl) in Es. discriminate.
Qed.

Lemma halfstate_eqb_eq (a b : halfstate_t) : halfstate_eqb a b = true <-> a = b.
Proof.
  destruct a as [f1 h1 t1 m1 s1], b as [f2 h2 t2 m2 s2]; unfold halfstate_eqb; cbn.
  destruct (Z.eqb_spec h1 h2); [|split; [discriminate|congruence]].
  destruct (Z.eqb_spec t1 t2); [|split; [discriminate|congruence]].
  destruct (stats_eqb s1 s2) eqn:Es.
  2:{ split; [discriminate|]. intros E. injection E as -> -> -> -> ->.
      rewrite (proj2 (stats_eqb_eq s2 s2) eq_refl) in Es. discriminate. }
  destruct (stats_eqb m1 m2) eqn:Em.
  2:{ split; [discriminate|]. intros E. injection E as -> -> -> -> ->.
      rewrite (proj2 (stats_eqb_eq m2 m2) eq_refl) in Em. discriminate. }
  apply stats_eqb_eq in Es, Em. rewrite fixeddata_eqb_eq. split; congruence.
Qed.

Lemma state_eqb_eq (a b : state_t) : state_eqb a b = true <-> a = b.
Proof.
  destruct a as [[me1 them1] e1], b as [[me2 them2] e2]; unfold state_eqb.
  destruct (Z.eqb_spec (hp me1) (hp me2)); [|split; [discriminate|congruence]].
  destruct (Z.eqb_spec (hp them1) (hp them2)); [|split; [discriminate|congruence]].
  destruct (Z.eqb_spec e1 e2); [|split; [discriminate|congruence]].
  destruct (halfstate_eqb me1 me2) eqn:Em.
  - apply halfstate_eqb_eq in Em. rewrite halfstate_eqb_eq. split; congruence.
  - split; [discriminate|]. intros E. injection E as -> -> ->.
    rewrite (proj2 (halfstate_eqb_eq me2 me2) eq_refl) in Em. discriminate.
Qed.

Lemma statep_eqb_eq (a b : statep) : statep_eqb a b = true <-> a = b.
Proof.
  destruct a as [s1|s1 a1|s1 d1 a1|b1], b as [s2|s2 a2|s2 d2 a2|b2]; cbn;
    try (split; [discriminate|congruence]).
  - rewrite state_eqb_eq. split; congruence.
  - destruct (state_eqb s1 s2) eqn:Es.
    + apply state_eqb_eq in Es. rewrite String.eqb_eq. split; congruence.
    + split; [discriminate|]. intros E. injection E as -> ->.
      rewrite (proj2 (state_eqb_eq s2 s2) eq_refl) in Es. discriminate.
  - destruct (Z.eqb_spec d1 d2); [|split; [discriminate|congruence]].
    destruct (state_eqb s1 s2) eqn:Es.
    + apply state_eqb_eq in Es. rewrite String.eqb_eq. split; congruence.
    + split; [discriminate|]. intros E. injection E as -> -> ->.
      rewrite (proj2 (state_eqb_eq s2 s2) eq_refl) in Es. discriminate.
  - rewrite Bool.eqb_true_iff. split; congruence.
Qed.

#[export] Instance statep_key_laws : PyKeyLaws statep := statep_eqb_eq.

(** ** Dictionary laws *)

Section ODictLaws.
Context {K V : Type} (eqb : K -> K -> bool).
Hypothesis eqb_eq : forall a b, eqb a b = true <-> a = b.

Lemma eqb_refl (k : K) : eqb k k = true.
Proof. now apply eqb_eq. Qed.

Lemma eqb_neq (a b : K) : a <> b -> eqb a b = false.
Proof. intros N. destruct (eqb a b) eqn:E; [apply eqb_eq in E; contradiction|reflexivity]. Qed.

Lemma od_get_set_eq (d : list (K * V)) k v : od_get eqb (od_set eqb d k v) k = Some v.
Proof.
  induction d as [|[k' v'] d IH]; cbn.
  - now rewrite eqb_refl.
  - destruct (eqb k' k) eqn:E; cbn; rewrite E; [reflexivity|exact IH].
Qed.

Lemma od_get_set_ne (d : list (K * V)) k v k' :
  k <> k' -> od_get eqb (od_set eqb d k v) k' = od_get eqb d k'.
Proof.
  intros N. induction d as [|[k0 v0] d IH]; cbn.
  - now rewrite eqb_neq.
  - destruct (eqb k0 k) eqn:E; cbn.
    + apply eqb_eq in E. subst k0. now rewrite eqb_neq.
    + destruct (eqb k0 k'); [reflexivity|exact IH].
Qed.

Lemma od_get_None (d : list (K * V)) k : od_get eqb d k = None <-> ~ In k (map fst d).
Proof.
  induction d as [|[k' v'] d IH]; cbn; [tauto|].
  destruct (eqb k' k) eqn:E.
  - apply eqb_eq in E. split; [discriminate|tauto].
  - rewrite IH. split; [|tauto]. intros N [->|I]; [|tauto].
    rewrite eqb_refl in E. discriminate.
Qed.

Lemma od_set_fresh (d : list (K * V)) k v :
  ~ In k (map fst d) -> od_set eqb d k v = d ++ [(k, v)].
Proof.
  induction d as [|[k' v'] d IH]; cbn; [reflexivity|]. intros N.
  rewrite eqb_neq by tauto. f_equal. apply IH. tauto.
Qed.

Lemma od_set_keys (d : list (K * V)) k v :
  map fst (od_set eqb d k v) =
  match od_get eqb d k with Some _ => map fst d | None => map fst d ++ [k] end.
Proof.
  induction d as [|[k' v'] d IH]; cbn; [reflexivity|].
  destruct (eqb k' k) eqn:E; cbn; [reflexivity|].
  rewrite IH. now destruct (od_get eqb d k).
Qed.

Lemma od_set_NoDup (d : list (K * V)) k v :
  List.NoDup (map fst d) -> List.NoDup (map fst (od_set eqb d k v)).
Proof.
  induction d as [|[k' v'] d IH]; cbn; intros Hd.
  - constructor; [intros []|constructor].
  - inversion Hd as [|? ? Hn Hd']; subst.
    destruct (eqb k' k) eqn:E; cbn; [constructor; assumption|].
    constructor; [|auto].
    rewrite od_set_keys. destruct (od_get eqb d k); [assumption|].
    rewrite in_app_iff. intros [I|[->|[]]]; [contradiction|].
    rewrite eqb_refl in E. discriminate.
Qed.
End ODictLaws.

Arguments pydict_get : simpl never.
Arguments pydict_set : simpl never.
Arguments pyset_mem : simpl never.
Arguments pyset_add : simpl never.

Section PyDictLaws.
Context {K V : Type} `{PyKeyLaws K}.
Implicit Types (m : pydict K V) (k : K) (v : V).

Lemma pydict_get_empty k : pydict_get (∅ : pydict K V) k = None.
Proof. unfold pydict_get. now rewrite lookup_empty. Qed.

Lemma pydict_get_set_eq m k v : pydict_get (pydict_set m k v) k = Some v.
Proof.
  unfold pydict_get, pydict_set. rewrite lookup_insert_eq.
  apply od_get_set_eq, key_eqb_eq.
Qed.

Lemma pydict_get_set_ne m k v k' :
  k <> k' -> pydict_get (pydict_set m k v) k' = pydict_get m k'.
Proof.
  intros N. unfold pydict_get, pydict_set.
  destruct (decide (key_hash k = key_hash k')) as [E|E].
  - rewrite E, lookup_insert_eq, od_get_set_ne by (apply key_eqb_eq || assumption).
    now destruct (m !! key_hash k').
  - now rewrite lookup_insert_ne.
Qed.

Lemma pydict_get_set m k v k' :
  pydict_get (pydict_set m k v) k' = if key_eqb k k' then Some v else pydict_get m k'.
Proof.
  destruct (key_eqb k k') eqn:E.
  - apply key_eqb_eq in E. subst. apply pydict_get_set_eq.
  - apply pydict_get_set_ne. intros ->. rewrite (proj2 (key_eqb_eq k' k')) in E; congruence.
Qed.
End PyDictLaws.

Section PySetLaws.
Context {K : Type} `{PyKeyLaws K}.

Lemma pyset_mem_empty (k : K) : pyset_mem (∅ : pyset K) k = false.
Proof. unfold pyset_mem. now rewrite pydict_get_empty. Qed.

Lemma pyset_mem_add (s : pyset K) (k k' : K) :
  pyset_mem (pyset_add s k) k' = key_eqb k k' || pyset_mem s k'.
Proof.
  unfold pyset_mem, pyset_add. rewrite pydict_get_set.
  now destruct (key_eqb k k').
Qed.

Lemma pyset_mem_add_eq (s : pyset K) (k : K) : pyset_mem (pyset_add s k) k = true.
Proof. rewrite pyset_mem_add, (proj2 (key_eqb_eq k k)); reflexivity. Qed.

Lemma pyset_mem_add_mono (s : pyset K) (k k' : K) :
  pyset_mem s k' = true -> pyset_mem (pyset_add s k) k' = true.
Proof. intros E. rewrite pyset_mem_add, E. apply orb_true_r. Qed.
End PySetLaws.

(** ** The cache of successors does not touch the bounds *)

(** The bounds of a key and whether it is frozen. *)
Definition bounds (self : Battle) (sp : statep) : float * float :=
  (min_get self sp, max_get self sp).
Definition is_frozen (self : Battle) (sp : statep) : Prop :=
  pyset_mem (frozen self) sp = true.

(** Two objects with the same bounds and the same frozen set. *)
Definition same_bounds (self self' : Battle) : Prop :=
  dmin self' = dmin self /\ dmax self' = dmax self /\ frozen self' = frozen self.

Lemma same_bounds_refl self : same_bounds self self.
Proof. repeat split. Qed.

Lemma same_bounds_trans a b c : same_bounds a b -> same_bounds b c -> same_bounds a c.
Proof. unfold same_bounds. intros (-> & -> & ->) (-> & -> & ->). repeat split. Qed.

Lemma getSuccessors_same_bounds self sp r self' :
  getSuccessors self sp = Some (r, self') -> same_bounds self self'.
Proof.
  unfold getSuccessors. destruct (pydict_get (successors self) sp).
  - intros [= _ <-]. apply same_bounds_refl.
  - destruct (compute_successors sp); cbn; [|discriminate].
    intros [= _ <-]. repeat split.
Qed.

Lemma getSuccessorsList_same_bounds self sp r self' :
  getSuccessorsList self sp = Some (r, self') -> same_bounds self self'.
Proof.
  unfold getSuccessorsList. destruct (tag sp =? 4).
  - intros [= _ <-]. apply same_bounds_refl.
  - destruct (pydict_get (successors self) sp).
    + intros [= _ <-]. apply same_bounds_refl.
    + destruct (getSuccessors self sp) as [[r0 s0]|] eqn:E; cbn; [|discriminate].
      destruct (pydict_get (successors s0) sp); cbn; [|discriminate].
      intros [= _ <-]. eapply getSuccessors_same_bounds, E.
Qed.

(** What [topoSort] keeps: any property of the state that [getParents] keeps. *)
Lemma topoSort_loop_invariant {K St} `{PyKey K}
    (getParents : St -> K -> option (list K * St)) (P : St -> Prop) :
  (forall s k l s', P s -> getParents s k = Some (l, s') -> P s') ->
  forall fuel stack visited results s r s',
    P s -> topoSort_loop getParents fuel stack visited results s = Some (r, s') -> P s'.
Proof.
  intros HP fuel. induction fuel as [|fuel IH]; intros stack visited results s r s' Hs.
  - destruct stack as [|[c st] stack]; cbn; [|discriminate]. now intros [= _ <-].
  - destruct stack as [|[c st] stack]; cbn; [now intros [= _ <-]|].
    destruct (st =? 0); [|now apply IH].
    destruct (pyset_mem visited c); [now apply IH|].
    destruct (getParents s c) as [[l s1]|] eqn:E; cbn; [|discriminate].
    apply IH. eapply HP; eassumption.
Qed.

(** ** Frozen keys keep their bounds (mdp_opt2) *)

(** One step of [evaluate]: a call of [getSuccessorsList] made by [topoSort],
    or one turn of the loop over [stateps]. *)
Inductive step : Battle -> Battle -> Prop :=
| step_successors self sp l self' :
    getSuccessorsList self sp = Some (l, self') -> step self self'
| step_visit self sp self' :
    Opt2.visit self sp = Some self' -> step self self'.

Lemma same_bounds_frozen self self' k :
  same_bounds self self' -> is_frozen self k ->
  is_frozen self' k /\ bounds self' k = bounds self k.
Proof.
  unfold same_bounds, is_frozen, bounds, min_get, max_get.
  intros (-> & -> & ->). auto.
Qed.

Lemma visit_frozen self sp self' k :
  Opt2.visit self sp = Some self' -> is_frozen self k ->
  is_frozen self' k /\ bounds self' k = bounds self k.
Proof.
  unfold Opt2.visit, is_frozen. intros Hv Hk.
  destruct (pyset_mem (frozen self) sp) eqn:Hsp; [injection Hv as <-; auto|].
  assert (Hne : sp <> k) by congruence.
  destruct (getSuccessors self sp) as [[succ self1]|] eqn:Hs; cbn in Hv; [|discriminate].
  apply getSuccessors_same_bounds in Hs. destruct Hs as (Em & EM & Ef).
  match type of Hv with
  | (?c ≫= _) = _ => destruct c as [[lo hi]|]; cbn in Hv; [|discriminate]
  end.
  assert (Hget : forall (d : pydict statep float) v,
             pydict_get (pydict_set d sp v) k = pydict_get d k)
    by (intros; now apply pydict_get_set_ne).
  destruct (hi <=? lo)%float; injection Hv as <-;
    unfold bounds, min_get, max_get, freeze, set_bounds; cbn;
    rewrite ?Hget, ?Em, ?EM, ?Ef; split; auto.
  now apply pyset_mem_add_mono.
Qed.

Lemma step_frozen self self' k :
  step self self' -> is_frozen self k ->
  is_frozen self' k /\ bounds self' k = bounds self k.
Proof.
  intros [s sp l s' H|s sp s' H].
  - apply same_bounds_frozen. eapply getSuccessorsList_same_bounds, H.
  - eapply visit_frozen, H.
Qed.

Lemma steps_frozen self self' k :
  rtc step self self' -> is_frozen self k ->
  is_frozen self' k /\ bounds self' k = bounds self k.
Proof.
  induction 1 as [|a b c Hab _ IH]; [auto|]. intros Hk.
  destruct (step_frozen _ _ _ Hab Hk) as [Hk' E].
  destruct (IH Hk') as [Hk'' E']. split; [assumption|congruence].
Qed.

(** What [evaluate] does is a sequence of steps. *)
Lemma sweep_steps stateps : forall self self',
  Opt2.sweep self stateps = Some self' -> rtc step self self'.
Proof.
  unfold Opt2.sweep. induction stateps as [|sp l IH]; cbn; intros self self'.
  - intros [= <-]. constructor.
  - destruct (Opt2.visit self sp) as [s1|] eqn:E.
    + intros H. eapply rtc_l; [eapply step_visit, E|]. now apply IH.
    + intros H. exfalso. clear -H. induction l as [|x l IHl]; cbn in H; [discriminate|auto].
Qed.

Lemma sweep_loop_steps sweeps tol stateps : forall self self',
  Opt2.sweep_loop sweeps tol stateps self = Some self' -> rtc step self self'.
Proof.
  induction sweeps as [|n IH]; cbn; intros self self'.
  - destruct (_ <? _)%float; [discriminate|]. intros [= <-]. constructor.
  - destruct (_ <? _)%float; [|intros [= <-]; constructor].
    destruct (Opt2.sweep self stateps) as [s1|] eqn:E; cbn; [|discriminate].
    intros H. etrans; [eapply sweep_steps, E|]. now apply IH.
Qed.

Lemma evaluate_run_steps fuel sweeps tol self self' :
  Opt2.evaluate_run fuel sweeps tol self = Some self' -> rtc step self self'.
Proof.
  unfold Opt2.evaluate_run, topoSort.
  destruct (topoSort_loop _ _ _ _ _ _) as [[stateps s1]|] eqn:E; cbn; [|discriminate].
  intros H. etrans; [|eapply sweep_loop_steps, H].
  eapply (topoSort_loop_invariant getSuccessorsList (rtc step self)); [|constructor|exact E].
  intros s k l s' Hs Hg. eapply rtc_r; [exact Hs|]. eapply step_successors, Hg.
Qed.

Lemma Battle_new_terminals :
  is_frozen Battle_new win /\ is_frozen Battle_new loss /\
  bounds Battle_new loss = (0, 0)%float /\ bounds Battle_new win = (1, 1)%float.
Proof. repeat split; vm_compute; reflexivity. Qed.

(** C3.  Every state that [evaluate] goes through is reached from [Battle()]
    by steps (third part).  Along any steps, a key that is frozen stays
    frozen and keeps its two bounds (first part); so from the construction
    on, [win] and [loss] are frozen, the bounds of [loss] are (0.0, 0.0) and
    the bounds of [win] are (1.0, 1.0) (second part). *)
Theorem frozen_bounds_never_change :
  (forall self self' k,
      rtc step Battle_new self -> rtc step self self' -> is_frozen self k ->
      is_frozen self' k /\ bounds self' k = bounds self k) /\
  (forall self,
      rtc step Battle_new self ->
      is_frozen self win /\ is_frozen self loss /\
      bounds self loss = (0, 0)%float /\ bounds self win = (1, 1)%float) /\
  (forall fuel sweeps tolerance self,
      Opt2.evaluate_run fuel sweeps tolerance Battle_new = Some self ->
      rtc step Battle_new self).
Proof.
  split; [|split].
  - intros self self' k _ H. now apply steps_frozen.
  - intros self H.
    destruct Battle_new_terminals as (Fw & Fl & Bl & Bw).
    destruct (steps_frozen _ _ _ H Fw) as [Fw' Ew].
    destruct (steps_frozen _ _ _ H Fl) as [Fl' El].
    repeat split; congruence.
  - intros fuel sweeps tol self. apply evaluate_run_steps.
Qed.

(** The theorem at work: after the first visit of the root, which is not
    frozen and gets new bounds, [win] is frozen as before with the bounds it
    had. *)
Lemma frozen_bounds_never_change_witness :
  let self' := default Battle_new (Opt2.visit Battle_new initial_statep) in
  rtc step Battle_new self' /\
  is_frozen self' win /\ bounds self' win = bounds Battle_new win.
Proof.
  intros self'.
  assert (H : rtc step Battle_new self').
  { apply rtc_once, step_visit with initial_statep. vm_compute. reflexivity. }
  split; [exact H|].
  apply (proj1 frozen_bounds_never_change Battle_new self' win);
    [constructor|exact H|vm_compute; reflexivity].
Defined.

(** ** The side swap *)

(** Swapping the two half states of a state. *)
Definition swap (s : state_t) : state_t := let '(me, them, extra) := s in (them, me, extra).

Definition swap_keys (dist : list (state_t * float)) : list (state_t * float) :=
  map (fun '(k, v) => (swap k, v)) dist.

Lemma swap_swap s : swap (swap s) = s.
Proof. now destruct s as [[me them] extra]. Qed.

Lemma swap_inj a b : swap a = swap b -> a = b.
Proof. intros E. rewrite <- (swap_swap a), <- (swap_swap b). now f_equal. Qed.

Lemma applyActionSide1_NoDup state act dist :
  _applyActionSide1 state act = Some dist -> List.NoDup (map fst dist).
Proof.
  destruct state as [[me them] extra]. unfold _applyActionSide1.
  destruct (String.eqb act "Super Potion").
  - intros [= <-]. cbn. constructor; [intros []|constructor].
  - destruct (attack_data act) as [mdata|]; cbn; [|discriminate].
    destruct (py_float _) as [bs|]; cbn; [|discriminate].
    destruct (getCritDist _ _ _ _ _ _ _ _ _) as [dmg_dist|]; cbn; [|discriminate].
    intros [= <-].
    assert (G : forall l acc, List.NoDup (map fst acc) ->
              List.NoDup (map fst (fold_left (fun dist '(dmg, p) =>
                 add_mass state_eqb dist (me, applyHPChange them (- dmg), extra) p) l acc))).
    { induction l as [|[dmg p] l IH]; cbn; intros acc Ha; [exact Ha|].
      apply IH. unfold add_mass. apply od_set_NoDup; [apply state_eqb_eq|exact Ha]. }
    apply G. constructor.
Qed.

Lemma swap_items_fresh l : forall acc,
  List.NoDup (map fst acc ++ map swap (map fst l)) ->
  fold_left (fun d '((k0, k1, k2), v) => od_set state_eqb d (k1, k0, k2) v) l acc
  = acc ++ swap_keys l.
Proof.
  induction l as [|[[[k0 k1] k2] v] l IH]; cbn; intros acc Hn.
  - now rewrite app_nil_r.
  - rewrite od_set_fresh.
    + rewrite IH.
      * now rewrite <- app_assoc.
      * rewrite map_app. cbn. now rewrite <- app_assoc.
    + apply state_eqb_eq.
    + apply NoDup_remove_2 in Hn. intros I. apply Hn. apply in_app_iff. now left.
Qed.

(** C6.  The swap is its own inverse, and on side 1 [_applyAction] returns
    what [_applyActionSide1] returns on the swapped state, with every key
    swapped back (same items, same order, same probabilities). *)
Theorem applyAction_side1_is_swapped_side0 :
  (forall s, swap (swap s) = s) /\
  (forall state act,
      _applyAction state 1 act = swap_keys <$> _applyActionSide1 (swap state) act).
Proof.
  split; [exact swap_swap|].
  intros [[me them] extra] act. unfold _applyAction. cbn [Z.eqb swap].
  destruct (_applyActionSide1 (them, me, extra) act) as [dist|] eqn:E; cbn; [|reflexivity].
  f_equal. unfold swap_items. rewrite swap_items_fresh; [reflexivity|].
  cbn. apply applyActionSide1_NoDup in E.
  apply Finite.Injective_map_NoDup; [|exact E].
  intros a b. apply swap_inj.
Qed.

(** ** bench_mdp *)

(** [bench_mdp] of each file, with the fuel of its calls of [evaluate]. *)
Definition bench_mdp_opt2 (fuel sweeps : nat) : Z -> outcome :=
  bench_mdp (fun tolerance => Opt2.evaluate fuel sweeps tolerance Battle_new).
Definition bench_mdp_opt3 (fuel sweeps : nat) : Z -> outcome :=
  bench_mdp (fun tolerance => Opt3.evaluate fuel sweeps tolerance Battle_new).

Lemma bench_loop_Some evaluate r n : forall result,
  evaluate 0.192%float = Some r ->
  bench_loop evaluate (S n) result = Some (Some r).
Proof.
  induction n as [|n IH]; intros result E.
  - cbn. now rewrite E.
  - change (bench_loop evaluate (S (S n)) result)
      with (r' ← evaluate 0.192%float; bench_loop evaluate (S n) (Some r')).
    rewrite E. cbn [mbind option_bind]. now apply IH.
Qed.

(** With no turn of the loop [result] is still [None] when it is compared:
    the call ends in a [TypeError], whatever [evaluate] would return. *)
Lemma bench_mdp_no_loops_TypeError :
  bench_mdp_opt2 0 0 0 = Raises_TypeError /\ bench_mdp_opt3 0 0 0 = Raises_TypeError /\
  (forall evaluate, bench_mdp evaluate 0 = Raises_TypeError).
Proof. repeat split. Qed.

(** C9, for at least one loop.  When the calls of [evaluate] return [r],
    [bench_mdp] raises the invalid-result failure, with [r], the expected
    value, their difference and the bound, exactly when
    [abs (r - expected) > max_diff]; otherwise it returns [r]. *)
Theorem bench_mdp_result evaluate loops r :
  1 <= loops ->
  evaluate 0.192%float = Some r ->
  let expected := 0.89873589887%float in
  let max_diff := 1e-6%float in
  bench_mdp evaluate loops =
    (if (max_diff <? abs (r - expected))%float
     then Raises_invalid_result r expected (r - expected) max_diff
     else Returns r) /\
  ((exists got e d m, bench_mdp evaluate loops = Raises_invalid_result got e d m) <->
   (max_diff <? abs (r - expected))%float = true) /\
  bench_mdp evaluate loops <> Raises_TypeError /\
  bench_mdp evaluate loops <> No_result.
Proof.
  intros Hl E expected max_diff.
  assert (Hb : bench_mdp evaluate loops =
    (if (max_diff <? abs (r - expected))%float
     then Raises_invalid_result r expected (r - expected) max_diff
     else Returns r)).
  { unfold bench_mdp. destruct (Z.to_nat loops) as [|n] eqn:En; [lia|].
    now rewrite (bench_loop_Some evaluate r n None E). }
  rewrite Hb. split; [reflexivity|].
  destruct (max_diff <? abs (r - expected))%float; repeat split; try discriminate; eauto.
  intros (? & ? & ? & ? & ?). discriminate.
Qed.

Lemma bench_mdp_result_witness :
  let evaluate := (fun _ : float => Some 0.8987358988699945%float) in
  bench_mdp evaluate 10 = Returns 0.8987358988699945%float.
Proof.
  intros evaluate.
  destruct (bench_mdp_result evaluate 10 0.8987358988699945%float) as [H _];
    [lia|reflexivity|].
  exact H.
Defined.

(** ** topoSort visits what the root reaches, once *)

(** Integers as keys. *)
#[export] Instance Z_key : PyKey Z := {| key_eqb := Z.eqb; key_hash := fun z => z |}.
#[export] Instance Z_key_laws : PyKeyLaws Z := Z.eqb_eq.

Section TopoSortCorrect.
Context {K : Type} `{PyKeyLaws K}.
Variable getParents : K -> list K.

(** A successor function without state. *)
Definition pure_parents (s : unit) (k : K) : option (list K * unit) :=
  Some (getParents k, s).

(** [reachable root k]: a path of successors leads from [root] to [k]. *)
Definition reachable : K -> K -> Prop := rtc (fun a b => In b (getParents a)).

(** The keys that wait on the stack to be appended to the results. *)
Definition marks (stack : list (K * Z)) : list K :=
  map fst (filter (fun e => negb (snd e =? 0)) stack).

Record topo_inv (root : K) (stack : list (K * Z)) (visited : pyset K)
    (results : list K) : Prop := {
  inv_visited : forall k,
    pyset_mem visited k = true <-> In k results \/ In k (marks stack);
  inv_nodup : List.NoDup (results ++ marks stack);
  inv_sound : forall k,
    In k (map fst stack) \/ pyset_mem visited k = true -> reachable root k;
  inv_closed : forall k c,
    pyset_mem visited k = true -> In c (getParents k) ->
    pyset_mem visited c = true \/ In (c, 0) stack;
  inv_root : pyset_mem visited root = true \/ In (root, 0) stack }.

Lemma NoDup_middle (a : K) l l' : List.NoDup (l ++ a :: l') <-> List.NoDup (a :: l ++ l').
Proof.
  split; apply Permutation.Permutation_NoDup;
    [symmetry|]; apply Permutation.Permutation_middle.
Qed.

Lemma marks_cons_0 c stack : marks ((c, 0) :: stack) = marks stack.
Proof. reflexivity. Qed.

Lemma marks_cons_1 c st stack :
  (st =? 0) = false -> marks ((c, st) :: stack) = c :: marks stack.
Proof. intros E. unfold marks. cbn. now rewrite E. Qed.

Lemma marks_push l : forall stack,
  marks (rev_append (map (fun parent => (parent, 0)) l) stack) = marks stack.
Proof.
  induction l as [|x l IH]; intros stack; cbn [map rev_append]; [reflexivity|].
  now rewrite IH.
Qed.

Lemma in_push (e : K * Z) l stack :
  In e (rev_append (map (fun parent => (parent, 0)) l) stack) <->
  (exists c, In c l /\ e = (c, 0)) \/ In e stack.
Proof.
  rewrite rev_append_rev, in_app_iff, <- in_rev, in_map_iff.
  split; (intros [(c & E & I)|I]; [left; exists c; auto|right; exact I]).
Qed.

Lemma topo_inv_init root : topo_inv root [(root, 0)] ∅ [].
Proof.
  split; unfold marks; cbn.
  - intros k. rewrite pyset_mem_empty. split; [discriminate|intros [[]|[]]].
  - constructor.
  - intros k [[<-|[]]|E]; [constructor|]. now rewrite pyset_mem_empty in E.
  - intros k c E. now rewrite pyset_mem_empty in E.
  - auto.
Qed.

Lemma topo_inv_skip root c stack visited results :
  topo_inv root ((c, 0) :: stack) visited results ->
  pyset_mem visited c = true ->
  topo_inv root stack visited results.
Proof.
  intros [Hv Hn Hs Hc Hr] Ec. split.
  - exact Hv.
  - exact Hn.
  - intros k [I|E]; apply Hs; cbn; auto.
  - intros k c' Ek Ic. destruct (Hc k c' Ek Ic) as [E|[[= ->]|I]]; auto.
  - destruct Hr as [E|[[= ->]|I]]; auto.
Qed.

Lemma topo_inv_visit root c stack visited results :
  topo_inv root ((c, 0) :: stack) visited results ->
  pyset_mem visited c = false ->
  topo_inv root
    (rev_append (map (fun parent => (parent, 0)) (getParents c)) ((c, 1) :: stack))
    (pyset_add visited c) results.
Proof.
  intros [Hv Hn Hs Hc Hr] Ec.
  assert (Hmem : forall k, pyset_mem (pyset_add visited c) k = true <->
                           k = c \/ pyset_mem visited k = true).
  { intros k. rewrite pyset_mem_add, orb_true_iff, key_eqb_eq.
    split; (intros [E|E]; [left; congruence|right; exact E]). }
  split.
  - intros k. rewrite marks_push, Hmem, Hv, marks_cons_0, marks_cons_1 by reflexivity.
    cbn. intuition congruence.
  - rewrite marks_push, marks_cons_1 by reflexivity. rewrite marks_cons_0 in Hn.
    apply NoDup_middle. constructor; [|exact Hn].
    intros I. apply in_app_iff in I. apply Hv in I. congruence.
  - assert (Rc : reachable root c) by (apply Hs; cbn; auto).
    intros k [I|E].
    + apply in_map_iff in I. destruct I as (e & <- & I).
      apply in_push in I. destruct I as [(c' & I & ->)|[<-|I]]; cbn.
      * eapply rtc_r; [exact Rc|exact I].
      * exact Rc.
      * apply Hs. left. cbn. right. apply in_map_iff. eauto.
    + apply Hmem in E. destruct E as [->|E]; [exact Rc|]. apply Hs. auto.
  - intros k c' Ek Ic. rewrite Hmem, in_push. apply Hmem in Ek.
    destruct Ek as [->|Ek]; [right; left; eauto|].
    destruct (Hc k c' Ek Ic) as [E|[[= ->]|I]]; cbn; auto.
  - rewrite Hmem, in_push. destruct Hr as [E|[[= ->]|I]]; cbn; auto.
Qed.

Lemma topo_inv_finish root c st stack visited results :
  topo_inv root ((c, st) :: stack) visited results ->
  (st =? 0) = false ->
  topo_inv root stack visited (c :: results).
Proof.
  intros [Hv Hn Hs Hc Hr] Est. rewrite (marks_cons_1 c st stack Est) in Hn.
  assert (Hv' : forall k, pyset_mem visited k = true <->
                          In k results \/ In k (c :: marks stack)).
  { intros k. rewrite Hv. now rewrite (marks_cons_1 c st stack Est). }
  clear Hv. rename Hv' into Hv.
  split.
  - intros k. rewrite Hv. cbn. intuition congruence.
  - cbn. now apply NoDup_middle.
  - intros k [I|E]; apply Hs; cbn; auto.
  - intros k c' Ek Ic. destruct (Hc k c' Ek Ic) as [E|[[= E1 E2]|I]]; auto.
    subst. discriminate.
  - destruct Hr as [E|[[= E1 E2]|I]]; auto. subst. discriminate.
Qed.

Lemma topoSort_loop_inv root fuel : forall stack visited results r,
  topo_inv root stack visited results ->
  topoSort_loop pure_parents fuel stack visited results tt = Some (r, tt) ->
  exists visited' results', r = rev results' /\ topo_inv root [] visited' results'.
Proof.
  induction fuel as [|fuel IH]; intros stack visited results r Hi;
    destruct stack as [|[c st] stack]; cbn; try discriminate;
    try (intros [= <-]; eauto).
  destruct (st =? 0) eqn:Est.
  - apply Z.eqb_eq in Est. subst st. destruct (pyset_mem visited c) eqn:Ec.
    + apply IH. now apply topo_inv_skip with c.
    + apply IH. now apply topo_inv_visit.
  - apply IH. now apply topo_inv_finish with st.
Qed.

Lemma topo_inv_final root visited results :
  topo_inv root [] visited results ->
  List.NoDup (rev results) /\ forall k, In k (rev results) <-> reachable root k.
Proof.
  intros [Hv Hn Hs Hc Hr]. cbn in *. rewrite app_nil_r in Hn.
  split; [now apply NoDup_rev|].
  intros k. rewrite <- in_rev. split.
  - intros I. apply Hs. right. apply Hv. auto.
  - intros R. assert (E : pyset_mem visited k = true).
    { assert (Er : pyset_mem visited root = true) by (destruct Hr as [E|[]]; exact E).
      clear Hr Hs. revert Er. unfold reachable in R.
      induction R as [x|x y z Hxy _ IHR]; intros Ex; [exact Ex|].
      apply IHR. destruct (Hc _ _ Ex Hxy) as [E|[]]. exact E. }
    apply Hv in E. destruct E as [I|[]]. exact I.
Qed.

(** The pops that are left: the stack, and for every key of [L] that is
    not visited yet, its marker and its successors. *)
Definition pops_left (L : list K) (stack : list (K * Z)) (visited : pyset K) : nat :=
  length stack +
  list_sum (map (fun k => if pyset_mem visited k then O else S (length (getParents k))) L).

Lemma list_sum_cons (a : nat) l : list_sum (a :: l) = (a + list_sum l)%nat.
Proof. reflexivity. Qed.

Lemma pops_left_visit (L : list K) c visited :
  In c L -> pyset_mem visited c = false ->
  (list_sum (map (fun k => if pyset_mem (pyset_add visited c) k then O
                           else S (length (getParents k))) L)
   + S (length (getParents c))
   <= list_sum (map (fun k => if pyset_mem visited k then O
                              else S (length (getParents k))) L))%nat.
Proof.
  intros I Ec.
  assert (Hle : forall L,
    (list_sum (map (fun k => if pyset_mem (pyset_add visited c) k then O
                             else S (length (getParents k))) L)
     <= list_sum (map (fun k => if pyset_mem visited k then O
                                else S (length (getParents k))) L))%nat).
  { clear I L. induction L as [|y L IHL]; cbn [map]; [lia|]. rewrite !list_sum_cons.
    rewrite pyset_mem_add.
    destruct (key_eqb c y); destruct (pyset_mem visited y); cbn [orb]; lia. }
  induction L as [|x L IH]; [destruct I|]. cbn [map]. rewrite !list_sum_cons.
  destruct I as [->|I].
  - rewrite pyset_mem_add_eq, Ec. specialize (Hle L). lia.
  - specialize (IH I). rewrite pyset_mem_add.
    destruct (key_eqb c x); destruct (pyset_mem visited x); cbn [orb]; lia.
Qed.

Lemma topoSort_loop_terminates root (L : list K) :
  (forall k, reachable root k -> In k L) ->
  forall fuel stack visited results,
    topo_inv root stack visited results ->
    (pops_left L stack visited <= fuel)%nat ->
    exists r, topoSort_loop pure_parents fuel stack visited results tt = Some (r, tt).
Proof.
  intros HL fuel. induction fuel as [|fuel IH]; intros stack visited results Hi Hf;
    destruct stack as [|[c st] stack]; cbn; eauto.
  - unfold pops_left in Hf. cbn in Hf. lia.
  - unfold pops_left in Hf. cbn in Hf. destruct (st =? 0) eqn:Est.
    + apply Z.eqb_eq in Est. subst st. destruct (pyset_mem visited c) eqn:Ec.
      * apply IH; [now apply topo_inv_skip with c|unfold pops_left; lia].
      * apply IH; [now apply topo_inv_visit|].
        unfold pops_left. rewrite rev_append_rev, length_app, length_rev, length_map. cbn.
        assert (Ic : In c L) by (apply HL, (inv_sound _ _ _ _ Hi); cbn; auto).
        pose proof (pops_left_visit L c visited Ic Ec). lia.
    + apply IH; [now apply topo_inv_finish with st|unfold pops_left; lia].
Qed.

(** C8.  Whenever [topoSort] returns, the sequence holds the keys that the
    root reaches, and only them, each once, however the edges run; and it
    does return, with enough fuel, when the root reaches finitely many keys. *)
Theorem topoSort_reachable_once (root : K) :
  (forall fuel r,
      topoSort pure_parents fuel [root] tt = Some (r, tt) ->
      List.NoDup r /\ forall k, In k r <-> reachable root k) /\
  (forall L : list K,
      (forall k, reachable root k -> In k L) ->
      exists fuel r, topoSort pure_parents fuel [root] tt = Some (r, tt)).
Proof.
  split.
  - intros fuel r E. unfold topoSort in E. cbn in E.
    destruct (topoSort_loop_inv root fuel _ _ _ _ (topo_inv_init root) E)
      as (visited' & results' & -> & Hi).
    now apply topo_inv_final with visited'.
  - intros L HL. exists (pops_left L [(root, 0)] ∅).
    unfold topoSort. cbn [map rev app].
    apply (topoSort_loop_terminates root L HL); [apply topo_inv_init|lia].
Qed.
End TopoSortCorrect.

(** A graph with cycles and with keys that have several predecessors. *)
Definition small_graph (k : Z) : list Z :=
  if k =? 0 then [1; 2] else if k =? 1 then [0; 2] else if k =? 2 then [2; 1; 3] else [].

Lemma topoSort_reachable_once_witness :
  List.NoDup [3; 1; 2; 0] /\ forall k, In k [3; 1; 2; 0] <-> reachable small_graph 0 k.
Proof.
  apply (proj1 (topoSort_reachable_once small_graph 0) 20%nat [3; 1; 2; 0]).
  reflexivity.
Defined.

(** ** Binary64 facts *)

(** Comparisons, read on the specification of the primitive numbers. *)
Lemma SFcompare_antisym x y : SFcompare y x = option_map CompOpp (SFcompare x y).
Proof.
  destruct x as [[]|[]| |[] m1 e1], y as [[]|[]| |[] m2 e2]; cbn; try reflexivity;
    rewrite (Z.compare_antisym e1 e2); destruct (e1 ?= e2); cbn; try reflexivity;
    pose proof (Pos.compare_cont_antisym m1 m2 Eq) as A; cbn in A; rewrite <- A;
    now rewrite ?CompOpp_involutive.
Qed.

Lemma ltb_asym (a b : float) : (a <? b)%float = true -> (b <? a)%float = false.
Proof.
  rewrite !FloatAxioms.ltb_spec. unfold SFltb. rewrite (SFcompare_antisym (Prim2SF a) (Prim2SF b)).
  now destruct (SFcompare (Prim2SF a) (Prim2SF b)) as [[]|].
Qed.

Lemma leb_not_ltb (a b : float) : (a <=? b)%float = true -> (b <? a)%float = false.
Proof.
  rewrite FloatAxioms.leb_spec, FloatAxioms.ltb_spec. unfold SFleb, SFltb.
  rewrite (SFcompare_antisym (Prim2SF a) (Prim2SF b)).
  now destruct (SFcompare (Prim2SF a) (Prim2SF b)) as [[]|].
Qed.

Lemma bra_ext s m1 e1 l1 m2 e2 l2 :
  shr_fexp prec emax m1 e1 l1 = shr_fexp prec emax m2 e2 l2 ->
  binary_round_aux prec emax s m1 e1 l1 = binary_round_aux prec emax s m2 e2 l2.
Proof. unfold binary_round_aux. now intros ->. Qed.

Lemma Prim2SF_two : Prim2SF 2 = S754_finite false 4503599627370496 (-51).
Proof. reflexivity. Qed.
Lemma Prim2SF_half : Prim2SF 0.5 = S754_finite false 4503599627370496 (-53).
Proof. reflexivity. Qed.

Lemma bounded_inv m e :
  bounded prec emax m e = true ->
  -1074 <= e /\ Zpos (digits2_pos m) <= 53 /\ (Zpos (digits2_pos m) = 53 \/ e = -1074).
Proof.
  unfold bounded, canonical_mantissa, fexp, SpecFloat.emin, prec, emax.
  intros H. apply andb_prop in H. destruct H as [H _]. apply Z.eqb_eq in H.
  generalize dependent (Z.pos (digits2_pos m)). intros d H. lia.
Qed.

Lemma div_eucl_exact a b q : 0 < b -> a = b * q -> Z.div_eucl a b = (q, 0).
Proof.
  intros Hb ->.
  assert (E : Z.div_eucl (b * q) b = ((b * q) / b, (b * q) mod b))
    by (unfold Z.div, Z.modulo; now destruct (Z.div_eucl (b * q) b)).
  rewrite E, (Z.mul_comm b q), Z.div_mul, Z.mod_mul by lia. reflexivity.
Qed.

(** [2 ** 52], the mantissa of the powers of two. *)
Definition P52 : positive := 4503599627370496.

Lemma digits2_P52_mul m : Zpos (digits2_pos (P52 * m)) = Zpos (digits2_pos m) + 52.
Proof.
  change (P52 * m)%positive with
    (m~0~0~0~0~0~0~0~0~0~0~0~0~0~0~0~0~0~0~0~0~0~0~0~0~0~0~0~0~0~0~0~0~0~0~0~0~0~0~0~0~0~0~0~0~0~0~0~0~0~0~0~0)%positive.
  cbn [digits2_pos]. generalize (digits2_pos m). intros d. lia.
Qed.

Lemma shr_P52_mul m e :
  shr (shr_record_of_loc (Zpos (P52 * m)) loc_Exact) e 52 =
  (Build_shr_record (Zpos m) false false, e + 52).
Proof. reflexivity. Qed.

Lemma shr_P52_mul_more m e :
  shr (shr_record_of_loc (Zpos (P52 * m)) loc_Exact) e 53 =
  (Build_shr_record (Z.div2 (Zpos m)) (Z.odd (Zpos m)) false, e + 53).
Proof. destruct m; reflexivity. Qed.

Lemma div_eucl_unique a b q r : 0 <= r < b -> a = b * q + r -> Z.div_eucl a b = (q, r).
Proof.
  intros Hr E.
  assert (E' : Z.div_eucl a b = (a / b, a mod b))
    by (unfold Z.div, Z.modulo; now destruct (Z.div_eucl a b)).
  rewrite E'. f_equal; symmetry.
  - apply (Z.div_unique_pos a b q r); assumption.
  - apply (Z.mod_unique_pos a b q r); assumption.
Qed.

Lemma SF_half (x : spec_float) :
  valid_binary x = true ->
  SF64div x (S754_finite false P52 (-51)) = SF64mul (S754_finite false P52 (-53)) x.
Proof.
  destruct x as [[]|[]| |s m e]; try (intros _; reflexivity).
  cbn [valid_binary]. intros Hb. apply bounded_inv in Hb. destruct Hb as (He & Hd & Hc).
  unfold SF64div, SF64mul, SFdiv, SFmul.
  replace (xorb s false) with s by now destruct s.
  cbn [xorb].
  assert (A : shr_fexp prec emax (Zpos (P52 * m)) (-53 + e) loc_Exact =
              if e =? -1074 then (Build_shr_record (Z.div2 (Zpos m)) (Z.odd (Zpos m)) false, -1074)
              else (Build_shr_record (Zpos m) false false, e - 1)).
  { unfold shr_fexp. cbn [Zdigits2]. rewrite digits2_P52_mul.
    unfold fexp, SpecFloat.emin, prec, emax.
    revert Hd Hc. generalize (Z.pos (digits2_pos m)). intros d Hd Hc.
    destruct (Z.eqb_spec e (-1074)) as [->|Hne].
    - replace (_ - _) with 53 by lia. rewrite shr_P52_mul_more. f_equal.
    - replace (_ - _) with 52 by lia. rewrite shr_P52_mul. f_equal. lia. }
  assert (B : forall mz ez lz,
             SFdiv_core_binary prec emax (Zpos m) e (Zpos P52) (-51) = (mz, ez, lz) ->
             shr_fexp prec emax mz ez lz =
              if e =? -1074 then (Build_shr_record (Z.div2 (Zpos m)) (Z.odd (Zpos m)) false, -1074)
              else (Build_shr_record (Zpos m) false false, e - 1)).
  { intros mz ez lz. unfold SFdiv_core_binary.
    change (Zdigits2 (Zpos P52)) with 53. cbn [Zdigits2].
    unfold fexp, SpecFloat.emin, prec, emax.
    destruct (Z.eqb_spec e (-1074)) as [->|Hne].
    - match goal with |- context [IntDef.Z.min ?a ?b] =>
        assert (Hm : IntDef.Z.min a b = -1074)
          by (revert Hd Hc; generalize (Z.pos (digits2_pos m)); intros; lia);
        rewrite Hm
      end.
      change (-1074 - -51 - -1074) with 51. cbv iota.
      assert (Hq : Z.div_eucl (Z.shiftl (Zpos m) 51) (Zpos P52)
                   = (Z.div2 (Zpos m), if Z.odd (Zpos m) then 2251799813685248 else 0)).
      { apply div_eucl_unique; [destruct (Z.odd _); unfold P52; lia|].
        rewrite Z.shiftl_mul_pow2 by lia.
        pose proof (Z.div2_odd (Zpos m)) as Ho. unfold P52.
        destruct (Z.odd (Zpos m)); cbn [Z.b2z] in Ho; lia. }
      rewrite Hq. intros [= <- <- <-]. clear Hq Hm Hc He.
      unfold shr_fexp, fexp, SpecFloat.emin.
      destruct m as [p|p|]; cbn [digits2_pos] in Hd; cbn [Z.div2 Z.odd Zdigits2 Pos.div2];
        try (revert Hd; generalize (digits2_pos p); intros d Hd);
        match goal with |- context [shr _ _ ?n] => replace n with 0 by lia end;
        reflexivity.
    - assert (Hd53 : Z.pos (digits2_pos m) = 53) by lia. clear Hc Hd.
      destruct (Z.eq_dec e (-1073)) as [->|Hne'].
      + match goal with |- context [IntDef.Z.min ?a ?b] =>
          assert (Hm : IntDef.Z.min a b = -1074) by (rewrite Hd53; lia);
          rewrite Hm
        end.
        change (-1073 - -51 - -1074) with 52. cbv iota.
        rewrite (div_eucl_exact (Z.shiftl (Zpos m) 52) (Zpos P52) (Zpos m))
          by (unfold P52; rewrite ?Z.shiftl_mul_pow2; lia).
        intros [= <- <- <-].
        unfold shr_fexp, fexp, SpecFloat.emin. cbn [Zdigits2]. rewrite Hd53. reflexivity.
      + match goal with |- context [IntDef.Z.min ?a ?b] =>
          assert (Hm : IntDef.Z.min a b = e - 2) by (rewrite Hd53; lia);
          rewrite Hm
        end.
        replace (e - -51 - (e - 2)) with 53 by lia. cbv iota.
        rewrite (div_eucl_exact (Z.shiftl (Zpos m) 53) (Zpos P52) (Zpos m~0))
          by (unfold P52; rewrite ?Z.shiftl_mul_pow2; lia).
        intros [= <- <- <-].
        unfold shr_fexp, fexp, SpecFloat.emin. cbn [Zdigits2 digits2_pos].
        rewrite Pos2Z.inj_succ, Hd53.
        match goal with |- context [shr _ _ ?n] => replace n with 1 by lia end.
        cbn. f_equal. lia. }
  destruct (SFdiv_core_binary prec emax (Zpos m) e (Zpos P52) (-51)) as [[mz ez] lz] eqn:Ed.
  apply bra_ext. rewrite A. now apply B.
Qed.

Lemma half_div_mul (x : float) : (x / 2 = 0.5 * x)%float.
Proof.
  apply Prim2SF_inj. rewrite FloatAxioms.div_spec, FloatAxioms.mul_spec, Prim2SF_two, Prim2SF_half.
  apply SF_half, Prim2SF_valid.
Qed.

(** ** The cache of successors is transparent *)

(** Every entry of the cache is what the methods compute for its key. *)
Definition cache_ok (self : Battle) : Prop :=
  forall sp c, pydict_get (successors self) sp = Some c ->
    compute_successors sp = Some (fst c) /\ snd c = states_only (fst c).

Lemma cache_ok_new : cache_ok Battle_new.
Proof. intros sp c. unfold Battle_new. cbn. now rewrite pydict_get_empty. Qed.

Lemma cache_ok_same_successors self self' :
  successors self' = successors self -> cache_ok self -> cache_ok self'.
Proof. unfold cache_ok. now intros ->. Qed.

Lemma getSuccessors_cached self sp s :
  cache_ok self -> compute_successors sp = Some s ->
  exists self', getSuccessors self sp = Some (s, self') /\
                cache_ok self' /\ same_bounds self self' /\
                exists c, pydict_get (successors self') sp = Some c /\ snd c = states_only s.
Proof.
  intros Hc Hs. unfold getSuccessors.
  destruct (pydict_get (successors self) sp) as [c|] eqn:E.
  - destruct (Hc sp c E) as [E1 E2]. rewrite Hs in E1. injection E1 as ->.
    exists self. split; [reflexivity|]. split; [exact Hc|]. split; [apply same_bounds_refl|].
    exists c. split; auto.
  - rewrite Hs. cbn. eexists. split; [reflexivity|]. split; [|split].
    + intros k c. unfold set_successors. cbn. rewrite pydict_get_set.
      destruct (key_eqb sp k) eqn:Ek.
      * apply key_eqb_eq in Ek. subst k. intros [= <-]. cbn. auto.
      * apply Hc.
    + repeat split.
    + unfold set_successors. cbn. rewrite pydict_get_set_eq. eexists. split; reflexivity.
Qed.

Lemma getSuccessorsList_cached self sp s :
  cache_ok self -> compute_successors sp = Some s ->
  exists self', getSuccessorsList self sp = Some (states_only s, self') /\
                cache_ok self' /\ same_bounds self self'.
Proof.
  intros Hc Hs. unfold getSuccessorsList.
  destruct sp as [st|st a|st d a|b]; cbn [tag Z.eqb]; [| | |discriminate].
  all: destruct (pydict_get (successors self) _) as [c|] eqn:E.
  all: try (destruct (Hc _ c E) as [E1 E2]; rewrite Hs in E1; injection E1 as E1;
            exists self; rewrite E2, <- E1;
            split; [reflexivity|split; [exact Hc|apply same_bounds_refl]]).
  all: destruct (getSuccessors_cached self _ s Hc Hs) as (self' & Hg & Hc' & Hb & c & Ec & Es);
       rewrite Hg; cbn; rewrite Ec; cbn; rewrite Es; eauto.
Qed.

Lemma getSuccessorsList_terminal self b :
  getSuccessorsList self (Key4 b) = Some ([], self).
Proof. reflexivity. Qed.

(** ** topoSort under a renaming of the keys *)

(** When [f] names the keys of one graph after the keys of another, one to
    one on a domain [D] closed under successors, [topoSort] returns on the
    first graph the names of what it returns on the second. *)
Section TopoSortRename.
Context {K1 K2 St : Type} {key1 : PyKey K1} {laws1 : PyKeyLaws K1}
        {key2 : PyKey K2} {laws2 : PyKeyLaws K2}.
Variables (f : K2 -> K1) (D : K2 -> Prop).
Variables (gp1 : St -> K1 -> option (list K1 * St)) (gp2 : K2 -> list K2).
Variable I : St -> Prop.
Hypothesis f_inj : forall a b, D a -> D b -> f a = f b -> a = b.
Hypothesis gp_closed : forall a, D a -> Forall D (gp2 a).
Hypothesis gp_sim : forall s a, I s -> D a ->
  exists s', gp1 s (f a) = Some (map f (gp2 a), s') /\ I s'.

Definition rename_stack (stack : list (K2 * Z)) : list (K1 * Z) :=
  map (fun e => (f (fst e), snd e)) stack.

Lemma rename_push l : forall acc,
  rev_append (map (fun parent => (parent, 0)) (map f l)) (rename_stack acc)
  = rename_stack (rev_append (map (fun parent => (parent, 0)) l) acc).
Proof.
  induction l as [|x l IH]; intros acc; cbn [map rev_append]; [reflexivity|].
  apply (IH ((x, 0) :: acc)).
Qed.

Lemma topoSort_loop_rename fuel : forall stack v1 v2 res s r2,
  I s -> Forall D (map fst stack) ->
  (forall a, D a -> pyset_mem v1 (f a) = pyset_mem v2 a) ->
  topoSort_loop (pure_parents gp2) fuel stack v2 res tt = Some (r2, tt) ->
  exists s', topoSort_loop gp1 fuel (rename_stack stack) v1 (map f res) s
             = Some (map f r2, s') /\ I s'.
Proof.
  induction fuel as [|fuel IH]; intros stack v1 v2 res s r2 Hs Hd Hv;
    destruct stack as [|[c st] stack]; cbn [topoSort_loop rename_stack map fst snd];
    try discriminate.
  1,2: intros [= <-]; rewrite map_rev; eauto.
  apply Forall_cons_iff in Hd. destruct Hd as [Dc Hd]. cbn [fst] in Dc.
  destruct (st =? 0).
  - rewrite (Hv c Dc). destruct (pyset_mem v2 c) eqn:Ec.
    + now apply IH.
    + unfold pure_parents at 1. cbn [mbind option_bind].
      destruct (gp_sim s c Hs Dc) as (s' & -> & Hs'). cbn [mbind option_bind].
      change ((f c, 1) :: map (fun e => (f (fst e), snd e)) stack)
        with (rename_stack ((c, 1) :: stack)).
      rewrite rename_push. apply IH; [exact Hs'| |].
      * rewrite rev_append_rev, map_app, Forall_app. split.
        -- apply List.Forall_forall. intros x Hx.
           apply in_map_iff in Hx. destruct Hx as (e & <- & He).
           apply in_rev, in_map_iff in He. destruct He as (y & <- & Hy).
           cbn. pose proof (gp_closed c Dc) as Hg.
           rewrite List.Forall_forall in Hg. now apply Hg.
        -- now constructor.
      * intros a Da. rewrite !pyset_mem_add, (Hv a Da). f_equal.
        destruct (key_eqb c a) eqn:E.
        -- apply key_eqb_eq in E. subst a. now apply key_eqb_eq.
        -- destruct (key_eqb (f c) (f a)) eqn:E'; [|reflexivity].
           apply key_eqb_eq in E'. apply f_inj in E'; auto. subst a.
           rewrite (proj2 (key_eqb_eq c c) eq_refl) in E. discriminate.
  - intros E. apply (IH stack v1 v2 (c :: res) s r2 Hs Hd Hv E).
Qed.

Lemma topoSort_rename fuel root s r2 :
  I s -> D root ->
  topoSort (pure_parents gp2) fuel [root] tt = Some (r2, tt) ->
  exists s', topoSort gp1 fuel [f root] s = Some (map f r2, s') /\ I s'.
Proof.
  intros Hs Hr E. unfold topoSort in *. cbn [map rev app] in *.
  apply (topoSort_loop_rename fuel [(root, 0)] ∅ ∅ [] s r2 Hs).
  - now repeat constructor.
  - intros a _. now rewrite !pyset_mem_empty.
  - exact E.
Qed.
End TopoSortRename.

(** ** The graph of the fixed setup *)

(** Machine integers as keys. *)
#[export] Instance int_key : PyKey int := {| key_eqb := Uint63.eqb; key_hash := Uint63.to_Z |}.
#[export] Instance int_key_laws : PyKeyLaws int := Uint63.eqb_spec.

(** A node of the compacted graph, with the ids of its successors. *)
Inductive node :=
| Choice (succ : list int)
| Chance (succ : list (int * float))
| Terminal.

Definition to_int (n : nat) : int := Uint63.of_Z (Z.of_nat n).

Definition compile_node (kind : Z) (ss : option (list nat))
    (sp : option (list (nat * float))) : node :=
  if kind =? 0 then Choice (map to_int (default [] ss))
  else if kind =? 4 then Terminal
  else Chance (map (fun '(j, p) => (to_int j, p)) (default [] sp)).

Fixpoint compile_nodes (kinds : list Z) (ss : list (option (list nat)))
    (sp : list (option (list (nat * float)))) : list node :=
  match kinds, ss, sp with
  | k :: kinds, s :: ss, p :: sp => compile_node k s p :: compile_nodes kinds ss sp
  | _, _, _ => []
  end.

Definition array_of_list {A} (d : A) (l : list A) : array A :=
  snd (fold_left (fun '(i, a) x => (i + 1, a.[i <- x])%uint63) l
         (0%uint63, PArray.make (to_int (List.length l)) d)).

(** Enough fuel for the traversals of the graph. *)
Definition graph_fuel : nat := Nat.pow 2 15.

(** A number for every key; it tells apart the keys of the graph. *)
Definition code (sp : statep) : int := Uint63.of_Z (statep_hash sp + 2).

(** The graph as [build_graph] numbers it, computed once: the keys, the
    nodes, the order of [topoSort] and the id of every code.  Nothing is
    assumed of these tables: what is used of them is checked below. *)
Definition reference_tables : array statep * array node * list int * array int :=
  Eval vm_compute in
  match ('(g, self) ← Opt3.build_graph graph_fuel Battle_new initial_statep;
         '(stateps, _) ← topoSort getSuccessorsList graph_fuel [initial_statep] self;
         order ← mapM (pydict_get (Opt3.id_of g)) stateps;
         let keys := Opt3.states g in
         let index := snd (fold_left (fun '(i, a) k => (i + 1, a.[code k <- i])%uint63) keys
                             (0%uint63, PArray.make 131072 (to_int (List.length keys)))) in
         Some (array_of_list loss keys,
               array_of_list Terminal
                 (compile_nodes (Opt3.kinds g) (Opt3.succ_states g) (Opt3.succ_pairs g)),
               map to_int order, index)) with
  | Some t => t
  | None => (PArray.make 0 loss, PArray.make 0 Terminal, [], PArray.make 0 0%uint63)
  end.

Definition ref_keys : array statep :=
  Eval cbv beta iota delta [reference_tables fst snd] in fst (fst (fst reference_tables)).
Definition ref_nodes : array node :=
  Eval cbv beta iota delta [reference_tables fst snd] in snd (fst (fst reference_tables)).
Definition ref_order : list int :=
  Eval cbv beta iota delta [reference_tables fst snd] in snd (fst reference_tables).
Definition ref_index : array int :=
  Eval cbv beta iota delta [reference_tables fst snd] in snd reference_tables.
Definition ref_size : int := 4823.

Definition key_of (i : int) : statep := ref_keys.[i].
Arguments key_of : simpl never.
Definition valid (i : int) : Prop := (i <? ref_size)%uint63 = true.

(** The checks of the tables against the methods of [Battle]. *)
Fixpoint keys_eqb (l : list statep) (ids : list int) : bool :=
  match l, ids with
  | [], [] => true
  | k :: l, j :: ids =>
      if (j <? ref_size)%uint63 then
        if statep_eqb k (key_of j) then keys_eqb l ids else false
      else false
  | _, _ => false
  end.

Fixpoint pairs_eqb (l : list (statep * float)) (ids : list (int * float)) : bool :=
  match l, ids with
  | [], [] => true
  | (k, p) :: l, (j, q) :: ids =>
      if (j <? ref_size)%uint63 then
        if statep_eqb k (key_of j) then
          if PrimFloat.Leibniz.eqb p q then pairs_eqb l ids else false
        else false
      else false
  | _, _ => false
  end.

Definition node_ok (i : int) : bool :=
  let k := key_of i in
  if (ref_index.[code k] =? i)%uint63 then
    match ref_nodes.[i] with
    | Terminal => match k with Key4 _ => true | _ => false end
    | Choice ids =>
        match k with
        | Key0 _ => match compute_successors k with
                    | Some (States l) => keys_eqb l ids
                    | _ => false
                    end
        | _ => false
        end
    | Chance ids =>
        match k with
        | Key1 _ _ | Key2 _ _ _ =>
            match compute_successors k with
            | Some (Pairs l) => pairs_eqb l ids
            | _ => false
            end
        | _ => false
        end
    end
  else false.

Fixpoint nodes_ok (n : nat) (i : int) : bool :=
  match n with
  | O => true
  | S n => if node_ok i then nodes_ok n (i + 1)%uint63 else false
  end.

(** Every node of the tables is what the methods compute for its key. *)
Lemma reference_nodes_ok : nodes_ok 4823 0 = true.
Proof. vm_cast_no_check (eq_refl true). Qed.

Lemma valid_lt i : valid i <-> to_Z i < 4823.
Proof. unfold valid. rewrite Uint63.ltb_spec. reflexivity. Qed.

Lemma to_Z_succ i : to_Z i < 4823 -> to_Z (i + 1)%uint63 = to_Z i + 1.
Proof.
  intros Hi. rewrite Uint63.add_spec, to_Z_1. apply Z.mod_small.
  pose proof (to_Z_bounded i). change wB with 9223372036854775808. lia.
Qed.

Lemma nodes_ok_from n : forall i,
  nodes_ok n i = true -> to_Z i + Z.of_nat n <= 4823 ->
  forall j, to_Z i <= to_Z j < to_Z i + Z.of_nat n -> node_ok j = true.
Proof.
  induction n as [|n IH]; intros i Hn Hb j Hj; [lia|].
  cbn [nodes_ok] in Hn. destruct (node_ok i) eqn:Ei; [|discriminate].
  destruct (Z.eq_dec (to_Z j) (to_Z i)) as [E|E].
  - apply to_Z_inj in E. now subst j.
  - apply (IH (i + 1)%uint63 Hn); rewrite to_Z_succ; lia.
Qed.

Lemma node_ok_valid i : valid i -> node_ok i = true.
Proof.
  intros Hi. apply valid_lt in Hi.
  apply (nodes_ok_from 4823 0%uint63 reference_nodes_ok).
  - rewrite to_Z_0. lia.
  - rewrite to_Z_0. pose proof (to_Z_bounded i). lia.
Qed.

Lemma keys_eqb_spec l : forall ids,
  keys_eqb l ids = true -> l = map key_of ids /\ Forall valid ids.
Proof.
  induction l as [|k l IH]; intros [|j ids]; cbn [keys_eqb map]; try discriminate; [auto|].
  destruct (j <? ref_size)%uint63 eqn:Ej; [|discriminate].
  destruct (statep_eqb k (key_of j)) eqn:Ek; [|discriminate].
  apply statep_eqb_eq in Ek. intros H. destruct (IH ids H) as [-> Hf].
  split; [now rewrite Ek|now constructor].
Qed.

Definition name_pair (jp : int * float) : statep * float := (key_of (fst jp), snd jp).

Lemma pairs_eqb_spec l : forall ids,
  pairs_eqb l ids = true -> l = map name_pair ids /\ Forall valid (map fst ids).
Proof.
  induction l as [|[k p] l IH]; intros [|[j q] ids]; cbn [pairs_eqb map fst];
    try discriminate; [auto|].
  destruct (j <? ref_size)%uint63 eqn:Ej; [|discriminate].
  destruct (statep_eqb k (key_of j)) eqn:Ek; [|discriminate].
  destruct (PrimFloat.Leibniz.eqb p q) eqn:Ep; [|discriminate].
  apply statep_eqb_eq in Ek. apply FloatAxioms.Leibniz.eqb_spec in Ep.
  intros H. destruct (IH ids H) as [-> Hf].
  split; [unfold name_pair at 1; cbn; now rewrite Ek, Ep|now constructor].
Qed.

(** What the check says of a node of the tables. *)
Inductive node_spec (i : int) : node -> Prop :=
| spec_terminal won :
    key_of i = Key4 won -> node_spec i Terminal
| spec_choice state ids :
    key_of i = Key0 state ->
    compute_successors (key_of i) = Some (States (map key_of ids)) ->
    Forall valid ids -> node_spec i (Choice ids)
| spec_chance ids :
    (tag (key_of i) =? 0) = false -> (tag (key_of i) =? 4) = false ->
    compute_successors (key_of i) = Some (Pairs (map name_pair ids)) ->
    Forall valid (map fst ids) -> node_spec i (Chance ids).

Lemma node_spec_valid i :
  valid i -> node_spec i ref_nodes.[i] /\ ref_index.[code (key_of i)] = i.
Proof.
  intros Hi. pose proof (node_ok_valid i Hi) as H. unfold node_ok in H.
  destruct (ref_index.[code (key_of i)] =? i)%uint63 eqn:Ex; [|discriminate].
  apply Uint63.eqb_spec in Ex. split; [|exact Ex].
  destruct (ref_nodes.[i]) as [ids|ids|].
  - destruct (key_of i) as [st|st a|st d a|b] eqn:Ek; try discriminate.
    destruct (compute_successors (Key0 st)) as [[l|l]|] eqn:Ec; try discriminate.
    apply keys_eqb_spec in H. destruct H as [-> Hf].
    apply spec_choice with st; rewrite ?Ek; auto.
  - destruct (key_of i) as [st|st a|st d a|b] eqn:Ek; try discriminate.
    + destruct (compute_successors (Key1 st a)) as [[l|l]|] eqn:Ec; try discriminate.
      apply pairs_eqb_spec in H. destruct H as [-> Hf].
      apply spec_chance; rewrite ?Ek; auto.
    + destruct (compute_successors (Key2 st d a)) as [[l|l]|] eqn:Ec; try discriminate.
      apply pairs_eqb_spec in H. destruct H as [-> Hf].
      apply spec_chance; rewrite ?Ek; auto.
  - destruct (key_of i) as [st|st a|st d a|b] eqn:Ek; try discriminate.
    apply spec_terminal with b; rewrite ?Ek; auto.
Qed.

Lemma key_of_inj i j : valid i -> valid j -> key_of i = key_of j -> i = j.
Proof.
  intros Hi Hj E.
  rewrite <- (proj2 (node_spec_valid i Hi)), <- (proj2 (node_spec_valid j Hj)).
  now rewrite E.
Qed.

(** ** The sweep over arrays *)

(** The sweep of [evaluate] over the tables: the bounds and the frozen
    flags in arrays, a node found by its id.  Both files are compared with
    it, and the kernel can run it. *)
Module Dense.

Record state := mk_state { lo : array float; hi : array float; fr : array bool }.

Definition choice_bounds (s : state) (succ : list int) : float * float :=
  fold_left (fun '(best_min, best_max) j =>
               let vmin := (lo s).[j] in
               let vmax := (hi s).[j] in
               (if (best_min <? vmin)%float then vmin else best_min,
                if (best_max <? vmax)%float then vmax else best_max))
            succ (neg_infinity, neg_infinity).

Definition chance_bounds (s : state) (succ : list (int * float)) : float * float :=
  fold_left (fun '(smin, smax) '(j, p) =>
               ((smin + (lo s).[j] * p)%float, (smax + (hi s).[j] * p)%float))
            succ (0%float, 0%float).

Definition visit (s : state) (i : int) : option state :=
  if (fr s).[i] then Some s
  else
    '(l, h) ← match ref_nodes.[i] with
              | Choice succ => Some (choice_bounds s succ)
              | Chance succ => Some (chance_bounds s succ)
              | Terminal => None
              end;
    if (h <=? l)%float then
      let mid := ((l + h) / 2)%float in
      Some (mk_state (lo s).[i <- mid] (hi s).[i <- mid] (fr s).[i <- true])
    else Some (mk_state (lo s).[i <- l] (hi s).[i <- h] (fr s)).

Definition sweep (s : state) (order : list int) : option state :=
  foldl (fun acc i => s ← acc; visit s i) (Some s) order.

Fixpoint sweep_loop (sweeps : nat) (tolerance : float) (order : list int) (s : state)
    : option state :=
  if (tolerance <? (hi s).[0] - (lo s).[0])%float then
    match sweeps with
    | O => None
    | S sweeps => s ← sweep s order; sweep_loop sweeps tolerance order s
    end
  else Some s.

Definition i_win : int := Eval vm_compute in ref_index.[code win].
Definition i_loss : int := Eval vm_compute in ref_index.[code loss].

Definition init : state :=
  mk_state (PArray.make ref_size 0%float).[i_win <- 1%float]
           (PArray.make ref_size 1%float).[i_loss <- 0%float]
           (PArray.make ref_size false).[i_win <- true].[i_loss <- true].

Definition run (sweeps : nat) (tolerance : float) : option state :=
  sweep_loop sweeps tolerance ref_order init.

Definition evaluate (sweeps : nat) (tolerance : float) : option float :=
  s ← run sweeps tolerance;
  Some (((hi s).[0] + (lo s).[0]) / 2)%float.

End Dense.

(** Arrays of the size of the graph, with the terminal nodes frozen. *)
Record dense_wf (s : Dense.state) : Prop := {
  wf_lo : PArray.length (Dense.lo s) = ref_size;
  wf_hi : PArray.length (Dense.hi s) = ref_size;
  wf_fr : PArray.length (Dense.fr s) = ref_size;
  wf_terminal : forall i, valid i -> ref_nodes.[i] = Terminal -> (Dense.fr s).[i] = true }.

#[universes(polymorphic)] Lemma array_get_set@{u} {A : Type@{u}} (t : array A) i j a :
  (i <? PArray.length t)%uint63 = true ->
  t.[i <- a].[j] = if (i =? j)%uint63 then a else t.[j].
Proof.
  intros Hi. destruct (i =? j)%uint63 eqn:E.
  - apply Uint63.eqb_spec in E. subst j. now apply get_set_same.
  - apply get_set_other. now apply Uint63.eqb_false_spec.
Qed.

Lemma dense_visit_total s i :
  dense_wf s -> valid i -> exists s', Dense.visit s i = Some s' /\ dense_wf s'.
Proof.
  intros [Hl Hh Hf Ht] Hi. unfold Dense.visit.
  destruct ((Dense.fr s).[i]) eqn:Ef; [exists s; split; [reflexivity|now split]|].
  destruct (ref_nodes.[i]) as [succ|succ|] eqn:En.
  3: { rewrite (Ht i Hi En) in Ef. discriminate. }
  all: cbn [mbind option_bind].
  all: match goal with |- context [let '(l, h) := ?b in _] => destruct b as [l h] end.
  all: destruct (h <=? l)%float; eexists; (split; [reflexivity|]).
  all: split; cbn [Dense.lo Dense.hi Dense.fr]; rewrite ?length_set; auto.
  all: intros j Hj Hn; rewrite ?array_get_set by (rewrite Hf; exact Hi).
  all: try destruct (i =? j)%uint63; auto.
Qed.

(** ** mdp_opt2 runs the sweep over arrays *)

Lemma min_get_set_bounds self k lo hi k' :
  min_get (set_bounds self k lo hi) k' = if statep_eqb k k' then lo else min_get self k'.
Proof.
  unfold min_get, set_bounds. cbn [dmin]. rewrite pydict_get_set.
  change (@key_eqb statep statep_key) with statep_eqb. now destruct (statep_eqb k k').
Qed.

Lemma max_get_set_bounds self k lo hi k' :
  max_get (set_bounds self k lo hi) k' = if statep_eqb k k' then hi else max_get self k'.
Proof.
  unfold max_get, set_bounds. cbn [dmax]. rewrite pydict_get_set.
  change (@key_eqb statep statep_key) with statep_eqb. now destruct (statep_eqb k k').
Qed.

Lemma frozen_freeze self k k' :
  pyset_mem (frozen (freeze self k)) k' = statep_eqb k k' || pyset_mem (frozen self) k'.
Proof. unfold freeze. cbn [frozen]. rewrite pyset_mem_add. reflexivity. Qed.

Lemma statep_eqb_key_of i j :
  valid i -> valid j -> statep_eqb (key_of i) (key_of j) = (i =? j)%uint63.
Proof.
  intros Hi Hj. destruct (i =? j)%uint63 eqn:E.
  - apply Uint63.eqb_spec in E. subst j. now apply statep_eqb_eq.
  - destruct (statep_eqb (key_of i) (key_of j)) eqn:E'; [|reflexivity].
    apply statep_eqb_eq, key_of_inj in E'; auto.
    apply Uint63.eqb_false_spec in E. contradiction.
Qed.

(** The bounds and the frozen set of the object are those of the arrays. *)
Record dense_rel (self : Battle) (s : Dense.state) : Prop := {
  rel_cache : cache_ok self;
  rel_wf : dense_wf s;
  rel_min : forall i, valid i -> min_get self (key_of i) = (Dense.lo s).[i];
  rel_max : forall i, valid i -> max_get self (key_of i) = (Dense.hi s).[i];
  rel_frozen : forall i, valid i -> pyset_mem (frozen self) (key_of i) = (Dense.fr s).[i] }.

Lemma dense_rel_same_bounds self self' s :
  same_bounds self self' -> cache_ok self' -> dense_rel self s -> dense_rel self' s.
Proof.
  intros (Em & EM & Ef) Hc [_ Hw Hm HM Hf].
  split; auto; intros i Hi; unfold min_get, max_get in *; rewrite ?Em, ?EM, ?Ef; auto.
Qed.

Lemma choice_bounds_dense self s ids :
  dense_rel self s -> Forall valid ids ->
  choice_bounds self (map key_of ids) = Dense.choice_bounds s ids.
Proof.
  intros R Hv. unfold choice_bounds, Dense.choice_bounds.
  generalize (neg_infinity, neg_infinity). induction Hv as [|j ids Hj Hv IH]; intros acc;
    cbn [map fold_left]; [reflexivity|].
  rewrite <- IH. f_equal. destruct acc as [a b].
  now rewrite (rel_min _ _ R j Hj), (rel_max _ _ R j Hj).
Qed.

Lemma chance_bounds_dense self s ids :
  dense_rel self s -> Forall valid (map fst ids) ->
  chance_bounds self (map name_pair ids) = Dense.chance_bounds s ids.
Proof.
  intros R Hv. unfold chance_bounds, Dense.chance_bounds.
  generalize (0%float, 0%float). induction ids as [|[j p] ids IH]; intros acc;
    cbn [map fold_left]; [reflexivity|].
  apply Forall_cons_iff in Hv. destruct Hv as [Hj Hv]. cbn [fst] in Hj.
  rewrite <- (IH Hv). f_equal. destruct acc as [a b]. unfold name_pair. cbn [fst snd].
  now rewrite (rel_min _ _ R j Hj), (rel_max _ _ R j Hj).
Qed.

Lemma dense_rel_set self s i l h :
  dense_rel self s -> valid i ->
  dense_rel (set_bounds self (key_of i) l h)
            (Dense.mk_state (Dense.lo s).[i <- l] (Dense.hi s).[i <- h] (Dense.fr s)).
Proof.
  intros [Hc [Hl Hh Hf Ht] Hm HM HF] Hi. split; [exact Hc|split|..];
    cbn [Dense.lo Dense.hi Dense.fr]; rewrite ?length_set; auto.
  - intros j Hj. rewrite min_get_set_bounds, array_get_set by (rewrite Hl; exact Hi).
    rewrite statep_eqb_key_of by assumption. now rewrite Hm.
  - intros j Hj. rewrite max_get_set_bounds, array_get_set by (rewrite Hh; exact Hi).
    rewrite statep_eqb_key_of by assumption. now rewrite HM.
Qed.

Lemma dense_rel_freeze self s i :
  dense_rel self s -> valid i ->
  dense_rel (freeze self (key_of i))
            (Dense.mk_state (Dense.lo s) (Dense.hi s) (Dense.fr s).[i <- true]).
Proof.
  intros [Hc [Hl Hh Hf Ht] Hm HM HF] Hi. split; [exact Hc|split|..];
    cbn [Dense.lo Dense.hi Dense.fr]; rewrite ?length_set; auto.
  - intros j Hj Hn. rewrite array_get_set by (rewrite Hf; exact Hi).
    destruct (i =? j)%uint63; auto.
  - intros j Hj. rewrite frozen_freeze, array_get_set by (rewrite Hf; exact Hi).
    rewrite statep_eqb_key_of by assumption. rewrite HF by assumption.
    now destruct (i =? j)%uint63.
Qed.

Lemma set_set_bounds self k l h l' h' k' :
  min_get (set_bounds (set_bounds self k l h) k l' h') k'
  = min_get (set_bounds self k l' h') k' /\
  max_get (set_bounds (set_bounds self k l h) k l' h') k'
  = max_get (set_bounds self k l' h') k'.
Proof.
  rewrite !min_get_set_bounds, !max_get_set_bounds. now destruct (statep_eqb k k').
Qed.

Lemma visit_dense self s i s' :
  dense_rel self s -> valid i -> Dense.visit s i = Some s' ->
  exists self', Opt2.visit self (key_of i) = Some self' /\ dense_rel self' s'.
Proof.
  intros R Hi. unfold Dense.visit, Opt2.visit.
  rewrite (rel_frozen _ _ R i Hi).
  destruct ((Dense.fr s).[i]); [intros [= <-]; eauto|].
  destruct (node_spec_valid i Hi) as [Hn _].
  destruct Hn as [b Ek|st ids Ek Ec Hv|ids Et E4 Ec Hv]; cbn [mbind option_bind];
    [discriminate| |].
  - destruct (getSuccessors_cached self _ _ (rel_cache _ _ R) Ec)
      as (self1 & Hg & Hc1 & Hb & _).
    assert (Et : (tag (key_of i) =? 0) = true) by now rewrite Ek.
    rewrite Hg. cbn [mbind option_bind]. rewrite Et.
    pose proof (dense_rel_same_bounds _ _ _ Hb Hc1 R) as R1.
    rewrite (choice_bounds_dense self1 s ids R1 Hv).
    destruct (Dense.choice_bounds s ids) as [l h]. cbn [mbind option_bind].
    destruct (h <=? l)%float; intros [= <-]; eexists; (split; [reflexivity|]).
    + pose proof (dense_rel_freeze _ _ i
                    (dense_rel_set _ _ i ((l + h) / 2) ((l + h) / 2) R1 Hi) Hi) as R2.
      destruct R2 as [Hc2 Hw2 Hm2 HM2 HF2].
      split; auto; intros j Hj; [rewrite <- Hm2 by auto|rewrite <- HM2 by auto];
        unfold min_get, max_get, freeze; cbn [dmin dmax];
        [apply (proj1 (set_set_bounds self1 (key_of i) l h _ _ (key_of j)))
        |apply (proj2 (set_set_bounds self1 (key_of i) l h _ _ (key_of j)))].
    + now apply dense_rel_set.
  - destruct (getSuccessors_cached self _ _ (rel_cache _ _ R) Ec)
      as (self1 & Hg & Hc1 & Hb & _).
    rewrite Hg. cbn [mbind option_bind]. rewrite Et.
    pose proof (dense_rel_same_bounds _ _ _ Hb Hc1 R) as R1.
    rewrite (chance_bounds_dense self1 s ids R1 Hv).
    destruct (Dense.chance_bounds s ids) as [l h]. cbn [mbind option_bind].
    destruct (h <=? l)%float; intros [= <-]; eexists; (split; [reflexivity|]).
    + pose proof (dense_rel_freeze _ _ i
                    (dense_rel_set _ _ i ((l + h) / 2) ((l + h) / 2) R1 Hi) Hi) as R2.
      destruct R2 as [Hc2 Hw2 Hm2 HM2 HF2].
      split; auto; intros j Hj; [rewrite <- Hm2 by auto|rewrite <- HM2 by auto];
        unfold min_get, max_get, freeze; cbn [dmin dmax];
        [apply (proj1 (set_set_bounds self1 (key_of i) l h _ _ (key_of j)))
        |apply (proj2 (set_set_bounds self1 (key_of i) l h _ _ (key_of j)))].
    + now apply dense_rel_set.
Qed.

Lemma foldl_None {A B} (f : option A -> B -> option A) l :
  (forall x, f None x = None) -> foldl f None l = None.
Proof. intros Hf. induction l as [|x l IH]; cbn; [reflexivity|]. now rewrite Hf. Qed.

Lemma dense_sweep_total order : forall s,
  Forall valid order -> dense_wf s ->
  exists s', Dense.sweep s order = Some s' /\ dense_wf s'.
Proof.
  unfold Dense.sweep. induction order as [|i order IH]; intros s Hv Hw; cbn [foldl].
  - eauto.
  - apply Forall_cons_iff in Hv. destruct Hv as [Hi Hv]. cbn [mbind option_bind].
    destruct (dense_visit_total s i Hw Hi) as (s1 & -> & Hw1). now apply IH.
Qed.

Lemma sweep_dense order : forall self s s',
  Forall valid order -> dense_rel self s -> Dense.sweep s order = Some s' ->
  exists self', Opt2.sweep self (map key_of order) = Some self' /\ dense_rel self' s'.
Proof.
  unfold Dense.sweep, Opt2.sweep.
  induction order as [|i order IH]; intros self s s' Hv R; cbn [foldl map].
  - intros [= <-]. eauto.
  - apply Forall_cons_iff in Hv. destruct Hv as [Hi Hv]. cbn [mbind option_bind].
    destruct (Dense.visit s i) as [s1|] eqn:E.
    + destruct (visit_dense self s i s1 R Hi E) as (self1 & -> & R1). now apply IH.
    + rewrite foldl_None by reflexivity. discriminate.
Qed.

Lemma key_of_root : key_of 0 = initial_statep.
Proof. vm_compute. reflexivity. Qed.

Lemma valid_root : valid 0.
Proof. reflexivity. Qed.

(** With the same fuel the two loops stop together, on related states. *)
Lemma sweep_loop_dense sweeps tol order : forall self s,
  Forall valid order -> dense_rel self s ->
  match Dense.sweep_loop sweeps tol order s with
  | Some s' => exists self', Opt2.sweep_loop sweeps tol (map key_of order) self = Some self'
                             /\ dense_rel self' s'
  | None => Opt2.sweep_loop sweeps tol (map key_of order) self = None
  end.
Proof.
  induction sweeps as [|n IH]; intros self s Hv R; cbn [Dense.sweep_loop Opt2.sweep_loop];
    rewrite <- key_of_root, (rel_min _ _ R 0%uint63 valid_root),
      (rel_max _ _ R 0%uint63 valid_root);
    destruct (tol <? (Dense.hi s).[0] - (Dense.lo s).[0])%float; eauto.
  destruct (dense_sweep_total order s Hv (rel_wf _ _ R)) as (s1 & E & _).
  destruct (sweep_dense order self s s1 Hv R E) as (self1 & -> & R1).
  rewrite E. cbn [mbind option_bind]. now apply IH.
Qed.

(** The successors of a node of the tables. *)
Definition succ_ids (i : int) : list int :=
  match ref_nodes.[i] with
  | Choice succ => succ
  | Chance succ => map fst succ
  | Terminal => []
  end.

(** The order of the tables is the order of [topoSort] on the ids. *)
Lemma reference_order_ok :
  topoSort (pure_parents succ_ids) graph_fuel [0%uint63] tt = Some (ref_order, tt).
Proof. vm_cast_no_check (eq_refl (Some (ref_order, tt))). Qed.

Lemma reference_order_valid : Forall valid ref_order.
Proof.
  apply List.Forall_forall. apply forallb_forall.
  vm_cast_no_check (eq_refl true).
Qed.

Lemma succ_ids_valid i : valid i -> Forall valid (succ_ids i).
Proof.
  intros Hi. unfold succ_ids. destruct (node_spec_valid i Hi) as [Hn _].
  destruct Hn; auto.
Qed.

Lemma getSuccessorsList_reference self i :
  cache_ok self -> valid i ->
  exists self', getSuccessorsList self (key_of i) = Some (map key_of (succ_ids i), self')
                /\ cache_ok self' /\ same_bounds self self'.
Proof.
  intros Hc Hi. unfold succ_ids. destruct (node_spec_valid i Hi) as [Hn _].
  destruct Hn as [b Ek|st ids Ek Ec Hv|ids Et E4 Ec Hv].
  - rewrite Ek. exists self. split; [reflexivity|]. split; [exact Hc|apply same_bounds_refl].
  - destruct (getSuccessorsList_cached self _ _ Hc Ec) as (self' & E & H1 & H2). eauto.
  - destruct (getSuccessorsList_cached self _ _ Hc Ec) as (self' & E & H1 & H2).
    exists self'. rewrite E. cbn [states_only]. rewrite !map_map. auto.
Qed.

Lemma topoSort_reference self :
  cache_ok self ->
  exists self', topoSort getSuccessorsList graph_fuel [initial_statep] self
                = Some (map key_of ref_order, self')
                /\ cache_ok self' /\ same_bounds self self'.
Proof.
  intros Hc. rewrite <- key_of_root.
  apply (topoSort_rename key_of valid getSuccessorsList succ_ids
           (fun s => cache_ok s /\ same_bounds self s)).
  - exact key_of_inj.
  - exact succ_ids_valid.
  - intros s a [Hs Hb] Ha.
    destruct (getSuccessorsList_reference s a Hs Ha) as (s' & E & Hs' & Hb').
    exists s'. split; [exact E|]. split; [exact Hs'|].
    eapply same_bounds_trans; eassumption.
  - split; [exact Hc|apply same_bounds_refl].
  - exact valid_root.
  - exact reference_order_ok.
Qed.

Lemma key_of_win : key_of Dense.i_win = win.
Proof. vm_compute. reflexivity. Qed.

Lemma key_of_loss : key_of Dense.i_loss = loss.
Proof. vm_compute. reflexivity. Qed.

Lemma dense_init_wf : dense_wf Dense.init.
Proof.
  split; try reflexivity.
  intros i Hi Hn. destruct (node_spec_valid i Hi) as [Hs _]. rewrite Hn in Hs.
  inversion Hs as [b Ek| |]. unfold Dense.init. cbn [Dense.fr].
  rewrite !array_get_set by reflexivity.
  destruct b.
  - change (Key4 true) with win in Ek. rewrite <- key_of_win in Ek.
    apply key_of_inj in Ek; [|assumption|reflexivity]. subst i. reflexivity.
  - change (Key4 false) with loss in Ek. rewrite <- key_of_loss in Ek.
    apply key_of_inj in Ek; [|assumption|reflexivity]. subst i. reflexivity.
Qed.

Lemma dense_rel_init self :
  cache_ok self -> same_bounds Battle_new self -> dense_rel self Dense.init.
Proof.
  intros Hc Hb. apply (dense_rel_same_bounds Battle_new self); [exact Hb|exact Hc|].
  split; [exact cache_ok_new|exact dense_init_wf|..]; intros i Hi;
    unfold Dense.init, Battle_new, min_get, max_get; cbn [Dense.lo Dense.hi Dense.fr dmin dmax frozen];
    unfold pyset_add; rewrite ?pyset_mem_add, ?pydict_get_set, ?pydict_get_empty,
      ?array_get_set, ?get_make by reflexivity;
    change (@key_eqb statep statep_key) with statep_eqb;
    rewrite <- ?key_of_win, <- ?key_of_loss, ?statep_eqb_key_of by (assumption || reflexivity).
  - now destruct (Dense.i_win =? i)%uint63.
  - now destruct (Dense.i_loss =? i)%uint63.
  - unfold pyset_mem. rewrite !pydict_get_set, pydict_get_empty.
    change (@key_eqb statep statep_key) with statep_eqb.
    rewrite <- ?key_of_win, <- ?key_of_loss, ?statep_eqb_key_of by (assumption || reflexivity).
    now destruct (Dense.i_loss =? i)%uint63, (Dense.i_win =? i)%uint63.
Qed.

(** [evaluate] of mdp_opt2 returns what the sweep over the arrays returns. *)
Lemma evaluate_opt2_dense sweeps tol :
  Opt2.evaluate graph_fuel sweeps tol Battle_new = Dense.evaluate sweeps tol.
Proof.
  unfold Opt2.evaluate, Opt2.evaluate_run, Dense.evaluate, Dense.run.
  destruct (topoSort_reference Battle_new cache_ok_new) as (self1 & -> & Hc & Hb).
  cbn [mbind option_bind].
  pose proof (sweep_loop_dense sweeps tol ref_order self1 Dense.init
                reference_order_valid (dense_rel_init self1 Hc Hb)) as H.
  destruct (Dense.sweep_loop sweeps tol ref_order Dense.init) as [s'|].
  - destruct H as (self' & -> & R). cbn [mbind option_bind].
    now rewrite <- key_of_root, (rel_min _ _ R 0%uint63 valid_root),
      (rel_max _ _ R 0%uint63 valid_root).
  - now rewrite H.
Qed.

(** ** More fuel changes nothing *)

Lemma topoSort_loop_fuel {K St} `{PyKey K} (gp : St -> K -> option (list K * St)) fuel :
  forall fuel' stack visited results s r,
    (fuel <= fuel')%nat ->
    topoSort_loop gp fuel stack visited results s = Some r ->
    topoSort_loop gp fuel' stack visited results s = Some r.
Proof.
  induction fuel as [|fuel IH]; intros fuel' stack visited results s r Hle E.
  - destruct stack as [|[c st] stack]; [destruct fuel'; exact E|discriminate E].
  - destruct fuel' as [|fuel']; [lia|].
    destruct stack as [|[c st] stack]; [exact E|].
    cbn [topoSort_loop] in E |- *.
    destruct (st =? 0).
    + destruct (pyset_mem visited c).
      * apply IH; [lia|exact E].
      * destruct (gp s c) as [[parents s1]|]; [|discriminate E].
        cbn [mbind option_bind] in E |- *. apply IH; [lia|exact E].
    + apply IH; [lia|exact E].
Qed.

Lemma sweep_loop_opt2_fuel tol stateps sweeps :
  forall sweeps' self r,
    (sweeps <= sweeps')%nat ->
    Opt2.sweep_loop sweeps tol stateps self = Some r ->
    Opt2.sweep_loop sweeps' tol stateps self = Some r.
Proof.
  induction sweeps as [|sweeps IH]; intros sweeps' self r Hle E.
  - destruct sweeps'; [exact E|].
    cbn [Opt2.sweep_loop] in E |- *.
    destruct (_ <? _)%float; [discriminate E|exact E].
  - destruct sweeps' as [|sweeps']; [lia|].
    cbn [Opt2.sweep_loop] in E |- *.
    destruct (_ <? _)%float; [|exact E].
    destruct (Opt2.sweep self stateps) as [self1|]; [|discriminate E].
    cbn [mbind option_bind] in E |- *. apply IH; [lia|exact E].
Qed.

Lemma evaluate_opt2_fuel fuel fuel' sweeps sweeps' tol self r :
  (fuel <= fuel')%nat -> (sweeps <= sweeps')%nat ->
  Opt2.evaluate fuel sweeps tol self = Some r ->
  Opt2.evaluate fuel' sweeps' tol self = Some r.
Proof.
  intros Hf Hs. unfold Opt2.evaluate, Opt2.evaluate_run, topoSort.
  destruct (topoSort_loop _ fuel _ _ _ _) as [[stateps self1]|] eqn:E1; [|discriminate].
  rewrite (topoSort_loop_fuel _ _ _ _ _ _ _ _ Hf E1).
  cbn [mbind option_bind].
  destruct (Opt2.sweep_loop sweeps _ _ _) as [self2|] eqn:E2; [|discriminate].
  now rewrite (sweep_loop_opt2_fuel _ _ _ _ _ _ Hs E2).
Qed.

(** ** The reference scenario *)

(** The run over the arrays with tolerance 0.192: it ends within 111
    sweeps. *)
Lemma dense_reference_run :
  Dense.evaluate 111 0.192 = Some 0.8987358988699945%float.
Proof. vm_cast_no_check (eq_refl (Some 0.8987358988699945%float)). Qed.

(** [x] is the rational [num / 10^digits] within [1 / 10^tol_digits]:
    for a finite [x = m * 2^e] this is
    [|m * 2^e * 10^digits - num| * 10^tol_digits <= 10^digits], in
    integers. *)
Definition within_decimal (x : float) (num digits tol_digits : Z) : Prop :=
  match Prim2SF x with
  | S754_zero _ => Z.abs num * 10 ^ tol_digits <= 10 ^ digits
  | S754_finite s m e =>
      let v := if s then - Z.pos m else Z.pos m in
      if e <? 0 then
        Z.abs (v * 10 ^ digits - num * 2 ^ (- e)) * 10 ^ tol_digits
        <= 10 ^ digits * 2 ^ (- e)
      else
        Z.abs (v * 2 ^ e * 10 ^ digits - num) * 10 ^ tol_digits <= 10 ^ digits
  | _ => False
  end.

(** C1.  With the fixed setup of [evaluate] and tolerance 0.192,
    [Battle().evaluate(0.192)] of mdp_opt2 returns: the walk of [topoSort]
    ends within [graph_fuel] pops and the loop within 111 sweeps, and more
    fuel gives the same result.  The float returned is 0.8987358988699945;
    its difference from 0.89873589887 is at most 1e-6, as the test of
    [bench_mdp] computes it in floats and as a comparison of rationals. *)
Theorem evaluate_reference_scenario fuel sweeps :
  (graph_fuel <= fuel)%nat -> (111 <= sweeps)%nat ->
  exists r,
    Opt2.evaluate fuel sweeps 0.192 Battle_new = Some r /\
    r = 0.8987358988699945%float /\
    (1e-6 <? abs (r - 0.89873589887))%float = false /\
    within_decimal r 89873589887 11 6.
Proof.
  intros Hf Hs. exists 0.8987358988699945%float.
  split; [|split; [reflexivity|split; [reflexivity|]]].
  - apply (evaluate_opt2_fuel graph_fuel fuel 111 sweeps); [exact Hf|exact Hs|].
    rewrite evaluate_opt2_dense. exact dense_reference_run.
  - vm_compute. discriminate.
Qed.

Lemma evaluate_reference_scenario_witness :
  exists r,
    Opt2.evaluate graph_fuel 111 0.192 Battle_new = Some r /\
    r = 0.8987358988699945%float /\
    (1e-6 <? abs (r - 0.89873589887))%float = false /\
    within_decimal r 89873589887 11 6.
Proof.
  apply (evaluate_reference_scenario graph_fuel 111); [apply le_n|apply le_n].
Defined.

(** * More of the code *)

(** The two sides of the fixed setup of [evaluate]. *)
Definition starhalf : halfstate_t :=
  mk_halfstate (mk_fixeddata 59 (mk_stats 40 44 56 50) 11 NOMODS 115)
    59 0 NOMODS (mk_stats 40 44 56 50).
Definition charhalf : halfstate_t :=
  mk_halfstate (mk_fixeddata 63 (mk_stats 39 34 46 38) 26 (mk_stats 1 0 0 0) 65)
    63 0 NOMODS (applyBadgeBoosts (mk_stats 1 0 0 0) (mk_stats 39 34 46 38)).

Lemma initial_statep_sides : initial_statep = Key0 (charhalf, starhalf, 0).
Proof. reflexivity. Qed.

(** ** Hit points and stats *)

(** X1.  [applyHPChange] keeps the hit points between 0 and [maxhp]: the
    sum [hp + change] is kept when it lies there, else the nearer end is
    taken.  No other field changes. *)
Theorem applyHPChange_clamps hstate change :
  0 <= maxhp (fixed hstate) ->
  let h := applyHPChange hstate change in
  0 <= hp h <= maxhp (fixed hstate) /\
  (0 <= hp hstate + change <= maxhp (fixed hstate) -> hp h = hp hstate + change) /\
  (hp hstate + change <= 0 -> hp h = 0) /\
  (maxhp (fixed hstate) <= hp hstate + change -> hp h = maxhp (fixed hstate)) /\
  fixed h = fixed hstate /\ status h = status hstate /\
  statmods h = statmods hstate /\ stats h = stats hstate.
Proof.
  intros Hm h. unfold h, applyHPChange. cbn [hp fixed status statmods stats].
  repeat split; lia.
Qed.

Lemma applyHPChange_clamps_witness :
  let hstate := mk_halfstate (mk_fixeddata 59 NOMODS 11 NOMODS 115) 20 0 NOMODS NOMODS in
  let h := applyHPChange hstate 50 in
  0 <= hp h <= 59 /\
  (0 <= 20 + 50 <= 59 -> hp h = 20 + 50) /\
  (20 + 50 <= 0 -> hp h = 0) /\
  (59 <= 20 + 50 -> hp h = 59) /\
  fixed h = fixed hstate /\ status h = status hstate /\
  statmods h = statmods hstate /\ stats h = stats hstate.
Proof.
  intros hstate. apply (applyHPChange_clamps hstate 50). cbn. lia.
Defined.

(** X2.  On a half-state whose hit points are within range, two changes
    of the same sign add up: two hits are one hit of the summed damage, two
    heals one heal of the summed amount. *)
Theorem applyHPChange_same_sign hstate a b :
  0 <= hp hstate <= maxhp (fixed hstate) -> 0 <= a -> 0 <= b ->
  applyHPChange (applyHPChange hstate (- a)) (- b) = applyHPChange hstate (- (a + b)) /\
  applyHPChange (applyHPChange hstate a) b = applyHPChange hstate (a + b).
Proof.
  intros Hh Ha Hb. unfold applyHPChange. cbn [hp fixed status statmods stats].
  split; f_equal; lia.
Qed.

Lemma applyHPChange_same_sign_witness :
  let hstate := mk_halfstate (mk_fixeddata 59 NOMODS 11 NOMODS 115) 20 0 NOMODS NOMODS in
  applyHPChange (applyHPChange hstate (- 15)) (- 9) = applyHPChange hstate (- (15 + 9)) /\
  applyHPChange (applyHPChange hstate 15) 9 = applyHPChange hstate (15 + 9).
Proof.
  intros hstate. apply (applyHPChange_same_sign hstate 15 9); cbn; lia.
Defined.

(** X3.  [plus12] is nine eighths rounded down.  [applyBadgeBoosts] gives
    that to the stats whose badge is not zero and keeps the others; without
    badges nothing changes, and a stat that is not negative is never
    lowered. *)
Theorem applyBadgeBoosts_boosts badges stats :
  (forall x, plus12 x = (9 * x) / 8) /\
  applyBadgeBoosts NOMODS stats = stats /\
  (forall i, In i [0; 1; 2; 3] ->
     stats_get (applyBadgeBoosts badges stats) i =
     if stats_get badges i =? 0 then stats_get stats i
     else (9 * stats_get stats i) / 8) /\
  (forall i, In i [0; 1; 2; 3] -> 0 <= stats_get stats i ->
     stats_get stats i <= stats_get (applyBadgeBoosts badges stats) i).
Proof.
  assert (P : forall x, plus12 x = (9 * x) / 8).
  { intros x. unfold plus12. replace (9 * x) with (x + x * 8) by lia.
    rewrite Z.div_add by lia. lia. }
  split; [exact P|]. split; [now destruct stats|].
  destruct stats as [a d s p], badges as [ba bd bs bp].
  split; intros i Hi; destruct Hi as [<-|[<-|[<-|[<-|[]]]]]; cbn; rewrite <- ?P;
    try reflexivity; intros Hx;
    match goal with |- context [if ?c then _ else _] => destruct c end;
    try lia; unfold plus12;
    match goal with |- ?x <= ?x + ?x / 8 => pose proof (Z.div_pos x 8); lia end.
Qed.

Lemma applyBadgeBoosts_boosts_witness :
  stats_get (mk_stats 39 34 46 38) 0
  <= stats_get (applyBadgeBoosts (mk_stats 1 0 0 0) (mk_stats 39 34 46 38)) 0.
Proof.
  apply (proj2 (proj2 (proj2 (applyBadgeBoosts_boosts (mk_stats 1 0 0 0)
                                (mk_stats 39 34 46 38)))) 0);
    [left; reflexivity|cbn; lia].
Defined.

(** ** Damage rolls *)

Lemma nth_map_seq (h : nat -> Z) n i d : (i < n)%nat -> nth i (map h (seq 0 n)) d = h i.
Proof.
  intros Hi. rewrite (nth_indep _ d (h 0%nat)) by now rewrite length_map, length_seq.
  rewrite map_nth, seq_nth by exact Hi. reflexivity.
Qed.

Lemma getDamages_inv L A D B stab te l :
  getDamages L A D B stab te = Some l ->
  D <> 0 /\ exists x, l = map (fun i : nat => (x * (217 + Z.of_nat i)) / 255) (seq 0 39).
Proof.
  unfold getDamages. destruct (D * 50 =? 0) eqn:ED; [discriminate|].
  destruct (py_float _) as [xf|]; cbn [mbind option_bind]; [|discriminate].
  destruct (py_int _) as [x|]; cbn [mbind option_bind]; [|discriminate].
  intros E. split; [intros ->; discriminate ED|]. exists x.
  assert (El : l = map (fun z => (x * z) / 255) (range 217 256)) by congruence.
  rewrite El. unfold range. now rewrite map_map.
Qed.

Lemma getDamages_length L A D B stab te l :
  getDamages L A D B stab te = Some l -> length l = 39%nat.
Proof.
  intros E. apply getDamages_inv in E as (_ & x & ->).
  now rewrite length_map, length_seq.
Qed.

(** X4.  [getDamages] returns the 39 rolls of a base damage [x]: the rolls
    [x * z // 255] for [z] from 217 to 255.  The last roll is [x] itself;
    when it is not negative the rolls never decrease, from [217 * x // 255]
    up to [x]. *)
Theorem getDamages_rolls L A D B stab te l :
  getDamages L A D B stab te = Some l ->
  let top := nth 38 l 0 in
  length l = 39%nat /\
  (forall i, (i < 39)%nat -> nth i l 0 = (top * (217 + Z.of_nat i)) / 255) /\
  (0 <= top ->
   (forall i j, (i <= j < 39)%nat -> nth i l 0 <= nth j l 0) /\
   (forall d, In d l -> (top * 217) / 255 <= d <= top)).
Proof.
  intros E. apply getDamages_inv in E as (_ & x & ->).
  set (h := fun i : nat => x * (217 + Z.of_nat i) / 255).
  assert (Hn : forall i, (i < 39)%nat -> nth i (map h (seq 0 39)) 0 = h i)
    by (intros i Hi; now apply nth_map_seq).
  assert (Ht : nth 38 (map h (seq 0 39)) 0 = x).
  { rewrite Hn by lia. unfold h. change (217 + Z.of_nat 38) with 255. apply Z.div_mul. lia. }
  cbv zeta. rewrite Ht.
  assert (Hmono : 0 <= x -> forall i j, (i <= j)%nat -> h i <= h j).
  { intros Hx i j Hij. unfold h. apply Z.div_le_mono; [lia|]. nia. }
  split; [now rewrite length_map, length_seq|]. split; [exact Hn|].
  intros Hx. split.
  - intros i j Hij. rewrite !Hn by lia. apply Hmono; [exact Hx|lia].
  - intros d Hd. apply in_map_iff in Hd as (i & <- & Hi). apply in_seq in Hi.
    split.
    + change (x * 217 / 255) with (h 0%nat). apply Hmono; [exact Hx|lia].
    + rewrite <- Ht, Hn by lia. apply Hmono; [exact Hx|lia].
Qed.

Lemma getDamages_rolls_witness :
  let l := default [] (getDamages 26 39 44 100 false 1) in
  let top := nth 38 l 0 in
  length l = 39%nat /\
  (forall i, (i < 39)%nat -> nth i l 0 = (top * (217 + Z.of_nat i)) / 255) /\
  (0 <= top ->
   (forall i j, (i <= j < 39)%nat -> nth i l 0 <= nth j l 0) /\
   (forall d, In d l -> (top * 217) / 255 <= d <= top)).
Proof.
  intros l. apply (getDamages_rolls 26 39 44 100 false 1 l). reflexivity.
Defined.

(** A dictionary filled by [dist[k] = dist.get(k, 0.0) + v]: its keys. *)
Section AddMass.
Context {K A : Type}.
Variable eqb : K -> K -> bool.
Hypothesis eqb_eq : forall a b, eqb a b = true <-> a = b.
Variable step : list (K * float) -> A -> list (K * float).
Variable key_of_item : A -> K.
Variable mass_of_item : A -> float.
Hypothesis step_add : forall dist a,
  step dist a = add_mass eqb dist (key_of_item a) (mass_of_item a).

Lemma od_get_Some_in (d : list (K * float)) k v :
  od_get eqb d k = Some v -> In k (map fst d).
Proof.
  induction d as [|[k' v'] d IH]; cbn; [discriminate|].
  destruct (eqb k' k) eqn:E; [apply eqb_eq in E; auto|auto].
Qed.

Lemma add_mass_keys dist k v x :
  In x (map fst (add_mass eqb dist k v)) <-> In x (map fst dist) \/ x = k.
Proof.
  unfold add_mass. rewrite od_set_keys.
  destruct (od_get eqb dist k) eqn:E.
  - split; [tauto|]. intros [I| ->]; [exact I|]. eapply od_get_Some_in, E.
  - rewrite in_app_iff. cbn. intuition.
Qed.

Lemma fold_add_mass l : forall acc,
  List.NoDup (map fst acc) ->
  List.NoDup (map fst (fold_left step l acc)) /\
  (forall x, In x (map fst (fold_left step l acc)) <->
             In x (map fst acc) \/ In x (map key_of_item l)).
Proof.
  induction l as [|a l IH]; intros acc Hn; cbn [fold_left map].
  - split; [exact Hn|]. intros x. cbn. tauto.
  - destruct (IH (step acc a)) as [H1 H2].
    { rewrite step_add. unfold add_mass. now apply od_set_NoDup. }
    split; [exact H1|]. intros x. rewrite H2, step_add, add_mass_keys. cbn. intuition.
Qed.
End AddMass.

(** X5.  [getCritDist] returns when, and only when, its two calls of
    [getDamages] return.  The keys of the dictionary are then the rolls of
    either call, each once: at least one and at most 78 entries. *)
Theorem getCritDist_keys L p A1 A2 D1 D2 B stab te :
  match getCritDist L p A1 A2 D1 D2 B stab te with
  | Some dist =>
      exists norm crit,
        getDamages L A1 D1 B stab te = Some norm /\
        getDamages (L * 2) A2 D2 B stab te = Some crit /\
        List.NoDup (map fst dist) /\
        (forall x, In x (map fst dist) <-> In x norm \/ In x crit) /\
        (1 <= length dist <= 78)%nat
  | None =>
      getDamages L A1 D1 B stab te = None \/ getDamages (L * 2) A2 D2 B stab te = None
  end.
Proof.
  unfold getCritDist.
  destruct (getDamages L A1 D1 B stab te) as [norm|] eqn:En; cbn [mbind option_bind]; [|auto].
  destruct (getDamages (L * 2) A2 D2 B stab te) as [crit|] eqn:Ec;
    cbn [mbind option_bind]; [|auto].
  rewrite (getDamages_length _ _ _ _ _ _ _ En), (getDamages_length _ _ _ _ _ _ _ Ec).
  change (py_float (Z.of_nat 39)) with (Some 39%float). cbn [mbind option_bind].
  set (mn := ((1 - py_min p 1) / 39)%float). set (mc := (py_min p 1 / 39)%float).
  destruct (fold_add_mass Z.eqb Z.eqb_eq (fun dist x => add_mass Z.eqb dist x mn)
              (fun x => x) (fun _ => mn) (fun _ _ => eq_refl) norm [])
    as [N1 K1]; [constructor|].
  destruct (fold_add_mass Z.eqb Z.eqb_eq (fun dist x => add_mass Z.eqb dist x mc)
              (fun x => x) (fun _ => mc) (fun _ _ => eq_refl) crit _ N1)
    as [N2 K2].
  rewrite map_id in K1, K2.
  exists norm, crit. split; [reflexivity|]. split; [reflexivity|]. split; [exact N2|].
  assert (HK : forall x, In x (map fst
                (fold_left (fun dist x => add_mass Z.eqb dist x mc) crit
                   (fold_left (fun dist x => add_mass Z.eqb dist x mn) norm [])))
              <-> In x norm \/ In x crit).
  { intros x. rewrite K2, K1. cbn. tauto. }
  split; [exact HK|].
  rewrite <- (length_map fst). revert N2 HK. clear K1 K2 N1.
  generalize (map fst
                (fold_left (fun dist x => add_mass Z.eqb dist x mc) crit
                   (fold_left (fun dist x => add_mass Z.eqb dist x mn) norm []))).
  intros ks N2 HK. split.
  - pose proof (getDamages_length _ _ _ _ _ _ _ En) as Hl.
    destruct norm as [|d norm]; [discriminate Hl|].
    assert (I : In d ks) by (apply HK; left; now left).
    destruct ks; [destruct I|cbn [length]; lia].
  - replace 78%nat with (length (norm ++ crit)).
    + apply NoDup_incl_length; [exact N2|]. intros x Hx. apply in_app_iff. now apply HK.
    + rewrite length_app, (getDamages_length _ _ _ _ _ _ _ En),
        (getDamages_length _ _ _ _ _ _ _ Ec). reflexivity.
Qed.

Lemma getCritDist_calls L p A1 A2 D1 D2 B stab te dist :
  getCritDist L p A1 A2 D1 D2 B stab te = Some dist -> D1 <> 0 /\ D2 <> 0.
Proof.
  unfold getCritDist.
  destruct (getDamages L A1 D1 B stab te) as [norm|] eqn:En; cbn [mbind option_bind];
    [|discriminate].
  destruct (getDamages (L * 2) A2 D2 B stab te) as [crit|] eqn:Ec;
    cbn [mbind option_bind]; [|discriminate].
  intros _. apply getDamages_inv in En as [Dn _]. apply getDamages_inv in Ec as [Dc _].
  now split.
Qed.

(** ** Actions *)

Lemma attack_data_not_potion act mdata :
  attack_data act = Some mdata -> String.eqb act "Super Potion" = false.
Proof.
  destruct (String.eqb act "Super Potion") eqn:E; [|reflexivity].
  apply String.eqb_eq in E. subst act. discriminate.
Qed.

(** On any side but 0 the action is applied to the swapped state. *)
Lemma applyAction_other_side state side act :
  side <> 0 ->
  _applyAction state side act = swap_keys <$> _applyActionSide1 (swap state) act.
Proof.
  intros Hs. destruct state as [[me them] extra]. unfold _applyAction.
  apply Z.eqb_neq in Hs. rewrite Hs. cbn [swap].
  destruct (_applyActionSide1 (them, me, extra) act) as [dist|] eqn:E; cbn; [|reflexivity].
  f_equal. unfold swap_items. rewrite swap_items_fresh; [reflexivity|].
  cbn. apply applyActionSide1_NoDup in E.
  apply Finite.Injective_map_NoDup; [|exact E].
  intros a b. apply swap_inj.
Qed.

(** X6.  A label that is neither ['Super Potion'] nor a key of
    [attack_data] makes [_applyAction] fail (a [KeyError]) on either side,
    and [_getSuccessorsC] with it. *)
Theorem applyAction_unknown_action state side act :
  String.eqb act "Super Potion" = false -> attack_data act = None ->
  _applyAction state side act = None /\ _getSuccessorsC state side act = None.
Proof.
  intros Hp Ha.
  assert (H1 : forall st, _applyActionSide1 st act = None).
  { intros [[me them] extra]. unfold _applyActionSide1. now rewrite Hp, Ha. }
  assert (H2 : _applyAction state side act = None).
  { destruct (Z.eq_dec side 0) as [->|Hs].
    - destruct state as [[me them] extra]. apply H1.
    - rewrite applyAction_other_side by exact Hs. now rewrite H1. }
  split; [exact H2|]. unfold _getSuccessorsC. now rewrite H2.
Qed.

Lemma applyAction_unknown_action_witness :
  _applyAction (charhalf, starhalf, 0) 1 "Tackle" = None /\
  _getSuccessorsC (charhalf, starhalf, 0) 1 "Tackle" = None.
Proof.
  apply (applyAction_unknown_action (charhalf, starhalf, 0) 1 "Tackle"); reflexivity.
Defined.

(** X7.  An attack on a side whose defending stat is 0, now or in its
    fixed data, fails: [getDamages] divides by [D * 50]. *)
Theorem attack_zero_defense me them extra act mdata :
  attack_data act = Some mdata ->
  stats_get (stats them) (if isspec mdata then 3 else 1) = 0 \/
  stats_get (fx_stats (fixed them)) (if isspec mdata then 3 else 1) = 0 ->
  _applyAction (me, them, extra) 0 act = None /\
  _applyAction (them, me, extra) 1 act = None.
Proof.
  intros Ha Hz.
  assert (H1 : _applyActionSide1 (me, them, extra) act = None).
  { unfold _applyActionSide1. rewrite (attack_data_not_potion _ _ Ha), Ha.
    cbn [mbind option_bind]. destruct (py_float _) as [bs|]; cbn [mbind option_bind];
      [|reflexivity].
    destruct (getCritDist _ _ _ _ _ _ _ _ _) as [dist|] eqn:Ed; [|reflexivity].
    apply getCritDist_calls in Ed as [Dn Dc].
    destruct Hz; contradiction. }
  split; [exact H1|].
  rewrite applyAction_other_side by discriminate. cbn [swap]. now rewrite H1.
Qed.

Lemma attack_zero_defense_witness :
  let them := mk_halfstate (fixed starhalf) 59 0 NOMODS NOMODS in
  _applyAction (charhalf, them, 0) 0 "Dig" = None /\
  _applyAction (them, charhalf, 0) 1 "Dig" = None.
Proof.
  intros them.
  apply (attack_zero_defense charhalf them 0 "Dig" (mk_attack_stats 100 false false 1 false));
    [reflexivity|left; reflexivity].
Defined.

Lemma fold_add_mass_in {K A} (eqb : K -> K -> bool)
    (step : list (K * float) -> A -> list (K * float)) (kf : A -> K) (vf : A -> float) :
  (forall a b, eqb a b = true <-> a = b) ->
  (forall dist a, step dist a = add_mass eqb dist (kf a) (vf a)) ->
  forall l k v, In (k, v) (fold_left step l []) -> In k (map kf l).
Proof.
  intros He Hs l k v Hi.
  destruct (fold_add_mass eqb He step kf vf Hs l []) as [_ Hk]; [constructor|].
  apply (in_map fst) in Hi. apply Hk in Hi. destruct Hi as [[]|Hi]. exact Hi.
Qed.

(** X8.  What an action does to a state.  The potion has one outcome, of
    probability 1.0: the side that acts is healed by 50.  An attack leaves
    the side that acts as it is, and every outcome lowers the hit points of
    the other side by one of the rolls.  The third component never
    changes, and no outcome appears twice. *)
Theorem applyAction_outcomes a b extra side act dist :
  _applyAction (a, b, extra) side act = Some dist ->
  List.NoDup (map fst dist) /\
  if String.eqb act "Super Potion" then
    dist = [(if side =? 0 then (applyHPChange a 50, b, extra)
             else (a, applyHPChange b 50, extra), 1%float)]
  else
    forall k p, In (k, p) dist ->
      exists dmg,
        k = if side =? 0 then (a, applyHPChange b (- dmg), extra)
            else (applyHPChange a (- dmg), b, extra).
Proof.
  assert (S1 : forall me them d,
    _applyActionSide1 (me, them, extra) act = Some d ->
    if String.eqb act "Super Potion" then d = [((applyHPChange me 50, them, extra), 1%float)]
    else forall k p, In (k, p) d ->
           exists dmg, k = (me, applyHPChange them (- dmg), extra)).
  { intros me them d. unfold _applyActionSide1.
    destruct (String.eqb act "Super Potion"); [now intros [= <-]|].
    destruct (attack_data act) as [mdata|]; cbn [mbind option_bind]; [|discriminate].
    destruct (py_float _) as [bs|]; cbn [mbind option_bind]; [|discriminate].
    destruct (getCritDist _ _ _ _ _ _ _ _ _) as [dmg_dist|]; cbn [mbind option_bind];
      [|discriminate].
    intros E k p Hi. assert (E' : d = fold_left (fun dist '(dmg, p) =>
                       add_mass state_eqb dist (me, applyHPChange them (- dmg), extra) p)
                    dmg_dist []) by congruence.
    subst d.
    apply (fold_add_mass_in state_eqb _
             (fun dp : Z * float => (me, applyHPChange them (- fst dp), extra)) snd
             state_eqb_eq) in Hi.
    - apply in_map_iff in Hi as ([dmg q] & <- & _). now exists dmg.
    - now intros dist0 [dmg q]. }
  destruct (Z.eq_dec side 0) as [->|Hs].
  - intros E. change (_applyActionSide1 (a, b, extra) act = Some dist) in E.
    split; [now apply applyActionSide1_NoDup in E|].
    cbn [Z.eqb]. now apply S1.
  - rewrite applyAction_other_side by exact Hs. cbn [swap].
    destruct (_applyActionSide1 (b, a, extra) act) as [d|] eqn:E; [|discriminate].
    intros [= <-]. apply Z.eqb_neq in Hs. rewrite Hs. split.
    + unfold swap_keys. rewrite map_map.
      rewrite (map_ext _ (fun x => swap (fst x))) by now intros [k v].
      rewrite <- map_map. apply Finite.Injective_map_NoDup; [intros x y; apply swap_inj|].
      now apply applyActionSide1_NoDup in E.
    + apply S1 in E. destruct (String.eqb act "Super Potion").
      * now subst d.
      * intros k p Hi. unfold swap_keys in Hi. apply in_map_iff in Hi as ([k0 p0] & Ek & Hi).
        destruct (E k0 p0 Hi) as [dmg ->]. exists dmg. cbn [swap] in Ek. congruence.
Qed.

Lemma applyAction_outcomes_witness :
  let dist := default [] (_applyAction (charhalf, starhalf, 0) 1 "Super Potion") in
  List.NoDup (map fst dist) /\
  dist = [((charhalf, applyHPChange starhalf 50, 0), 1%float)].
Proof.
  intros dist.
  apply (applyAction_outcomes charhalf starhalf 0 1 "Super Potion" dist). reflexivity.
Defined.

(** ** Sorting *)

Section SortedLaws.
Context {A : Type} (lt : A -> A -> bool).

Lemma insert_sorted_perm x l : Permutation (insert_sorted lt x l) (x :: l).
Proof.
  induction l as [|y l IH]; cbn [insert_sorted]; [reflexivity|].
  destruct (lt y x); [|reflexivity].
  rewrite IH. apply perm_swap.
Qed.

Lemma sorted_perm l : Permutation (sorted lt l) l.
Proof.
  induction l as [|x l IH]; cbn [sorted fold_right]; [reflexivity|].
  fold (sorted lt l). rewrite insert_sorted_perm. now constructor.
Qed.

Hypothesis lt_asym : forall a b, lt a b = true -> lt b a = false.

Lemma insert_sorted_Sorted x l :
  Sorted (fun a b => lt b a = false) l ->
  Sorted (fun a b => lt b a = false) (insert_sorted lt x l).
Proof.
  induction 1 as [|y l Hs IH Hh]; cbn [insert_sorted].
  - repeat constructor.
  - destruct (lt y x) eqn:E.
    + constructor; [exact IH|].
      destruct Hh as [|z l Hyz]; cbn [insert_sorted].
      * constructor. now apply lt_asym.
      * destruct (lt z x); constructor; [exact Hyz|now apply lt_asym].
    + constructor; [now constructor|]. now constructor.
Qed.

Lemma sorted_Sorted l : Sorted (fun a b => lt b a = false) (sorted lt l).
Proof.
  induction l as [|x l IH]; cbn [sorted fold_right]; [constructor|].
  now apply insert_sorted_Sorted.
Qed.
End SortedLaws.

(** ** The order of the outcomes *)

Lemma SFcompare_opp x y : SFcompare (SFopp y) (SFopp x) = SFcompare x y.
Proof.
  destruct x as [[]|[]| |[] m1 e1], y as [[]|[]| |[] m2 e2]; cbn; try reflexivity;
    rewrite (Z.compare_antisym e1 e2); destruct (e1 ?= e2); cbn; try reflexivity;
    pose proof (Pos.compare_cont_antisym m1 m2 Eq) as A; cbn in A; rewrite <- A;
    now rewrite ?CompOpp_involutive.
Qed.

Lemma ltb_opp (a b : float) : (- b <? - a)%float = (a <? b)%float.
Proof.
  rewrite !FloatAxioms.ltb_spec, !FloatAxioms.opp_spec. unfold SFltb.
  now rewrite SFcompare_opp.
Qed.

Lemma float_eqb_sym (a b : float) : (a =? b)%float = (b =? a)%float.
Proof.
  rewrite !FloatAxioms.eqb_spec. unfold SFeqb.
  rewrite (SFcompare_antisym (Prim2SF a) (Prim2SF b)).
  now destruct (SFcompare (Prim2SF a) (Prim2SF b)) as [[]|].
Qed.

Lemma ltb_not_eqb (a b : float) : (a <? b)%float = true -> (a =? b)%float = false.
Proof.
  rewrite FloatAxioms.ltb_spec, FloatAxioms.eqb_spec. unfold SFltb, SFeqb.
  now destruct (SFcompare (Prim2SF a) (Prim2SF b)) as [[]|].
Qed.

Lemma lex_opp c1 c2 : lex (CompOpp c1) (CompOpp c2) = CompOpp (lex c1 c2).
Proof. now destruct c1. Qed.

Lemma stats_compare_antisym a b : stats_compare b a = CompOpp (stats_compare a b).
Proof.
  unfold stats_compare.
  rewrite (Z.compare_antisym (atk a)), (Z.compare_antisym (df a)),
    (Z.compare_antisym (speed a)), (Z.compare_antisym (spec a)).
  now rewrite !lex_opp.
Qed.

Lemma fixeddata_compare_antisym a b :
  fixeddata_compare b a = CompOpp (fixeddata_compare a b).
Proof.
  unfold fixeddata_compare.
  rewrite (Z.compare_antisym (maxhp a)), (Z.compare_antisym (lvl a)),
    (Z.compare_antisym (basespeed a)), (stats_compare_antisym (fx_stats a)),
    (stats_compare_antisym (badges a)).
  now rewrite !lex_opp.
Qed.

Lemma halfstate_compare_antisym a b :
  halfstate_compare b a = CompOpp (halfstate_compare a b).
Proof.
  unfold halfstate_compare.
  rewrite (Z.compare_antisym (hp a)), (Z.compare_antisym (status a)),
    (fixeddata_compare_antisym (fixed a)), (stats_compare_antisym (statmods a)),
    (stats_compare_antisym (stats a)).
  now rewrite !lex_opp.
Qed.

Lemma state_compare_antisym a b : state_compare b a = CompOpp (state_compare a b).
Proof.
  destruct a as [[me1 them1] extra1], b as [[me2 them2] extra2]. unfold state_compare.
  rewrite (Z.compare_antisym extra1), (halfstate_compare_antisym me1),
    (halfstate_compare_antisym them1).
  now rewrite !lex_opp.
Qed.

Lemma statep_compare_antisym a b : statep_compare b a = CompOpp (statep_compare a b).
Proof.
  destruct a as [s1|s1 a1|s1 d1 a1|b1], b as [s2|s2 a2|s2 d2 a2|b2];
    cbn [statep_compare tag]; try reflexivity.
  - apply state_compare_antisym.
  - rewrite (state_compare_antisym s1), (String.compare_antisym a2 a1).
    apply lex_opp.
  - rewrite (state_compare_antisym s1), (Z.compare_antisym d1),
      (String.compare_antisym a2 a1).
    now rewrite !lex_opp.
  - now destruct b1, b2.
Qed.

Lemma pair_lt_asym a b : pair_lt a b = true -> pair_lt b a = false.
Proof.
  unfold pair_lt. rewrite (float_eqb_sym (- snd b) (- snd a)).
  destruct (- snd a =? - snd b)%float.
  - rewrite (statep_compare_antisym (fst a) (fst b)).
    now destruct (statep_compare (fst a) (fst b)).
  - apply ltb_asym.
Qed.

Lemma pair_lt_probability a b : pair_lt b a = false -> (snd a <? snd b)%float = false.
Proof.
  unfold pair_lt. destruct (snd a <? snd b)%float eqn:E; [|reflexivity].
  rewrite <- ltb_opp in E. now rewrite (ltb_not_eqb _ _ E), E.
Qed.

Lemma Sorted_impl {A} (R R' : A -> A -> Prop) l :
  (forall a b, R a b -> R' a b) -> Sorted R l -> Sorted R' l.
Proof.
  intros HR. induction 1 as [|x l Hs IH Hh]; constructor; [exact IH|].
  destruct Hh; constructor. now apply HR.
Qed.

(** ** Successors *)

(** Both sides of a state still stand. *)
Definition live (state : state_t) : Prop :=
  hp (fst (fst state)) <> 0 /\ hp (snd (fst state)) <> 0.

(** The keys that may follow a key [(1, state, action)], and those that
    may follow a key [(2, state, side, action)]. *)
Definition after_choice (action : string) (k : statep) : Prop :=
  k = loss \/ k = win \/
  exists ns side2 act2, k = Key2 ns side2 act2 /\ live ns /\
    ((side2 = 1 /\ (act2 = "Water Gun" \/ act2 = "Bubblebeam")) \/
     (side2 = 0 /\ act2 = action)).

Definition after_move (k : statep) : Prop :=
  k = loss \/ k = win \/ exists ns, k = Key0 ns /\ live ns.

Lemma classify_cases ns next :
  classify ns next = loss \/ classify ns next = win \/ (classify ns next = next /\ live ns).
Proof.
  destruct ns as [[me them] extra]. unfold classify, live. cbn [fst snd].
  destruct (hp me =? 0) eqn:E1; [now left|]. destruct (hp them =? 0) eqn:E2; [now right; left|].
  right; right. apply Z.eqb_neq in E1, E2. auto.
Qed.

Lemma fold_classify (P : statep -> Prop) (next : state_t -> statep) (mass : float -> float)
    d : forall dist,
  P loss -> P win -> (forall ns, live ns -> P (next ns)) ->
  List.NoDup (map fst dist) -> Forall P (map fst dist) ->
  let dist' := fold_left (fun dist '(newstate, p) =>
                 add_mass statep_eqb dist (classify newstate (next newstate)) (mass p))
                 d dist in
  List.NoDup (map fst dist') /\ Forall P (map fst dist').
Proof.
  intros dist Hl Hw Hn Hd HP dist'.
  destruct (fold_add_mass statep_eqb statep_eqb_eq
              (fun dist '(newstate, p) =>
                 add_mass statep_eqb dist (classify newstate (next newstate)) (mass p))
              (fun np => classify (fst np) (next (fst np))) (fun np => mass (snd np))
              (fun dist0 np => match np with (ns, p) => eq_refl end) d dist Hd)
    as [H1 H2].
  split; [exact H1|]. apply List.Forall_forall. intros k Hk. apply H2 in Hk as [Hk|Hk].
  - rewrite List.Forall_forall in HP. now apply HP.
  - apply in_map_iff in Hk as ([ns p] & <- & _). cbn [fst].
    destruct (classify_cases ns (next ns)) as [->|[->|[-> L]]]; auto.
Qed.

Lemma applyActionPair_keys (P : statep -> Prop) state side1 act1 side2 act2 dist pmult dist' :
  P loss -> P win -> (forall ns, live ns -> P (Key2 ns side2 act2)) ->
  _applyActionPair state side1 act1 side2 act2 dist pmult = Some dist' ->
  List.NoDup (map fst dist) -> Forall P (map fst dist) ->
  List.NoDup (map fst dist') /\ Forall P (map fst dist').
Proof.
  intros Hl Hw Hn E Hd HP. unfold _applyActionPair in E.
  destruct (_applyAction state side1 act1) as [d|]; cbn [mbind option_bind] in E;
    [|discriminate E].
  assert (E' : dist' = fold_left (fun dist '(newstate, p) =>
                 add_mass statep_eqb dist (classify newstate (Key2 newstate side2 act2))
                   (p * pmult)%float) d dist) by congruence.
  subst dist'.
  exact (fold_classify P (fun ns => Key2 ns side2 act2) (fun p => (p * pmult)%float)
           d dist Hl Hw Hn Hd HP).
Qed.

Lemma getSuccessorsC_dist state side action l :
  _getSuccessorsC state side action = Some l ->
  exists dist, l = sorted pair_lt dist /\
    List.NoDup (map fst dist) /\ Forall after_move (map fst dist).
Proof.
  unfold _getSuccessorsC.
  destruct (_applyAction state side action) as [d|]; cbn [mbind option_bind]; [|discriminate].
  intros E. eexists. split; [symmetry; injection E as E; exact E|].
  apply (fold_classify after_move Key0 (fun p => p) d []); unfold after_move; auto.
  - intros ns L. right; right. eauto.
  - constructor.
Qed.

Lemma getSuccessorsB_dist state action l :
  _getSuccessorsB state action = Some l ->
  exists dist, l = sorted pair_lt dist /\
    List.NoDup (map fst dist) /\ Forall (after_choice action) (map fst dist).
Proof.
  destruct state as [[me them] extra]. unfold _getSuccessorsB.
  set (P := after_choice action).
  assert (Hl : P loss) by (left; reflexivity).
  assert (Hw : P win) by (right; left; reflexivity).
  assert (H1 : forall eact, eact = "Water Gun" \/ eact = "Bubblebeam" ->
                 forall ns, live ns -> P (Key2 ns 1 eact)).
  { intros eact He ns L. right; right. exists ns, 1, eact. auto. }
  assert (H0 : forall ns, live ns -> P (Key2 ns 0 action)).
  { intros ns L. right; right. exists ns, 0, action. auto. }
  assert (Step : forall eact p dist dist',
    eact = "Water Gun" \/ eact = "Bubblebeam" ->
    List.NoDup (map fst dist) -> Forall P (map fst dist) ->
    (let priority1 :=
       speed (stats me) + (if String.eqb action "Super Potion" then 10000 else 0) in
     let priority2 := speed (stats them) in
     if priority2 <? priority1
     then _applyActionPair (me, them, extra) 0 action 1 eact dist p
     else if priority1 <? priority2
          then _applyActionPair (me, them, extra) 1 eact 0 action dist p
          else dist0 ← _applyActionPair (me, them, extra) 0 action 1 eact dist (p * 0.5)%float;
               _applyActionPair (me, them, extra) 1 eact 0 action dist0 (p * 0.5)%float)
    = Some dist' ->
    List.NoDup (map fst dist') /\ Forall P (map fst dist')).
  { intros eact p dist dist' He Hd HP. cbv zeta.
    destruct (_ <? _).
    - intros E. exact (applyActionPair_keys P _ _ _ _ _ _ _ _ Hl Hw (H1 eact He) E Hd HP).
    - destruct (_ <? _).
      + intros E. exact (applyActionPair_keys P _ _ _ _ _ _ _ _ Hl Hw H0 E Hd HP).
      + destruct (_applyActionPair (me, them, extra) 0 action 1 eact dist (p * 0.5)%float)
          as [dist0|] eqn:E0; cbn [mbind option_bind]; [|discriminate].
        destruct (applyActionPair_keys P _ _ _ _ _ _ _ _ Hl Hw (H1 eact He) E0 Hd HP)
          as [Hd0 HP0].
        intros E. exact (applyActionPair_keys P _ _ _ _ _ _ _ _ Hl Hw H0 E Hd0 HP0). }
  cbv zeta.
  match goal with |- (dist ← ?b; _) = _ -> _ => destruct b as [dist1|] eqn:E1 end;
    cbn [mbind option_bind]; [|discriminate].
  apply Step in E1 as [Hd1 HP1]; [|now left|constructor|constructor].
  match goal with |- (dist ← ?b; _) = _ -> _ => destruct b as [dist2|] eqn:E2 end;
    cbn [mbind option_bind]; [|discriminate].
  apply Step in E2 as [Hd2 HP2]; [|now right|exact Hd1|exact HP1].
  intros E. exists dist2. split; [symmetry; injection E as E; exact E|]. now split.
Qed.

Lemma sorted_pairs dist :
  List.NoDup (map fst dist) ->
  List.NoDup (map fst (sorted pair_lt dist)) /\
  Sorted (fun a b => pair_lt b a = false) (sorted pair_lt dist) /\
  Sorted (fun a b => (snd a <? snd b)%float = false) (sorted pair_lt dist).
Proof.
  intros Hd. split; [|split].
  - eapply Permutation_NoDup; [|exact Hd].
    apply Permutation_map. symmetry. apply sorted_perm.
  - apply sorted_Sorted. exact pair_lt_asym.
  - eapply Sorted_impl; [|apply sorted_Sorted; exact pair_lt_asym].
    intros a b. apply pair_lt_probability.
Qed.

(** X9.  The list of outcomes of a chance key, as [_getSuccessorsB] and
    [_getSuccessorsC] return it: no key twice, no outcome followed by an
    outcome of greater probability, and more precisely no outcome followed
    by one whose sort key [(-p, key)] is smaller. *)
Theorem outcomes_sorted sp l :
  compute_successors sp = Some (Pairs l) ->
  List.NoDup (map fst l) /\
  Sorted (fun a b => pair_lt b a = false) l /\
  Sorted (fun a b => (snd a <? snd b)%float = false) l.
Proof.
  destruct sp as [state|state action|state side action|won]; cbn [compute_successors].
  - discriminate.
  - destruct (_getSuccessorsB state action) as [l'|] eqn:E; [|discriminate].
    intros [= <-]. apply getSuccessorsB_dist in E as (dist & -> & Hd & _).
    now apply sorted_pairs.
  - destruct (_getSuccessorsC state side action) as [l'|] eqn:E; [|discriminate].
    intros [= <-]. apply getSuccessorsC_dist in E as (dist & -> & Hd & _).
    now apply sorted_pairs.
  - discriminate.
Qed.

(** X10.  The graph is layered.  A key [(0, state)] is followed by the two
    choices, a choice by keys [(2, ...)] that wait for the move of the
    other side (or repeat the chosen action on side 0), a key [(2, ...)]
    by keys [(0, ...)].  A state in which a side has no hit points left is
    never kept: its key is [loss] when side 0 is down, else [win].  The
    terminal keys have no successors to compute. *)
Theorem successors_layers sp s :
  compute_successors sp = Some s ->
  match sp with
  | Key0 state => s = States [Key1 state "Dig"; Key1 state "Super Potion"]
  | Key1 state action =>
      exists l, s = Pairs l /\ Forall (after_choice action) (map fst l)
  | Key2 state side action => exists l, s = Pairs l /\ Forall after_move (map fst l)
  | Key4 _ => False
  end.
Proof.
  destruct sp as [state|state action|state side action|won]; cbn [compute_successors].
  - now intros [= <-].
  - destruct (_getSuccessorsB state action) as [l|] eqn:E; [|discriminate].
    intros [= <-]. exists l. split; [reflexivity|].
    apply getSuccessorsB_dist in E as (dist & -> & _ & HP).
    rewrite List.Forall_forall in HP |- *. intros k Hk. apply HP.
    eapply Permutation_in; [|exact Hk]. apply Permutation_map, sorted_perm.
  - destruct (_getSuccessorsC state side action) as [l|] eqn:E; [|discriminate].
    intros [= <-]. exists l. split; [reflexivity|].
    apply getSuccessorsC_dist in E as (dist & -> & _ & HP).
    rewrite List.Forall_forall in HP |- *. intros k Hk. apply HP.
    eapply Permutation_in; [|exact Hk]. apply Permutation_map, sorted_perm.
  - discriminate.
Qed.

Lemma outcomes_sorted_witness :
  let l := match compute_successors (Key2 (charhalf, starhalf, 0) 1 "Water Gun") with
           | Some (Pairs l) => l
           | _ => []
           end in
  List.NoDup (map fst l) /\
  Sorted (fun a b => pair_lt b a = false) l /\
  Sorted (fun a b => (snd a <? snd b)%float = false) l.
Proof.
  intros l. apply (outcomes_sorted (Key2 (charhalf, starhalf, 0) 1 "Water Gun") l).
  vm_compute. reflexivity.
Defined.

Lemma successors_layers_witness :
  let s := default (States []) (compute_successors (Key1 (charhalf, starhalf, 0) "Dig")) in
  exists l, s = Pairs l /\ Forall (after_choice "Dig") (map fst l).
Proof.
  intros s. apply (successors_layers (Key1 (charhalf, starhalf, 0) "Dig") s).
  vm_compute. reflexivity.
Defined.

(** ** The cache of successors *)

Lemma statep_eqb_refl k : statep_eqb k k = true.
Proof. now apply statep_eqb_eq. Qed.

Lemma statep_eqb_ne k k' : k <> k' -> statep_eqb k k' = false.
Proof.
  intros N. destruct (statep_eqb k k') eqn:E; [|reflexivity].
  apply statep_eqb_eq in E. contradiction.
Qed.

(** X11.  [getSuccessors] fills the cache once.  After a call that
    returned, the same call returns the same list and leaves the object as
    it is; the bounds, the frozen set and the entries of the other keys
    were not touched.  When the key was not cached the list is the one the
    methods compute, and [getSuccessorsList] returns its keys, before and
    after. *)
Theorem getSuccessors_fills_cache self sp r self1 :
  getSuccessors self sp = Some (r, self1) ->
  getSuccessors self1 sp = Some (r, self1) /\
  same_bounds self self1 /\
  (forall k, k <> sp ->
     pydict_get (successors self1) k = pydict_get (successors self) k) /\
  (pydict_get (successors self) sp = None ->
     compute_successors sp = Some r /\
     getSuccessorsList self sp = Some (states_only r, self1) /\
     getSuccessorsList self1 sp = Some (states_only r, self1)).
Proof.
  intros E. pose proof (getSuccessors_same_bounds _ _ _ _ E) as Hb.
  unfold getSuccessors in E.
  destruct (pydict_get (successors self) sp) as [c|] eqn:Ec.
  - injection E as <- <-. unfold getSuccessors. rewrite Ec.
    split; [reflexivity|]. split; [exact Hb|]. split; [reflexivity|discriminate].
  - destruct (compute_successors sp) as [s|] eqn:Es; cbn [mbind option_bind] in E;
      [|discriminate E].
    injection E as <- <-.
    set (self1 := set_successors self (pydict_set (successors self) sp (s, states_only s))).
    assert (E1 : pydict_get (successors self1) sp = Some (s, states_only s))
      by apply pydict_get_set_eq.
    assert (G : getSuccessors self sp = Some (s, self1))
      by (unfold getSuccessors; now rewrite Ec, Es).
    assert (Ht : (tag sp =? 4) = false) by (destruct sp; [reflexivity..|discriminate Es]).
    split; [unfold getSuccessors; now rewrite E1|]. split; [exact Hb|]. split.
    + intros k Hk. unfold self1, set_successors. cbn [successors].
      apply pydict_get_set_ne. congruence.
    + intros _. split; [reflexivity|]. unfold getSuccessorsList. rewrite Ht, Ec, G, E1.
      cbn [mbind option_bind]. now rewrite E1.
Qed.

Lemma getSuccessors_fills_cache_witness :
  let sp := initial_statep in
  let r := States (_getSuccessorsA (charhalf, starhalf, 0)) in
  let self1 := set_successors Battle_new (pydict_set ∅ sp (r, states_only r)) in
  getSuccessors self1 sp = Some (r, self1) /\
  same_bounds Battle_new self1 /\
  (forall k, k <> sp ->
     pydict_get (successors self1) k = pydict_get (successors Battle_new) k) /\
  (pydict_get (successors Battle_new) sp = None ->
     compute_successors sp = Some r /\
     getSuccessorsList Battle_new sp = Some (states_only r, self1) /\
     getSuccessorsList self1 sp = Some (states_only r, self1)).
Proof.
  intros sp r self1. apply (getSuccessors_fills_cache Battle_new sp r self1). reflexivity.
Defined.

(** X12.  A new [Battle]: nothing is cached, and every key but the two
    terminal keys is not frozen and reads the default bounds 0.0 and 1.0. *)
Theorem Battle_new_defaults sp :
  sp <> win -> sp <> loss ->
  min_get Battle_new sp = 0%float /\ max_get Battle_new sp = 1%float /\
  pyset_mem (frozen Battle_new) sp = false /\
  forall k, pydict_get (successors Battle_new) k = None.
Proof.
  intros Hw Hl. unfold Battle_new, min_get, max_get. cbn [dmin dmax frozen successors].
  unfold pyset_add, pyset_mem. rewrite !pydict_get_set, !pydict_get_empty.
  change (@key_eqb statep statep_key) with statep_eqb.
  rewrite (statep_eqb_ne win sp), (statep_eqb_ne loss sp) by congruence.
  repeat split. intros k. apply pydict_get_empty.
Qed.

Lemma Battle_new_defaults_witness :
  min_get Battle_new initial_statep = 0%float /\
  max_get Battle_new initial_statep = 1%float /\
  pyset_mem (frozen Battle_new) initial_statep = false /\
  forall k, pydict_get (successors Battle_new) k = None.
Proof. apply (Battle_new_defaults initial_statep); discriminate. Defined.

(** ** A sweep *)

(** X13.  What the body of the sweep of mdp_opt2 writes.  A visit changes
    the bounds and the frozen mark of the visited key only; a frozen key
    is skipped.  After the visit of a key that was not frozen, either the
    key is frozen and its two bounds are equal (the midpoint), or its
    upper bound is not below or equal to its lower bound. *)
Theorem visit_writes_one_key self sp self' :
  Opt2.visit self sp = Some self' ->
  (forall k, k <> sp ->
     min_get self' k = min_get self k /\ max_get self' k = max_get self k /\
     pyset_mem (frozen self') k = pyset_mem (frozen self) k) /\
  (pyset_mem (frozen self) sp = true -> self' = self) /\
  (pyset_mem (frozen self) sp = false ->
     if pyset_mem (frozen self') sp then min_get self' sp = max_get self' sp
     else (max_get self' sp <=? min_get self' sp)%float = false).
Proof.
  unfold Opt2.visit. destruct (pyset_mem (frozen self) sp) eqn:Ef.
  - intros [= <-]. split; [auto|]. split; [auto|discriminate].
  - destruct (getSuccessors self sp) as [[succ self1]|] eqn:Eg; cbn [mbind option_bind];
      [|discriminate].
    destruct (getSuccessors_same_bounds _ _ _ _ Eg) as (Em & EM & EF).
    assert (Hm : forall k, min_get self1 k = min_get self k)
      by (intros k; unfold min_get; now rewrite Em).
    assert (HM : forall k, max_get self1 k = max_get self k)
      by (intros k; unfold max_get; now rewrite EM).
    match goal with |- ('(lo, hi) ← ?b; _) = _ -> _ => destruct b as [[lo hi]|] end;
      cbn [mbind option_bind]; [|discriminate].
    destruct (hi <=? lo)%float eqn:Ec; intros [= <-].
    + split; [|split; [discriminate|intros _]].
      * intros k Hk. rewrite frozen_freeze. unfold freeze, min_get, max_get. cbn [dmin dmax].
        fold (min_get (set_bounds (set_bounds self1 sp lo hi) sp ((lo + hi) / 2) ((lo + hi) / 2)) k).
        fold (max_get (set_bounds (set_bounds self1 sp lo hi) sp ((lo + hi) / 2) ((lo + hi) / 2)) k).
        rewrite !min_get_set_bounds, !max_get_set_bounds, statep_eqb_ne by congruence.
        cbn [set_bounds frozen orb]. now rewrite Hm, HM, EF.
      * rewrite frozen_freeze, statep_eqb_refl. cbn [orb].
        unfold freeze, min_get, max_get. cbn [dmin dmax].
        fold (min_get (set_bounds (set_bounds self1 sp lo hi) sp ((lo + hi) / 2) ((lo + hi) / 2)) sp).
        fold (max_get (set_bounds (set_bounds self1 sp lo hi) sp ((lo + hi) / 2) ((lo + hi) / 2)) sp).
        now rewrite min_get_set_bounds, max_get_set_bounds, statep_eqb_refl.
    + split; [|split; [discriminate|intros _]].
      * intros k Hk. rewrite min_get_set_bounds, max_get_set_bounds, statep_eqb_ne by congruence.
        cbn [set_bounds frozen]. now rewrite Hm, HM, EF.
      * cbn [set_bounds frozen]. rewrite EF, Ef.
        now rewrite min_get_set_bounds, max_get_set_bounds, statep_eqb_refl.
Qed.

Lemma visit_writes_one_key_witness :
  let self := Battle_new in
  let sp := initial_statep in
  let self' := default self (Opt2.visit self sp) in
  (forall k, k <> sp ->
     min_get self' k = min_get self k /\ max_get self' k = max_get self k /\
     pyset_mem (frozen self') k = pyset_mem (frozen self) k) /\
  (pyset_mem (frozen self) sp = true -> self' = self) /\
  (pyset_mem (frozen self) sp = false ->
     if pyset_mem (frozen self') sp then min_get self' sp = max_get self' sp
     else (max_get self' sp <=? min_get self' sp)%float = false).
Proof.
  intros self sp self'. apply (visit_writes_one_key self sp self').
  vm_compute. reflexivity.
Defined.



(** ** The order of a sweep *)

Section TopoSortOrder.
Context {K St : Type} `{PyKey K}.
Variable getParents : St -> K -> option (list K * St).

Lemma topoSort_loop_bottom root fuel : forall stack visited results s r s',
  topoSort_loop getParents fuel (stack ++ [(root, 1)]) visited results s = Some (r, s') ->
  exists r', r = r' ++ [root].
Proof.
  induction fuel as [|fuel IH]; intros stack visited results s r s' E.
  - destruct stack as [|[c st] stack]; discriminate E.
  - destruct stack as [|[c st] stack]; cbn [app topoSort_loop Z.eqb] in E.
    + destruct fuel; injection E as <- <-; cbn [rev]; eauto.
    + destruct (st =? 0).
      * destruct (pyset_mem visited c).
        -- now apply IH in E.
        -- destruct (getParents s c) as [[parents s1]|]; cbn [mbind option_bind] in E;
             [|discriminate E].
           rewrite rev_append_rev, app_comm_cons, app_assoc in E. now apply IH in E.
      * now apply IH in E.
Qed.

(** X15.  [topoSort] from one root returns the root last, whatever the
    graph: the root is the last key appended.  Without roots the result
    is empty. *)
Theorem topoSort_root_last fuel root s r s' :
  topoSort getParents fuel [root] s = Some (r, s') ->
  (exists r', r = r' ++ [root]) /\
  topoSort getParents fuel [] s = Some ([], s).
Proof.
  intros E. split; [|now destruct fuel].
  unfold topoSort in E. cbn [map rev app] in E.
  destruct fuel as [|fuel]; [discriminate E|]. cbn [topoSort_loop Z.eqb] in E.
  assert (Hm : pyset_mem (∅ : pyset K) root = false)
    by (unfold pyset_mem, pydict_get; now rewrite lookup_empty).
  rewrite Hm in E.
  destruct (getParents s root) as [[parents s1]|]; cbn [mbind option_bind] in E;
    [|discriminate E].
  rewrite rev_append_rev in E.
  change ((root, 1) :: []) with ([] ++ [(root, 1)]) in E. rewrite app_assoc in E.
  now apply topoSort_loop_bottom in E.
Qed.
End TopoSortOrder.

Lemma topoSort_root_last_witness :
  (exists r', [3; 1; 2; 0] = r' ++ [0]) /\
  topoSort (pure_parents small_graph) 20 [] tt = Some ([], tt).
Proof.
  apply (topoSort_root_last (pure_parents small_graph) 20 0 tt [3; 1; 2; 0] tt).
  reflexivity.
Defined.

(** ** The bounds of a choice *)

Lemma SFltb_trans x y z : SFltb x y = true -> SFltb y z = true -> SFltb x z = true.
Proof.
  unfold SFltb.
  destruct x as [[]|[]| |[] m1 e1], y as [[]|[]| |[] m2 e2], z as [[]|[]| |[] m3 e3];
    cbn; try discriminate; try reflexivity;
    destruct (Z.compare_spec e1 e2), (Z.compare_spec e2 e3), (Z.compare_spec e1 e3);
    try discriminate; try reflexivity; try lia; subst;
    change (Pos.compare_cont Eq) with Pos.compare;
    destruct (Pos.compare_spec m1 m2), (Pos.compare_spec m2 m3), (Pos.compare_spec m1 m3);
    cbn; try discriminate; try reflexivity; lia.
Qed.

Lemma ltb_trans (a b c : float) :
  (a <? b)%float = true -> (b <? c)%float = true -> (a <? c)%float = true.
Proof. rewrite !FloatAxioms.ltb_spec. apply SFltb_trans. Qed.

Lemma ltb_irrefl (a : float) : (a <? a)%float = false.
Proof. destruct (a <? a)%float eqn:E; [|reflexivity]. now rewrite (ltb_asym _ _ E) in E. Qed.

(** [if v > best: best = v] *)
Definition keep_greater (best v : float) : float := if (best <? v)%float then v else best.

Lemma keep_greater_fold l : forall best,
  let m := fold_left keep_greater l best in
  (best <? m)%float = true \/ m = best.
Proof.
  induction l as [|v l IH]; intros best; cbn [fold_left]; [now right|].
  destruct (IH (keep_greater best v)) as [H|H]; unfold keep_greater in *.
  - destruct (best <? v)%float eqn:E; [|now left]. left. eapply ltb_trans; eassumption.
  - rewrite H. destruct (best <? v)%float eqn:E; [now left|now right].
Qed.

Lemma keep_greater_ge best v : (keep_greater best v <? v)%float = false.
Proof.
  unfold keep_greater. destruct (best <? v)%float eqn:E; [apply ltb_irrefl|exact E].
Qed.

Lemma keep_greater_bound l : forall best v,
  In v l -> (fold_left keep_greater l best <? v)%float = false.
Proof.
  induction l as [|w l IH]; intros best v Hv; [destruct Hv|]. cbn [fold_left].
  destruct Hv as [->|Hv]; [|now apply IH].
  pose proof (keep_greater_ge best v) as G.
  destruct (keep_greater_fold l (keep_greater best v)) as [H|H].
  - destruct (fold_left keep_greater l (keep_greater best v) <? v)%float eqn:E; [|reflexivity].
    pose proof (ltb_trans _ _ _ H E) as F. congruence.
  - cbv zeta in H. now rewrite H.
Qed.

Lemma keep_greater_attained l : forall best,
  fold_left keep_greater l best = best \/ In (fold_left keep_greater l best) l.
Proof.
  induction l as [|v l IH]; intros best; cbn [fold_left]; [now left|].
  destruct (IH (keep_greater best v)) as [H|H]; [|right; now right].
  rewrite H. unfold keep_greater. destruct (best <? v)%float; [right; now left|now left].
Qed.

Lemma choice_bounds_folds self succ : forall lo hi,
  fold_left (fun '(best_min, best_max) sp2 =>
               let vmin := min_get self sp2 in
               let vmax := max_get self sp2 in
               (if (best_min <? vmin)%float then vmin else best_min,
                if (best_max <? vmax)%float then vmax else best_max))
            succ (lo, hi)
  = (fold_left keep_greater (map (min_get self) succ) lo,
     fold_left keep_greater (map (max_get self) succ) hi).
Proof.
  induction succ as [|sp2 succ IH]; intros lo hi; cbn [fold_left map]; [reflexivity|].
  apply IH.
Qed.

(** X16.  The bounds of a choice are the greatest bounds of its options:
    no option has a lower bound above the new lower bound, and the new
    lower bound is the lower bound of an option (or minus infinity, when
    there is no option or only [nan]s); the same for the upper bounds. *)
Theorem choice_bounds_greatest self succ :
  let lo := fst (choice_bounds self succ) in
  let hi := snd (choice_bounds self succ) in
  (forall sp2, In sp2 succ ->
     (lo <? min_get self sp2)%float = false /\ (hi <? max_get self sp2)%float = false) /\
  (lo = neg_infinity \/ exists sp2, In sp2 succ /\ lo = min_get self sp2) /\
  (hi = neg_infinity \/ exists sp2, In sp2 succ /\ hi = max_get self sp2).
Proof.
  unfold choice_bounds. rewrite choice_bounds_folds. cbn [fst snd].
  split; [|split].
  - intros sp2 Hi. split; apply keep_greater_bound; now apply in_map.
  - destruct (keep_greater_attained (map (min_get self) succ) neg_infinity) as [H|H];
      [now left|right].
    apply in_map_iff in H as (sp2 & E & Hi). eauto.
  - destruct (keep_greater_attained (map (max_get self) succ) neg_infinity) as [H|H];
      [now left|right].
    apply in_map_iff in H as (sp2 & E & Hi). eauto.
Qed.

Lemma choice_bounds_greatest_witness :
  (fst (choice_bounds Battle_new [win; loss]) <? min_get Battle_new win)%float = false /\
  (snd (choice_bounds Battle_new [win; loss]) <? max_get Battle_new win)%float = false.
Proof.
  apply (proj1 (choice_bounds_greatest Battle_new [win; loss]) win). now left.
Defined.

(** ** The compacted graph of mdp_opt3 *)

Lemma lookup_map {A B} (f : A -> B) l i : map f l !! i = option_map f (l !! i).
Proof.
  revert i. induction l as [|x l IH]; intros [|i]; cbn; try reflexivity. apply IH.
Qed.

(** While [build_graph] runs: [id_of] holds the places of the keys in
    [states], and the keys that wait in the queue are the last of
    [states]; [done] are the keys taken from the queue so far. *)
Record intern_ok (ids : pydict statep nat) (sts q done : list statep) : Prop := {
  io_get : forall sp k, pydict_get ids sp = Some k <-> rev sts !! k = Some sp;
  io_queue : rev sts = done ++ q }.

Lemma intern_step ids sts q done sp2 :
  intern_ok ids sts q done ->
  exists ids' sts' q' i,
    Opt3.intern (ids, sts, q) sp2 = (ids', sts', q', i) /\
    intern_ok ids' sts' q' done /\
    (i < length sts')%nat /\ (length sts <= length sts')%nat /\
    (forall sp k, pydict_get ids sp = Some k -> pydict_get ids' sp = Some k).
Proof.
  intros [Hg Hq]. unfold Opt3.intern.
  destruct (pydict_get ids sp2) as [i|] eqn:E.
  - exists ids, sts, q, i. split; [reflexivity|]. split; [now split|].
    split; [|split; [lia|auto]].
    apply Hg, lookup_lt_Some in E. now rewrite length_rev in E.
  - exists (pydict_set ids sp2 (length sts)), (sp2 :: sts), (q ++ [sp2]), (length sts).
    split; [reflexivity|]. split; [split|].
    + intros sp k. rewrite pydict_get_set. cbn [rev].
      change (@key_eqb statep statep_key) with statep_eqb.
      destruct (statep_eqb sp2 sp) eqn:Ee.
      * apply statep_eqb_eq in Ee. subst sp. split.
        -- intros [= <-]. apply list_lookup_middle. now rewrite length_rev.
        -- intros Hk. f_equal.
           destruct (Nat.lt_ge_cases k (length (rev sts))) as [Hlt|Hge].
           ++ rewrite lookup_app_l in Hk by exact Hlt. apply Hg in Hk. congruence.
           ++ rewrite lookup_app_r in Hk by exact Hge.
              apply lookup_lt_Some in Hk as Hk'. cbn [length] in Hk'.
              rewrite length_rev in *. lia.
      * rewrite Hg. split.
        -- intros Hk. rewrite lookup_app_l; [exact Hk|]. now apply lookup_lt_Some in Hk.
        -- intros Hk. destruct (Nat.lt_ge_cases k (length (rev sts))) as [Hlt|Hge].
           ++ now rewrite lookup_app_l in Hk by exact Hlt.
           ++ rewrite lookup_app_r in Hk by exact Hge.
              destruct (k - length (rev sts))%nat; [|discriminate Hk].
              injection Hk as ->. now rewrite statep_eqb_refl in Ee.
    + cbn [rev]. now rewrite Hq, <- app_assoc.
    + split; [cbn [length]; lia|]. split; [cbn [length]; lia|].
      intros sp k Hk. rewrite pydict_get_set.
      change (@key_eqb statep statep_key) with statep_eqb.
      destruct (statep_eqb sp2 sp) eqn:Ee; [|exact Hk].
      apply statep_eqb_eq in Ee. congruence.
Qed.

Lemma Forall_lt_mono (n m : nat) l :
  (n <= m)%nat -> Forall (fun j => (j < n)%nat) l -> Forall (fun j => (j < m)%nat) l.
Proof. intros Hle. apply List.Forall_impl. intros j Hj. lia. Qed.

Lemma intern_states_ok done nxt : forall ids sts q acc ids' sts' q' l,
  intern_ok ids sts q done ->
  Forall (fun j => (j < length sts)%nat) acc ->
  fold_left (fun '(acc, ids) sp2 =>
               let '(acc, i) := Opt3.intern acc sp2 in (acc, ids ++ [i]))
            nxt ((ids, sts, q), acc) = ((ids', sts', q'), l) ->
  intern_ok ids' sts' q' done /\ Forall (fun j => (j < length sts')%nat) l /\
  (length sts <= length sts')%nat /\
  (forall sp k, pydict_get ids sp = Some k -> pydict_get ids' sp = Some k).
Proof.
  induction nxt as [|sp2 nxt IH]; intros ids sts q acc ids' sts' q' l Hi Ha; cbn [fold_left].
  - intros [= <- <- <- <-]. auto.
  - destruct (intern_step ids sts q done sp2 Hi) as (ids1 & sts1 & q1 & i & -> & Hi1 & Hlt & Hle & Hm).
    intros E. apply IH in E as (H1 & H2 & H3 & H4); [|exact Hi1|].
    + split; [exact H1|]. split; [exact H2|]. split; [lia|auto].
    + apply Forall_app. split; [now apply (Forall_lt_mono (length sts))|].
      now constructor.
Qed.

Lemma intern_pairs_ok done (nxt : list (statep * float)) :
  forall ids sts q (acc : list (nat * float)) ids' sts' q' l,
  intern_ok ids sts q done ->
  Forall (fun j => (j < length sts)%nat) (map fst acc) ->
  fold_left (fun '(acc, pairs) '(sp2, p) =>
               let '(acc, i) := Opt3.intern acc sp2 in (acc, pairs ++ [(i, p)]))
            nxt ((ids, sts, q), acc) = ((ids', sts', q'), l) ->
  intern_ok ids' sts' q' done /\ Forall (fun j => (j < length sts')%nat) (map fst l) /\
  (length sts <= length sts')%nat /\
  (forall sp k, pydict_get ids sp = Some k -> pydict_get ids' sp = Some k).
Proof.
  induction nxt as [|[sp2 p] nxt IH]; intros ids sts q acc ids' sts' q' l Hi Ha;
    cbn [fold_left].
  - intros [= <- <- <- <-]. auto.
  - destruct (intern_step ids sts q done sp2 Hi) as (ids1 & sts1 & q1 & i & -> & Hi1 & Hlt & Hle & Hm).
    intros E. apply IH in E as (H1 & H2 & H3 & H4); [|exact Hi1|].
    + split; [exact H1|]. split; [exact H2|]. split; [lia|auto].
    + rewrite map_app. apply Forall_app. split; [now apply (Forall_lt_mono (length sts))|].
      now constructor.
Qed.

(** A row of the tables of a graph of [n] keys: the kind and the two
    entries.  A choice has its list of ids in [succ_states] and [None] in
    [succ_pairs]; a terminal key has two empty lists; a chance key has
    [None] in [succ_states] and its pairs in [succ_pairs].  Every id is
    below [n]. *)
Definition row_ok (n : nat) (row : Z * option (list nat) * option (list (nat * float)))
    : Prop :=
  let '(k, ss, sp) := row in
  if k =? 0 then
    (exists l, ss = Some l /\ Forall (fun j => (j < n)%nat) l) /\ sp = None
  else if k =? 4 then ss = Some [] /\ sp = Some []
  else ss = None /\ exists l, sp = Some l /\ Forall (fun j => (j < n)%nat) (map fst l).

Lemma row_ok_mono n m row : (n <= m)%nat -> row_ok n row -> row_ok m row.
Proof.
  intros Hle. destruct row as [[k ss] sp]. unfold row_ok.
  destruct (k =? 0); [|destruct (k =? 4); [auto|]].
  - intros [(l & E & Hl) Hs]. split; [|exact Hs]. exists l. split; [exact E|].
    now apply (Forall_lt_mono n).
  - intros [Hs (l & E & Hl)]. split; [exact Hs|]. exists l. split; [exact E|].
    now apply (Forall_lt_mono n).
Qed.

(** The tables that [build_graph] returns. *)
Record tables_ok (root : statep) (g : Opt3.graph) : Prop := {
  to_root : pydict_get (Opt3.id_of g) root = Some 0%nat;
  to_get : forall sp k,
    pydict_get (Opt3.id_of g) sp = Some k <-> Opt3.states g !! k = Some sp;
  to_kinds : Opt3.kinds g = map tag (Opt3.states g);
  to_rows : exists rows,
    Opt3.kinds g = map (fun r => fst (fst r)) rows /\
    Opt3.succ_states g = map (fun r => snd (fst r)) rows /\
    Opt3.succ_pairs g = map snd rows /\
    Forall (row_ok (length (Opt3.states g))) rows }.

Lemma build_graph_loop_tables root fuel : forall self q g done rows g' self',
  intern_ok (Opt3.id_of g) (Opt3.states g) q done ->
  pydict_get (Opt3.id_of g) root = Some 0%nat ->
  rev (Opt3.kinds g) = map tag done ->
  Opt3.kinds g = map (fun r => fst (fst r)) rows ->
  Opt3.succ_states g = map (fun r => snd (fst r)) rows ->
  Opt3.succ_pairs g = map snd rows ->
  Forall (row_ok (length (Opt3.states g))) rows ->
  Opt3.build_graph_loop fuel self q g = Some (g', self') ->
  tables_ok root g' /\ same_bounds self self'.
Proof.
  induction fuel as [|fuel IH]; intros self q g done rows g' self' Hi Hr Hk Ek Es Ep HR E.
  - destruct q; [|discriminate E]. cbn [Opt3.build_graph_loop] in E. injection E as <- <-.
    split; [|apply same_bounds_refl].
    destruct Hi as [Hg Hq]. rewrite app_nil_r in Hq.
    split; cbn [Opt3.id_of Opt3.states Opt3.kinds Opt3.succ_states Opt3.succ_pairs];
      [exact Hr|exact Hg|now rewrite Hk, Hq|].
    exists (rev rows). rewrite Ek, Es, Ep, !map_rev, length_rev.
    repeat split. now apply Forall_rev.
  - destruct q as [|sp q].
    { cbn [Opt3.build_graph_loop] in E. injection E as <- <-.
      split; [|apply same_bounds_refl].
      destruct Hi as [Hg Hq]. rewrite app_nil_r in Hq.
      split; cbn [Opt3.id_of Opt3.states Opt3.kinds Opt3.succ_states Opt3.succ_pairs];
        [exact Hr|exact Hg|now rewrite Hk, Hq|].
      exists (rev rows). rewrite Ek, Es, Ep, !map_rev, length_rev.
      repeat split. now apply Forall_rev. }
    cbn [Opt3.build_graph_loop] in E.
    destruct (pydict_get (Opt3.id_of g) sp) as [i|]; cbn [mbind option_bind] in E;
      [|discriminate E].
    assert (Hi' : intern_ok (Opt3.id_of g) (Opt3.states g) q (done ++ [sp])).
    { destruct Hi as [Hg Hq]. split; [exact Hg|]. now rewrite Hq, <- app_assoc. }
    assert (Hk' : forall kinds', rev (tag sp :: kinds') = rev kinds' ++ [tag sp])
      by reflexivity.
    destruct (tag sp =? 0) eqn:E0.
    + destruct (getSuccessors self sp) as [[nxt self1]|] eqn:Eg; cbn [mbind option_bind] in E;
        [|discriminate E].
      destruct nxt as [nxt|nxt]; [|discriminate E].
      unfold Opt3.intern_states in E.
      destruct (fold_left _ nxt _) as [[[ids' sts'] q'] l] eqn:Ef.
      apply (intern_states_ok (done ++ [sp])) in Ef as (H1 & H2 & H3 & H4);
        [|exact Hi'|constructor].
      apply (IH _ _ _ (done ++ [sp]) ((0, Some l, None) :: rows)) in E;
        cbn [Opt3.id_of Opt3.states Opt3.kinds Opt3.succ_states Opt3.succ_pairs map fst snd];
        try congruence; auto.
      * destruct E as [Ht Hb]. split; [exact Ht|].
        eapply same_bounds_trans; [|exact Hb]. eapply getSuccessors_same_bounds, Eg.
      * apply Z.eqb_eq in E0. cbn [rev]. rewrite Hk, map_app. cbn [map]. now rewrite E0.
      * constructor.
        -- cbn. split; [eauto|reflexivity].
        -- eapply List.Forall_impl; [|exact HR]. intros r. now apply row_ok_mono.
    + destruct (tag sp =? 4) eqn:E4.
      * apply (IH _ _ _ (done ++ [sp]) ((4, Some [], Some []) :: rows)) in E;
          cbn [Opt3.id_of Opt3.states Opt3.kinds Opt3.succ_states Opt3.succ_pairs map fst snd];
          try congruence; auto.
        -- apply Z.eqb_eq in E4. cbn [rev]. rewrite Hk, map_app. cbn [map]. now rewrite E4.
        -- constructor; [cbn; auto|exact HR].
      * destruct (getSuccessors self sp) as [[nxt self1]|] eqn:Eg;
          cbn [mbind option_bind] in E; [|discriminate E].
        destruct nxt as [nxt|nxt]; [discriminate E|].
        unfold Opt3.intern_pairs in E.
        destruct (fold_left _ nxt _) as [[[ids' sts'] q'] l] eqn:Ef.
        apply (intern_pairs_ok (done ++ [sp])) in Ef as (H1 & H2 & H3 & H4);
          [|exact Hi'|constructor].
        apply (IH _ _ _ (done ++ [sp]) ((tag sp, None, Some l) :: rows)) in E;
          cbn [Opt3.id_of Opt3.states Opt3.kinds Opt3.succ_states Opt3.succ_pairs map fst snd];
          try congruence; auto.
        -- destruct E as [Ht Hb]. split; [exact Ht|].
           eapply same_bounds_trans; [|exact Hb]. eapply getSuccessors_same_bounds, Eg.
        -- cbn [rev]. now rewrite Hk, map_app.
        -- constructor.
           ++ unfold row_ok. rewrite E0, E4. split; [reflexivity|eauto].
           ++ eapply List.Forall_impl; [|exact HR]. intros r. now apply row_ok_mono.
Qed.

Lemma build_graph_tables_ok fuel self root g self' :
  Opt3.build_graph fuel self root = Some (g, self') ->
  tables_ok root g /\ same_bounds self self'.
Proof.
  intros E. unfold Opt3.build_graph in E.
  apply (build_graph_loop_tables root fuel self [root]
           (Opt3.mk_graph (pydict_set ∅ root 0%nat) [root] [] [] []) [] [] g self');
    cbn [Opt3.id_of Opt3.states Opt3.kinds Opt3.succ_states Opt3.succ_pairs map rev];
    [|apply pydict_get_set_eq|reflexivity..|constructor|exact E].
  split; [|reflexivity].
  intros sp k. rewrite pydict_get_set, pydict_get_empty.
  change (@key_eqb statep statep_key) with statep_eqb. cbn [rev app].
  destruct (statep_eqb root sp) eqn:Ee.
  - apply statep_eqb_eq in Ee. subst sp. split.
    + now intros [= <-].
    + intros Hk. destruct k; [reflexivity|discriminate Hk].
  - split; [discriminate|]. intros Hk. destruct k; [|discriminate Hk].
    injection Hk as ->. now rewrite statep_eqb_refl in Ee.
Qed.

(** X17.  The tables of [build_graph], for any root and whatever the
    cache holds.  The root has id 0; [id_of] and [states] are inverse to
    each other, so the ids are 0, 1, ... without gaps and no key has two
    ids; the four lists have one entry per key; [kinds] holds the first
    component of every key; and every row has the shape of its kind, with
    all the ids it names below the number of keys.  The bounds and the
    frozen set of the object are not touched. *)
Theorem build_graph_tables fuel self root g self' :
  Opt3.build_graph fuel self root = Some (g, self') ->
  let n := length (Opt3.states g) in
  pydict_get (Opt3.id_of g) root = Some 0%nat /\
  (forall sp k, pydict_get (Opt3.id_of g) sp = Some k <-> Opt3.states g !! k = Some sp) /\
  List.NoDup (Opt3.states g) /\
  Opt3.kinds g = map tag (Opt3.states g) /\
  length (Opt3.kinds g) = n /\ length (Opt3.succ_states g) = n /\
  length (Opt3.succ_pairs g) = n /\
  (forall i k ss sp,
     Opt3.kinds g !! i = Some k -> Opt3.succ_states g !! i = Some ss ->
     Opt3.succ_pairs g !! i = Some sp -> row_ok n (k, ss, sp)) /\
  same_bounds self self'.
Proof.
  intros E. apply build_graph_tables_ok in E as H.
  destruct H as [[Hr Hg Hk (rows & Ek & Es & Ep & HR)] Hb]. cbv zeta.
  split; [exact Hr|]. split; [exact Hg|]. split.
  { apply NoDup_ListNoDup, NoDup_alt. intros i j sp Hi Hj. apply Hg in Hi, Hj. congruence. }
  split; [exact Hk|]. split; [now rewrite Hk, length_map|].
  assert (Hl : length rows = length (Opt3.states g)).
  { rewrite <- (length_map (fun r => fst (fst r)) rows), <- Ek, Hk. apply length_map. }
  split; [now rewrite Es, length_map|]. split; [now rewrite Ep, length_map|].
  split; [|exact Hb].
  intros i k ss sp. rewrite Ek, Es, Ep, !lookup_map.
  destruct (rows !! i) as [[[k' ss'] sp']|] eqn:Er; cbn; [|discriminate].
  intros [= <-] [= <-] [= <-]. rewrite Forall_lookup in HR. exact (HR i _ Er).
Qed.

Lemma build_graph_tables_witness :
  let root := Key2 (applyHPChange charhalf (- 62), starhalf, 0) 1 "Water Gun" in
  let g := fst (default (Opt3.mk_graph ∅ [] [] [] [], Battle_new)
                  (Opt3.build_graph 5 Battle_new root)) in
  let self' := snd (default (Opt3.mk_graph ∅ [] [] [] [], Battle_new)
                      (Opt3.build_graph 5 Battle_new root)) in
  let n := length (Opt3.states g) in
  pydict_get (Opt3.id_of g) root = Some 0%nat /\
  (forall sp k, pydict_get (Opt3.id_of g) sp = Some k <-> Opt3.states g !! k = Some sp) /\
  List.NoDup (Opt3.states g) /\
  Opt3.kinds g = map tag (Opt3.states g) /\
  length (Opt3.kinds g) = n /\ length (Opt3.succ_states g) = n /\
  length (Opt3.succ_pairs g) = n /\
  (forall i k ss sp,
     Opt3.kinds g !! i = Some k -> Opt3.succ_states g !! i = Some ss ->
     Opt3.succ_pairs g !! i = Some sp -> row_ok n (k, ss, sp)) /\
  same_bounds Battle_new self'.
Proof.
  intros root g self'. apply (build_graph_tables 5 Battle_new root g self').
  vm_compute. reflexivity.
Defined.

(** ** The hot loop of mdp_opt3 *)

(** The three arrays have [n] entries. *)
Definition arrays_ok (n : nat) (a : Opt3.arrays) : Prop :=
  length (Opt3.dmin_arr a) = n /\ length (Opt3.dmax_arr a) = n /\
  length (Opt3.frozen_a a) = n.

(** The rows of the graph have the shape of their kind, for [n] keys. *)
Definition rows_ok (n : nat) (g : Opt3.graph) : Prop :=
  length (Opt3.kinds g) = n /\ length (Opt3.succ_states g) = n /\
  length (Opt3.succ_pairs g) = n /\
  forall i k ss sp,
    Opt3.kinds g !! i = Some k -> Opt3.succ_states g !! i = Some ss ->
    Opt3.succ_pairs g !! i = Some sp -> row_ok n (k, ss, sp).

Lemma lookup_total {A} (l : list A) i : (i < length l)%nat -> exists x, l !! i = Some x.
Proof. intros Hi. apply lookup_lt_is_Some_2 in Hi as [x Hx]. eauto. Qed.

Lemma py_list_set_total {A} (l : list A) i x :
  (i < length l)%nat -> py_list_set l i x = Some (<[i := x]> l).
Proof. intros Hi. unfold py_list_set. apply Nat.ltb_lt in Hi. now rewrite Hi. Qed.

Lemma set_bounds_total n a i lo hi :
  arrays_ok n a -> (i < n)%nat ->
  exists a', Opt3.set_bounds a i lo hi = Some a' /\ arrays_ok n a' /\
             Opt3.frozen_a a' = Opt3.frozen_a a.
Proof.
  intros (H1 & H2 & H3) Hi. unfold Opt3.set_bounds.
  rewrite !py_list_set_total by lia. cbn [mbind option_bind].
  eexists. split; [reflexivity|]. split; [|reflexivity].
  unfold arrays_ok. cbn [Opt3.dmin_arr Opt3.dmax_arr Opt3.frozen_a].
  now rewrite !length_insert.
Qed.

Lemma choice_bounds_total n a succ :
  arrays_ok n a -> Forall (fun j => (j < n)%nat) succ ->
  exists b, Opt3.choice_bounds a succ = Some b.
Proof.
  intros (H1 & H2 & H3) Hs. unfold Opt3.choice_bounds.
  generalize (neg_infinity, neg_infinity).
  induction Hs as [|j succ Hj Hs IH]; intros b; cbn [foldl]; [eauto|].
  destruct (lookup_total (Opt3.dmin_arr a) j) as [vmin ->]; [lia|].
  destruct (lookup_total (Opt3.dmax_arr a) j) as [vmax ->]; [lia|].
  destruct b as [bm bM]. cbn [mbind option_bind]. apply IH.
Qed.

Lemma chance_bounds_total n a (succ : list (nat * float)) :
  arrays_ok n a -> Forall (fun j => (j < n)%nat) (map fst succ) ->
  exists b, Opt3.chance_bounds a succ = Some b.
Proof.
  intros (H1 & H2 & H3). unfold Opt3.chance_bounds.
  generalize (0%float, 0%float).
  induction succ as [|[j p] succ IH]; intros b Hs; cbn [foldl]; [eauto|].
  cbn [map fst] in Hs. apply Forall_cons in Hs as [Hj Hs].
  destruct (lookup_total (Opt3.dmin_arr a) j) as [vmin ->]; [lia|].
  destruct (lookup_total (Opt3.dmax_arr a) j) as [vmax ->]; [lia|].
  destruct b as [bm bM]. cbn [mbind option_bind]. now apply IH.
Qed.

Lemma visit_tail_total n a i :
  arrays_ok n a -> (i < n)%nat ->
  exists a',
    (lo ← Opt3.dmin_arr a !! i;
     hi ← Opt3.dmax_arr a !! i;
     if (hi <=? lo)%float then
       let mid := (0.5 * (lo + hi))%float in
       a ← Opt3.set_bounds a i mid mid;
       fr ← py_list_set (Opt3.frozen_a a) i true;
       Some (Opt3.mk_arrays (Opt3.dmin_arr a) (Opt3.dmax_arr a) fr)
     else Some a) = Some a' /\ arrays_ok n a'.
Proof.
  intros Ha Hi. pose proof Ha as (H1 & H2 & H3).
  destruct (lookup_total (Opt3.dmin_arr a) i) as [lo ->]; [lia|].
  destruct (lookup_total (Opt3.dmax_arr a) i) as [hi ->]; [lia|].
  cbn [mbind option_bind]. destruct (hi <=? lo)%float; [|eauto].
  cbv zeta.
  destruct (set_bounds_total n a i (0.5 * (lo + hi)) (0.5 * (lo + hi)) Ha Hi)
    as (a1 & -> & (G1 & G2 & G3) & Ef).
  cbn [mbind option_bind]. rewrite py_list_set_total by lia. cbn [mbind option_bind].
  eexists. split; [reflexivity|].
  unfold arrays_ok. cbn [Opt3.dmin_arr Opt3.dmax_arr Opt3.frozen_a].
  now rewrite length_insert.
Qed.

Lemma visit_opt3_total n g a i :
  rows_ok n g -> arrays_ok n a -> (i < n)%nat ->
  exists a', Opt3.visit g a i = Some a' /\ arrays_ok n a'.
Proof.
  intros (K1 & K2 & K3 & KR) Ha Hi. pose proof Ha as (H1 & H2 & H3).
  unfold Opt3.visit.
  destruct (lookup_total (Opt3.frozen_a a) i) as [fr ->]; [lia|]. cbn [mbind option_bind].
  destruct fr; [eauto|].
  destruct (lookup_total (Opt3.kinds g) i) as [k Ek]; [lia|].
  destruct (lookup_total (Opt3.succ_states g) i) as [ss Es]; [lia|].
  destruct (lookup_total (Opt3.succ_pairs g) i) as [sp Ep]; [lia|].
  pose proof (KR i k ss sp Ek Es Ep) as HR. unfold row_ok in HR.
  rewrite Ek. cbn [mbind option_bind].
  assert (Mid : exists a1,
    (if k =? 0 then
       succ ← Opt3.succ_states g !! i; succ ← succ;
       '(lo, hi) ← Opt3.choice_bounds a succ; Opt3.set_bounds a i lo hi
     else if (k =? 1) || (k =? 2) then
       succ ← Opt3.succ_pairs g !! i; succ ← succ;
       '(lo, hi) ← Opt3.chance_bounds a succ; Opt3.set_bounds a i lo hi
     else Some a) = Some a1 /\ arrays_ok n a1).
  { destruct (k =? 0) eqn:E0.
    - destruct HR as [(l & -> & Hl) _]. rewrite Es. cbn [mbind option_bind].
      destruct (choice_bounds_total n a l Ha Hl) as [[lo hi] ->]. cbn [mbind option_bind].
      destruct (set_bounds_total n a i lo hi Ha Hi) as (a1 & E1 & G & _). eauto.
    - destruct ((k =? 1) || (k =? 2)) eqn:E12; [|eauto].
      destruct (k =? 4) eqn:E4.
      { apply Z.eqb_eq in E4. subst k. discriminate E12. }
      destruct HR as [_ (l & -> & Hl)]. rewrite Ep. cbn [mbind option_bind].
      destruct (chance_bounds_total n a l Ha Hl) as [[lo hi] ->]. cbn [mbind option_bind].
      destruct (set_bounds_total n a i lo hi Ha Hi) as (a1 & E1 & G & _). eauto. }
  destruct Mid as (a1 & -> & Ha1). cbn [mbind option_bind].
  now apply visit_tail_total.
Qed.

(** X18.  The sweep of mdp_opt3 stays within its arrays.  On tables of
    the shape that [build_graph] returns, with arrays of one entry per
    key, a sweep over ids below the number of keys returns: no index is
    out of range and no [None] is met where a list is expected.  The
    arrays keep their length. *)
Theorem sweep_opt3_in_range n g order_ids : forall a,
  rows_ok n g -> arrays_ok n a -> Forall (fun i => (i < n)%nat) order_ids ->
  exists a', Opt3.sweep g a order_ids = Some a' /\ arrays_ok n a'.
Proof.
  unfold Opt3.sweep. induction order_ids as [|i order_ids IH]; intros a Hg Ha Ho;
    cbn [foldl]; [eauto|].
  apply Forall_cons in Ho as [Hi Ho]. cbn [mbind option_bind].
  destruct (visit_opt3_total n g a i Hg Ha Hi) as (a1 & -> & Ha1). now apply IH.
Qed.

Lemma sweep_opt3_in_range_witness :
  let g := Opt3.mk_graph ∅ [initial_statep; win; loss] [0; 4; 4]
             [Some [1; 2]%nat; Some []; Some []] [None; Some []; Some []] in
  let a := Opt3.mk_arrays [0; 1; 0]%float [1; 1; 0]%float [false; true; true] in
  exists a', Opt3.sweep g a [1; 2; 0]%nat = Some a' /\ arrays_ok 3 a'.
Proof.
  intros g a. apply (sweep_opt3_in_range 3 g [1; 2; 0]%nat a).
  - split; [reflexivity|]. split; [reflexivity|]. split; [reflexivity|].
    intros [|[|[|i]]] k ss sp; cbn; try discriminate; intros [= <-] [= <-] [= <-]; cbn.
    + split; [|reflexivity]. exists [1; 2]%nat. split; [reflexivity|].
      repeat constructor.
    + now split.
    + now split.
  - repeat split.
  - repeat constructor.
Defined.

(** X19.  The arrays that [evaluate] of mdp_opt3 starts from hold, at the
    id of every key, what a new [Battle] of mdp_opt2 reads for that key:
    the lower bound, the upper bound and the frozen mark.  It is enough
    that [id_of] and [states] are inverse to each other, as in the tables
    of [build_graph]. *)
Theorem seed_matches_new_Battle g :
  (forall sp k, pydict_get (Opt3.id_of g) sp = Some k <-> Opt3.states g !! k = Some sp) ->
  exists a, Opt3.seed g = Some a /\ arrays_ok (length (Opt3.states g)) a /\
    forall sp i, pydict_get (Opt3.id_of g) sp = Some i ->
      Opt3.dmin_arr a !! i = Some (min_get Battle_new sp) /\
      Opt3.dmax_arr a !! i = Some (max_get Battle_new sp) /\
      Opt3.frozen_a a !! i = Some (pyset_mem (frozen Battle_new) sp).
Proof.
  intros Hg. set (n := length (Opt3.states g)).
  assert (Hlt : forall sp i, pydict_get (Opt3.id_of g) sp = Some i -> (i < n)%nat).
  { intros sp i Hi. apply Hg in Hi. now apply lookup_lt_Some in Hi. }
  assert (Hinj : forall sp sp' i, pydict_get (Opt3.id_of g) sp = Some i ->
                   pydict_get (Opt3.id_of g) sp' = Some i -> sp = sp').
  { intros sp sp' i Hi Hi'. apply Hg in Hi, Hi'. congruence. }
  assert (Hmin : forall sp, min_get Battle_new sp = if statep_eqb win sp then 1%float else 0%float).
  { intros sp. unfold min_get, Battle_new. cbn [dmin]. rewrite pydict_get_set, pydict_get_empty.
    change (@key_eqb statep statep_key) with statep_eqb. now destruct (statep_eqb win sp). }
  assert (Hmax : forall sp, max_get Battle_new sp = if statep_eqb loss sp then 0%float else 1%float).
  { intros sp. unfold max_get, Battle_new. cbn [dmax]. rewrite pydict_get_set, pydict_get_empty.
    change (@key_eqb statep statep_key) with statep_eqb. now destruct (statep_eqb loss sp). }
  assert (Hfr : forall sp, pyset_mem (frozen Battle_new) sp
                           = statep_eqb loss sp || statep_eqb win sp).
  { intros sp. unfold Battle_new. cbn [frozen]. rewrite !pyset_mem_add, pyset_mem_empty.
    change (@key_eqb statep statep_key) with statep_eqb.
    now destruct (statep_eqb loss sp), (statep_eqb win sp). }
  assert (Hne : forall sp sp' i i', pydict_get (Opt3.id_of g) sp = Some i ->
                  pydict_get (Opt3.id_of g) sp' = Some i' ->
                  statep_eqb sp sp' = false -> i <> i').
  { intros sp sp' i i' Hi Hi' Ee ->. rewrite (Hinj _ _ _ Hi Hi'), statep_eqb_refl in Ee.
    discriminate Ee. }
  assert (Hnone : forall sp sp' i, pydict_get (Opt3.id_of g) sp = None ->
                    pydict_get (Opt3.id_of g) sp' = Some i -> statep_eqb sp sp' = false).
  { intros sp sp' i Hn Hi. apply statep_eqb_ne. congruence. }
  unfold Opt3.seed. fold n. cbn [Opt3.dmin_arr Opt3.dmax_arr Opt3.frozen_a].
  destruct (pydict_get (Opt3.id_of g) loss) as [il|] eqn:El;
    destruct (pydict_get (Opt3.id_of g) win) as [iw|] eqn:Ew;
    try (pose proof (Hlt _ _ El)); try (pose proof (Hlt _ _ Ew));
    rewrite ?py_list_set_total by (rewrite ?length_insert, length_replicate; assumption);
    cbn [mbind option_bind Opt3.dmin_arr Opt3.dmax_arr Opt3.frozen_a];
    rewrite ?py_list_set_total by (rewrite ?length_insert, length_replicate; assumption);
    cbn [mbind option_bind Opt3.dmin_arr Opt3.dmax_arr Opt3.frozen_a];
    (eexists; split; [reflexivity|]; split;
     [unfold arrays_ok; cbn [Opt3.dmin_arr Opt3.dmax_arr Opt3.frozen_a];
      now rewrite ?length_insert, !length_replicate|]);
    intros sp i Hi; pose proof (Hlt _ _ Hi) as Hin;
    cbn [Opt3.dmin_arr Opt3.dmax_arr Opt3.frozen_a];
    rewrite Hmin, Hmax, Hfr.
  - destruct (statep_eqb loss sp) eqn:E1; destruct (statep_eqb win sp) eqn:E2;
      try (apply statep_eqb_eq in E1; subst sp); try (apply statep_eqb_eq in E2; subst sp);
      try discriminate E1; try discriminate E2;
      repeat match goal with
      | H : pydict_get _ ?k = Some ?x, H' : pydict_get _ ?k = Some ?y |- _ =>
          assert (x = y) by congruence; subst y; clear H'
      end;
      rewrite ?list_lookup_insert_eq by (rewrite ?length_insert, length_replicate; assumption);
      try (pose proof (Hne _ _ _ _ El Hi E1)); try (pose proof (Hne _ _ _ _ Ew Hi E2));
      try (pose proof (Hne _ _ _ _ Ew El eq_refl));
      rewrite ?list_lookup_insert_ne by congruence;
      rewrite ?list_lookup_insert_eq by (rewrite ?length_insert, length_replicate; assumption);
      rewrite ?lookup_replicate_2 by assumption; auto.
  - rewrite (Hnone _ _ _ Ew Hi).
    destruct (statep_eqb loss sp) eqn:E1;
      try (apply statep_eqb_eq in E1; subst sp);
      repeat match goal with
      | H : pydict_get _ ?k = Some ?x, H' : pydict_get _ ?k = Some ?y |- _ =>
          assert (x = y) by congruence; subst y; clear H'
      end;
      rewrite ?list_lookup_insert_eq by (rewrite ?length_insert, length_replicate; assumption);
      try (pose proof (Hne _ _ _ _ El Hi E1));
      rewrite ?list_lookup_insert_ne by congruence;
      rewrite ?lookup_replicate_2 by assumption; auto.
  - rewrite (Hnone _ _ _ El Hi).
    destruct (statep_eqb win sp) eqn:E2;
      try (apply statep_eqb_eq in E2; subst sp);
      repeat match goal with
      | H : pydict_get _ ?k = Some ?x, H' : pydict_get _ ?k = Some ?y |- _ =>
          assert (x = y) by congruence; subst y; clear H'
      end;
      rewrite ?list_lookup_insert_eq by (rewrite ?length_insert, length_replicate; assumption);
      try (pose proof (Hne _ _ _ _ Ew Hi E2));
      rewrite ?list_lookup_insert_ne by congruence;
      rewrite ?lookup_replicate_2 by assumption; auto.
  - rewrite (Hnone _ _ _ El Hi), (Hnone _ _ _ Ew Hi).
    rewrite !lookup_replicate_2 by assumption. auto.
Qed.

Lemma seed_matches_new_Battle_witness :
  let root := Key2 (applyHPChange charhalf (- 62), starhalf, 0) 1 "Water Gun" in
  let g := fst (default (Opt3.mk_graph ∅ [] [] [] [], Battle_new)
                  (Opt3.build_graph 5 Battle_new root)) in
  exists a, Opt3.seed g = Some a /\ arrays_ok (length (Opt3.states g)) a /\
    forall sp i, pydict_get (Opt3.id_of g) sp = Some i ->
      Opt3.dmin_arr a !! i = Some (min_get Battle_new sp) /\
      Opt3.dmax_arr a !! i = Some (max_get Battle_new sp) /\
      Opt3.frozen_a a !! i = Some (pyset_mem (frozen Battle_new) sp).
Proof.
  intros root g. apply (seed_matches_new_Battle g). apply (to_get root g).
  apply (build_graph_tables_ok 5 Battle_new root g
           (snd (default (Opt3.mk_graph ∅ [] [] [] [], Battle_new)
                   (Opt3.build_graph 5 Battle_new root)))).
  vm_compute. reflexivity.
Defined.

(** ** Who moves first *)




(** ** Successors before their key *)

Section TopoSortPostorder.
Context {K : Type} `{PyKeyLaws K}.
Variable getParents : K -> list K.

(** The entries of the stack, from the top; [above] are the entries
    passed so far.  Every key with a mark on the stack below an entry
    reaches the key of the entry; and every successor of a key that waits
    to be appended is visited, or waits above it to be visited. *)
Fixpoint opens (visited : pyset K) (above stack : list (K * Z)) : Prop :=
  match stack with
  | [] => True
  | (u, st) :: below =>
      (st <> 0 -> forall v, In v (getParents u) ->
                  pyset_mem visited v = true \/ In (v, 0) above) /\
      (forall w, In w (marks below) -> reachable getParents w u) /\
      opens visited ((u, st) :: above) below
  end.

(** The results, the last appended first: a successor of a key was
    appended before the key, or reaches it. *)
Fixpoint post_ok (results : list K) : Prop :=
  match results with
  | [] => True
  | u :: older =>
      (forall v, In v (getParents u) -> In v older \/ reachable getParents v u) /\
      post_ok older
  end.

Lemma opens_mono visited visited' stack : forall a1 a2,
  (forall v, pyset_mem visited v = true \/ In (v, 0) a1 ->
             pyset_mem visited' v = true \/ In (v, 0) a2) ->
  opens visited a1 stack -> opens visited' a2 stack.
Proof.
  induction stack as [|[u st] below IH]; intros a1 a2 Ha; cbn [opens]; [auto|].
  intros (Ho & Hr & Hb). split; [|split; [exact Hr|]].
  - intros Hst v Hv. apply Ha. now apply Ho.
  - apply (IH ((u, st) :: a1)); [|exact Hb].
    intros v [E|[E|I]]; [|right; now left|].
    + destruct (Ha v (or_introl E)) as [E'|I']; [auto|right; now right].
    + destruct (Ha v (or_intror I)) as [E'|I']; [auto|right; now right].
Qed.

Lemma marks_app_0 (pre stack : list (K * Z)) :
  Forall (fun e => snd e = 0) pre -> marks (pre ++ stack) = marks stack.
Proof.
  induction 1 as [|[k st] pre Hk Hp IH]; [reflexivity|].
  cbn [snd] in Hk. subst st. cbn [app]. now rewrite marks_cons_0.
Qed.

Lemma opens_push visited stack pre : forall above,
  Forall (fun e => snd e = 0 /\
                   forall w, In w (marks stack) -> reachable getParents w (fst e)) pre ->
  opens visited (rev pre ++ above) stack ->
  opens visited above (pre ++ stack).
Proof.
  induction pre as [|[v st] pre IH]; intros above Hp Ho; [exact Ho|].
  apply Forall_cons in Hp as [[Hst Hr] Hp]. cbn [fst snd] in Hst, Hr. subst st.
  cbn [app opens]. split; [intros N; now contradiction N|]. split.
  - intros w Hw. apply Hr. rewrite marks_app_0 in Hw; [exact Hw|].
    eapply List.Forall_impl; [|exact Hp]. now intros e [E _].
  - apply IH; [exact Hp|]. cbn [rev] in Ho. now rewrite <- app_assoc in Ho.
Qed.

Lemma post_ok_app a : forall b, post_ok (a ++ b) -> post_ok b.
Proof. induction a as [|x a IH]; intros b; cbn [app post_ok]; [auto|]. intros [_ Hp]. auto. Qed.

Lemma topoSort_loop_post root fuel : forall stack visited results r,
  topo_inv getParents root stack visited results ->
  opens visited [] stack -> post_ok results ->
  topoSort_loop (pure_parents getParents) fuel stack visited results tt = Some (r, tt) ->
  post_ok (rev r).
Proof.
  induction fuel as [|fuel IH]; intros stack visited results r Hi Ho Hp;
    destruct stack as [|[c st] stack]; cbn [topoSort_loop]; try discriminate;
    try (intros [= <-]; now rewrite rev_involutive).
  cbn [opens] in Ho. destruct Ho as (Hopen & Hreach & Hbelow).
  destruct (st =? 0) eqn:Est.
  - apply Z.eqb_eq in Est. subst st. destruct (pyset_mem visited c) eqn:Ec.
    + apply IH; [now apply topo_inv_skip with c| |exact Hp].
      apply (opens_mono visited visited stack [(c, 0)] []); [|exact Hbelow].
      intros v [E|[[= ->]|[]]]; auto.
    + unfold pure_parents at 1. cbn [mbind option_bind].
      apply IH; [now apply topo_inv_visit| |exact Hp].
      rewrite rev_append_rev. apply opens_push.
      * apply List.Forall_forall. intros e He. apply in_rev, in_map_iff in He as (v & <- & Hv).
        split; [reflexivity|]. cbn [fst]. intros w Hw.
        rewrite marks_cons_1 in Hw by reflexivity.
        eapply rtc_r; [|exact Hv]. destruct Hw as [<-|Hw]; [constructor|now apply Hreach].
      * rewrite rev_involutive, app_nil_r. cbn [opens]. split; [|split].
        -- intros _ v Hv. right. apply in_map_iff. eauto.
        -- exact Hreach.
        -- apply (opens_mono visited _ stack [(c, 0)]); [|exact Hbelow].
           intros v [E|[[= ->]|[]]]; left.
           ++ now apply pyset_mem_add_mono.
           ++ apply pyset_mem_add_eq.
  - apply IH; [now apply topo_inv_finish with st| |].
    + apply (opens_mono visited visited stack [(c, st)] []); [|exact Hbelow].
      intros v [E|[[= _ ->]|[]]]; [auto|discriminate Est].
    + cbn [post_ok]. split; [|exact Hp].
      intros v Hv. assert (Hst : st <> 0) by (intros ->; discriminate Est).
      destruct (Hopen Hst v Hv) as [E|[]].
      apply (inv_visited _ _ _ _ _ Hi) in E. rewrite (marks_cons_1 c st stack Est) in E.
      destruct E as [I|[<-|I]]; [now left|right; constructor|right; now apply Hreach].
Qed.

(** X21.  The order of the sweep: in the sequence that [topoSort]
    returns, every successor of a key stands before the key, unless the
    successor reaches the key, that is unless the edge closes a cycle. *)
Theorem topoSort_postorder root fuel r :
  topoSort (pure_parents getParents) fuel [root] tt = Some (r, tt) ->
  forall l1 u l2 v,
    r = l1 ++ u :: l2 -> In v (getParents u) ->
    In v l1 \/ reachable getParents v u.
Proof.
  intros E l1 u l2 v -> Hv. unfold topoSort in E. cbn [map rev app] in E.
  apply (topoSort_loop_post root) in E; [|apply topo_inv_init| |exact I].
  - rewrite rev_app_distr in E. cbn [rev] in E. rewrite <- app_assoc in E.
    apply post_ok_app in E. cbn [app post_ok] in E. destruct E as [E _].
    destruct (E v Hv) as [Hin|R]; [left; now apply in_rev|now right].
  - cbn [opens]. split; [intros N; now contradiction N|]. split; [intros w []|exact I].
Qed.
End TopoSortPostorder.

Lemma topoSort_postorder_witness :
  topoSort (pure_parents small_graph) 20 [0] tt = Some ([3; 1; 2; 0], tt) /\
  forall l1 u l2 v,
    [3; 1; 2; 0] = l1 ++ u :: l2 -> In v (small_graph u) ->
    In v l1 \/ reachable small_graph v u.
Proof.
  split; [reflexivity|].
  apply (topoSort_postorder small_graph 0 20 [3; 1; 2; 0]). reflexivity.
Defined.

(** ** Collapsed bounds *)

(** X22.  Bounds that have met stay together: when the lower and the
    upper bound of every successor are the same number, the two bounds
    computed for a choice are the same number, and so are the two bounds
    computed for a chance node (the two sums run over the same terms in
    the same order). *)
Theorem bounds_collapse self :
  (forall succ,
     (forall sp2, In sp2 succ -> min_get self sp2 = max_get self sp2) ->
     fst (choice_bounds self succ) = snd (choice_bounds self succ)) /\
  (forall succ,
     (forall sp2, In sp2 (map fst succ) -> min_get self sp2 = max_get self sp2) ->
     fst (chance_bounds self succ) = snd (chance_bounds self succ)).
Proof.
  split.
  - intros succ Hs. unfold choice_bounds. rewrite choice_bounds_folds. cbn [fst snd].
    f_equal. apply map_ext_in. exact Hs.
  - intros succ. unfold chance_bounds.
    assert (G : forall acc : float * float,
      fst acc = snd acc ->
      (forall sp2, In sp2 (map fst succ) -> min_get self sp2 = max_get self sp2) ->
      fst (fold_left (fun '(smin, smax) '(sp2, p) =>
                        ((smin + min_get self sp2 * p)%float,
                         (smax + max_get self sp2 * p)%float)) succ acc)
      = snd (fold_left (fun '(smin, smax) '(sp2, p) =>
                          ((smin + min_get self sp2 * p)%float,
                           (smax + max_get self sp2 * p)%float)) succ acc)).
    { induction succ as [|[sp2 p] succ IH]; intros [a b] Ea Hs; cbn [fold_left];
        [exact Ea|].
      cbn [fst snd] in Ea. subst b. apply IH.
      - cbn [fst snd]. rewrite (Hs sp2) by (now left). reflexivity.
      - intros k Hk. apply Hs. now right. }
    now apply G.
Qed.

Lemma bounds_collapse_witness :
  fst (choice_bounds Battle_new [win; loss]) = snd (choice_bounds Battle_new [win; loss]).
Proof.
  apply (proj1 (bounds_collapse Battle_new) [win; loss]).
  intros sp2 [<-|[<-|[]]]; vm_compute; reflexivity.
Defined.
